(** * DreamerV3 training core: a shallow embedding of [jaxutils.py] and [agent.py]

    Tensors are flattened to lists; float arithmetic is idealised to the real
    numbers, except in the optimizer, where the code itself tests gradients
    for finiteness and a value is either a finite real or non-finite, and in
    the statistics of the return normalizer, where a division by a zero bias
    correction gives an infinity or a NaN.  The
    [int32] variables of the code ([step], [good_steps], [updates]) are
    integers with the wrap-around written out.  A Python exception is a
    [Raise] of the error monad below. *)

From Stdlib Require Import Reals Lra Lia ZArith QArith.
From stdpp Require Import base gmap strings list.

(** ** Exceptions *)

Inductive exn : Type :=
| IndexError
| KeyError
| AssertionError
| ZeroDivisionError
| TypeError
| ValueError
| AttributeError.

Inductive result (A : Type) : Type :=
| Ok (a : A)
| Raise (e : exn).

Arguments Ok {A} a.
Arguments Raise {A} e.

#[global] Instance result_ret : MRet result := fun A a => Ok a.
#[global] Instance result_bind : MBind result := fun A B f m =>
  match m with
  | Ok a => f a
  | Raise e => Raise e
  end.

(** ** int32 variables *)

Definition wrap32 (z : Z) : Z := ((z + 2 ^ 31) mod 2 ^ 32 - 2 ^ 31)%Z.

Definition int32_range (z : Z) : Prop := (- 2 ^ 31 <= z < 2 ^ 31)%Z.

Definition b2z (b : bool) : Z := if b then 1%Z else 0%Z.

Definition b2r (b : bool) : R := if b then 1%R else 0%R.

(** ** Elementwise arithmetic on flattened arrays *)

Local Open Scope R_scope.

(** [jnp.clip(x, lo, hi)] *)
Definition clip (x lo hi : R) : R := Rmin hi (Rmax lo x).

(** An elementwise binary operation; operands of different length are a shape
    error (broadcasting is not modelled). *)
Fixpoint ew2 (f : R -> R -> R) (a b : list R) : result (list R) :=
  match a, b with
  | [], [] => Ok []
  | x :: a', y :: b' => r ← ew2 f a' b'; Ok (f x y :: r)
  | _, _ => Raise TypeError
  end.

(** [jnp.stack(arrays)]; an empty list of arrays is a [ValueError]. *)
Definition jnp_stack {A} (arrays : list A) : result (list A) :=
  match arrays with
  | [] => Raise ValueError
  | _ :: _ => Ok arrays
  end.

Fixpoint sum_list (l : list R) : R :=
  match l with
  | [] => 0
  | x :: l' => x + sum_list l'
  end.

Fixpoint prod_list (l : list R) : R :=
  match l with
  | [] => 1
  | x :: l' => x * prod_list l'
  end.

(** [jnp.cumprod(x, 0)] *)
Fixpoint cumprod_from (acc : R) (l : list R) : list R :=
  match l with
  | [] => []
  | x :: l' => (acc * x) :: cumprod_from (acc * x) l'
  end.

Definition cumprod (l : list R) : list R := cumprod_from 1 l.

(** ** jaxutils.symlog, jaxutils.symexp *)

Definition sign (x : R) : R :=
  if Rlt_dec x 0 then -1 else if Rlt_dec 0 x then 1 else 0.

Definition symlog (x : R) : R := sign x * ln (1 + Rabs x).

Definition symexp (x : R) : R := sign x * (exp (Rabs x) - 1).

(** ** jaxutils.SymlogDist *)

Record SymlogDist : Type := mkSymlogDist { sl_mode : list R }.

Definition SymlogDist_mode (d : SymlogDist) : list R := map symexp (sl_mode d).

Definition SymlogDist_mean (d : SymlogDist) : list R := map symexp (sl_mode d).

(** ** jaxutils.DiscDist (one distribution: the last axis of [logits]) *)

Definition softmax (l : list R) : list R :=
  let z := sum_list (map exp l) in map (fun x => exp x / z) l.

(** [jnp.linspace(low, high, n)] *)
Definition linspace (low high : R) (n : nat) : list R :=
  match n with
  | 1%nat => [low]
  | _ => map (fun i => low + INR i * ((high - low) / INR (n - 1))) (seq 0 n)
  end.

Record DiscDist : Type := mkDiscDist {
  dd_logits : list R;
  dd_low : R;
  dd_high : R;
  dd_transfwd : R -> R;
  dd_transbwd : R -> R
}.

(** The constructor's defaults: [low=-20, high=20, transfwd=symlog,
    transbwd=symexp]. *)
Definition DiscDist_default (logits : list R) : DiscDist :=
  mkDiscDist logits (-20) 20 symlog symexp.

Definition DiscDist_probs (d : DiscDist) : list R := softmax (dd_logits d).

Definition DiscDist_bins (d : DiscDist) : list R :=
  linspace (dd_low d) (dd_high d) (length (dd_logits d)).

(** [(self.probs * self.bins).sum(-1)]: the prediction in transformed space *)
Definition DiscDist_expect (d : DiscDist) : R :=
  sum_list (zip_with Rmult (DiscDist_probs d) (DiscDist_bins d)).

Definition DiscDist_mean (d : DiscDist) : R := dd_transbwd d (DiscDist_expect d).

Definition DiscDist_mode (d : DiscDist) : R := dd_transbwd d (DiscDist_expect d).

(** ** agent.VFunction.score *)

Record VConfig : Type := mkVConfig {
  horizon : R;
  return_lambda : R
}.

(** The loop body of [score]: [vals.append(interm[t] + disc[t] * lambda * vals[-1])] *)
Definition score_step (lam : R) (interm disc : list R) (vals : list R) (t : nat)
  : list R :=
  vals ++ [nth t interm 0 + nth t disc 0 * lam * List.last vals 0].

(** [rew] is [self.rewfn(traj)], [cont] is [traj["cont"]], [value] is
    [self.net(traj).mean()] and [n_action] is [len(traj["action"])]. *)
Definition score (cfg : VConfig) (rew cont value : list R) (n_action : nat)
  : result (list R * list R * list R) :=
  if negb (S (length rew) =? n_action)%nat then Raise AssertionError
  else if Req_dec_T (horizon cfg) 0 then Raise ZeroDivisionError
  else
    let discount := 1 - 1 / horizon cfg in
    let disc := map (fun c => c * discount) (tl cont) in
    match last value with
    | None => Raise IndexError
    | Some vlast =>
        d1 ← ew2 Rmult disc (tl value);
        interm ← ew2 Rplus rew (map (fun x => x * (1 - return_lambda cfg)) d1);
        let vals :=
          fold_left (score_step (return_lambda cfg) interm disc)
                    (rev (seq 0 (length disc))) [vlast] in
        ret ← jnp_stack (removelast (rev vals));
        Ok (rew, ret, removelast value)
    end.

(** The backward recursion of the loop, by structural recursion on the
    zipped [(interm, disc)] pairs; [v] is the bootstrap value. *)
Fixpoint backward (lam v : R) (l : list (R * R)) : list R :=
  match l with
  | [] => []
  | (i, d) :: l' =>
      let r := backward lam v l' in (i + d * lam * hd v r) :: r
  end.

(** ** jaxutils.Moments *)

Inductive moments_impl : Type :=
| impl_off
| impl_mean_std
| impl_min_max
| impl_perc_ema
| impl_perc_ema_corr
| impl_mean_mag
| impl_max_mag.

Record Moments : Type := mkMoments {
  m_impl : moments_impl;
  m_decay : R;
  m_max : R;
  m_eps : R;
  m_step : Z;
  m_mean : R;
  m_sqrs : R;
  m_low : R;
  m_high : R;
  m_mag : R
}.

(** A float result of [stats]: a finite number, an infinity or a NaN.
    Finite arithmetic is idealised to the real numbers; what a division by
    zero produces is propagated as IEEE 754 arithmetic does. *)
Inductive xreal : Type :=
| XFin (r : R)
| XPosInf
| XNegInf
| XNaN.

(** [a / b] for finite [a] and [b], where a zero [b] is a positive zero (the
    result of [1 - x] for [x = 1]). *)
Definition xdiv (a b : R) : xreal :=
  if Req_dec_T b 0
  then (if Rlt_dec 0 a then XPosInf else if Rlt_dec a 0 then XNegInf else XNaN)
  else XFin (a / b).

Definition xsub (x y : xreal) : xreal :=
  match x, y with
  | XNaN, _ | _, XNaN => XNaN
  | XFin a, XFin b => XFin (a - b)
  | XPosInf, XPosInf | XNegInf, XNegInf => XNaN
  | XPosInf, _ | _, XNegInf => XPosInf
  | XNegInf, _ | _, XPosInf => XNegInf
  end.

Definition xadd (x y : xreal) : xreal :=
  match x, y with
  | XNaN, _ | _, XNaN => XNaN
  | XFin a, XFin b => XFin (a + b)
  | XPosInf, XNegInf | XNegInf, XPosInf => XNaN
  | XPosInf, _ | _, XPosInf => XPosInf
  | XNegInf, _ | _, XNegInf => XNegInf
  end.

(** [jnp.maximum], which propagates NaN *)
Definition xmaximum (x y : xreal) : xreal :=
  match x, y with
  | XNaN, _ | _, XNaN => XNaN
  | XFin a, XFin b => XFin (Rmax a b)
  | XPosInf, _ | _, XPosInf => XPosInf
  | XNegInf, z | z, XNegInf => z
  end.

(** [jnp.sqrt] *)
Definition xsqrt (x : xreal) : xreal :=
  match x with
  | XFin a => if Rlt_dec a 0 then XNaN else XFin (sqrt a)
  | XPosInf => XPosInf
  | XNegInf | XNaN => XNaN
  end.

(** [Moments.stats]; [1 / self.max] and [1 / self.max**2] are Python float
    divisions and raise on a zero [max], while the divisions by
    [corr = 1 - decay ** step] are array divisions, which return an infinity
    or a NaN when [corr] is zero. *)
Definition Moments_stats (m : Moments) : result (xreal * xreal) :=
  match m_impl m with
  | impl_off => Ok (XFin 0, XFin 1)
  | impl_mean_std =>
      if Req_dec_T (m_max m) 0 then Raise ZeroDivisionError
      else
        let corr := 1 - powerRZ (m_decay m) (m_step m) in
        let mean := xdiv (m_mean m) corr in
        let var := xsub (xdiv (m_sqrs m) corr) (XFin ((m_mean m) ^ 2)) in
        let std :=
          xsqrt (xadd (xmaximum var (XFin (1 / (m_max m) ^ 2)))
                      (XFin (m_eps m))) in
        Ok (mean, std)
  | impl_min_max | impl_perc_ema =>
      if Req_dec_T (m_max m) 0 then Raise ZeroDivisionError
      else
        let offset := m_low m in
        let invscale := Rmax (1 / m_max m) (m_high m - m_low m) in
        Ok (XFin offset, XFin invscale)
  | impl_perc_ema_corr =>
      if Req_dec_T (m_max m) 0 then Raise ZeroDivisionError
      else
        let corr := 1 - powerRZ (m_decay m) (m_step m) in
        let lo := xdiv (m_low m) corr in
        let hi := xdiv (m_high m) corr in
        let invscale := xmaximum (XFin (1 / m_max m)) (xsub hi lo) in
        Ok (lo, invscale)
  | impl_mean_mag | impl_max_mag =>
      if Req_dec_T (m_max m) 0 then Raise ZeroDivisionError
      else
        let offset := 0 in
        let invscale := Rmax (1 / m_max m) (m_mag m) in
        Ok (XFin offset, XFin invscale)
  end.

(** The implementations whose [stats] divides by the bias correction
    [1 - decay ** step]. *)
Definition bias_corrected (m : Moments) : bool :=
  match m_impl m with
  | impl_mean_std | impl_perc_ema_corr => true
  | _ => false
  end.

(** [ImagActorCritic.loss]: [normed_ret = (ret - offset) / invscale] *)
Definition normalize (ret : list R) (offset invscale : R) : list R :=
  map (fun r => (r - offset) / invscale) ret.

(** A [mean_std] normalizer configured with a negative [eps], after one
    update on an all-zero batch. *)
Definition moments_negative_eps : Moments :=
  mkMoments impl_mean_std (1 / 2) 1 (-1) 1 0 0 0 0 0.

(** A [perc_ema] normalizer with the constructor's defaults, before any
    update. *)
Definition moments_perc_ema_init : Moments :=
  mkMoments impl_perc_ema (99 / 100) 100000000 0 0 0 0 0 0 0.

(** ** Values under automatic differentiation

    A value carries its primal and the tangent that forward-mode
    differentiation propagates for one perturbation of the parameters;
    [sg] is [jax.lax.stop_gradient]. *)

Record dual : Type := mkDual { primal : R; tangent : R }.

Definition dconst (r : R) : dual := mkDual r 0.

Definition sg (x : dual) : dual := mkDual (primal x) 0.

Definition dadd (x y : dual) : dual :=
  mkDual (primal x + primal y) (tangent x + tangent y).

Definition dsub (x y : dual) : dual :=
  mkDual (primal x - primal y) (tangent x - tangent y).

Definition dexp (x : dual) : dual :=
  mkDual (exp (primal x)) (tangent x * exp (primal x)).

Definition ddiv (x y : dual) : dual :=
  mkDual (primal x / primal y)
         ((tangent x * primal y - primal x * tangent y) / (primal y) ^ 2).

Fixpoint dsum (l : list dual) : dual :=
  match l with
  | [] => dconst 0
  | x :: l' => dadd x (dsum l')
  end.

Definition softmax_dual (l : list dual) : list dual :=
  let z := dsum (map dexp l) in map (fun x => ddiv (dexp x) z) l.

(** [jax.nn.one_hot(k, n)] *)
Definition one_hot (k n : nat) : list R :=
  map (fun i => if (i =? k)%nat then 1 else 0) (seq 0 n).

(** The logits [x] perturbed in their [i]-th coordinate: the tangents are the
    [i]-th basis vector, so that tangents read off partial derivatives with
    respect to [logits[i]]. *)
Fixpoint seed (i : nat) (x : list R) {struct x} : list dual :=
  match x with
  | [] => []
  | a :: x' =>
      match i with
      | O => mkDual a 1 :: map dconst x'
      | S i' => dconst a :: seed i' x'
      end
  end.

(** ** jaxutils.OneHotDist *)

(** [tfd.OneHotCategorical] is parameterized by [logits] or by [probs]. *)
Inductive OneHotDist : Type :=
| OneHotLogits (logits : list dual)
| OneHotProbs (probs : list dual).

Definition num_classes (d : OneHotDist) : nat :=
  match d with
  | OneHotLogits l => length l
  | OneHotProbs p => length p
  end.

(** [super().probs_parameter()] *)
Definition probs_parameter (d : OneHotDist) : list dual :=
  match d with
  | OneHotLogits l => softmax_dual l
  | OneHotProbs p => p
  end.

(** [super().sample(sample_shape, seed)] with [sample_shape = ()]: the
    one-hot encoding of the class [draw] that the seed selects; the draw is
    not differentiable. *)
Definition OneHotCategorical_sample (d : OneHotDist) (draw : nat) : list dual :=
  map dconst (one_hot draw (num_classes d)).

(** [OneHotDist.sample]; [_pad] adds no axis when [sample_shape = ()]. *)
Definition OneHotDist_sample (d : OneHotDist) (draw : nat) : list dual :=
  let sample := map sg (OneHotCategorical_sample d draw) in
  let probs := probs_parameter d in
  zip_with dadd (map sg sample) (zip_with dsub probs (map sg probs)).

(** ** Pytrees: flat dicts of arrays

    The carries that the repository scans over are flat dicts.  The treedef
    of a dict is its key set, and its leaves are listed in the canonical order
    of the keys. *)

Section Pytree.
Context {V : Type}.

Definition tree_structure (m : gmap string V) : gset string := dom m.

Definition tree_leaves (m : gmap string V) : list V :=
  omap (fun k => m !! k) (elements (dom m)).

Definition tree_flatten (m : gmap string V) : list V * gset string :=
  (tree_leaves m, tree_structure m).

Definition tree_unflatten (treedef : gset string) (leaves : list V)
  : gmap string V :=
  list_to_map (zip (elements treedef) leaves).
End Pytree.

Fixpoint mapM_result {A B} (f : A -> result B) (l : list A) : result (list B) :=
  match l with
  | [] => Ok []
  | x :: l' => y ← f x; ys ← mapM_result f l'; Ok (y :: ys)
  end.

(** [l[i]] *)
Definition index {A} (l : list A) (i : nat) : result A :=
  match l !! i with
  | Some x => Ok x
  | None => Raise IndexError
  end.

(** ** jaxutils.scan *)

Section Scan.
Context {T X : Type}.

(** [fn2 = lambda carry, inp: (fn(carry, inp),) * 2] *)
Definition fn2 (fn : gmap string T -> X -> result (gmap string T))
           (carry : gmap string T) (inp : X)
  : result (gmap string T * gmap string T) :=
  out ← fn carry inp; Ok (out, out).

(** Modelled from the spec: [nj.scan] of the repository's [ninjax] module,
    which is not among the sources.  It is the strict sequential scan: each
    step receives the carry of the previous step, and the per-step outputs
    are stacked along a new leading axis, in the structure of the carry,
    which every step has to preserve. *)
Fixpoint sequential
         (step : gmap string T -> X -> result (gmap string T * gmap string T))
         (carry : gmap string T) (inputs : list X)
  : result (gmap string T * list (gmap string T)) :=
  match inputs with
  | [] => Ok (carry, [])
  | inp :: rest =>
      r ← step carry inp;
      r' ← sequential step r.1 rest;
      Ok (r'.1, r.2 :: r'.2)
  end.

(** Modelled from the spec: the stacked outputs of [nj.scan]. *)
Definition stack_outputs (start : gmap string T) (outs : list (gmap string T))
  : gmap string (list T) :=
  map_imap (fun k _ => Some (omap (fun out : gmap string T => out !! k) outs))
           start.

(** Modelled from the spec: [nj.scan(step, start, inputs)].  The scan traces
    the step on the first input before it runs, so on an empty input sequence
    it raises [IndexError]. *)
Definition nj_scan
           (step : gmap string T -> X -> result (gmap string T * gmap string T))
           (start : gmap string T) (inputs : list X)
  : result (gmap string T * gmap string (list T)) :=
  match inputs with
  | [] => Raise IndexError
  | _ :: _ =>
      r ← sequential step start inputs;
      if forallb (fun out : gmap string T =>
                    bool_decide (tree_structure out = tree_structure start)) r.2
      then Ok (r.1, stack_outputs start r.2)
      else Raise TypeError
  end.

(** The [for index in range(length)] loop of the unrolled branch. *)
Fixpoint scan_loop (fn : gmap string T -> X -> result (gmap string T))
         (carrydef : gset string) (inputs : list X)
         (carry : gmap string T) (outs : list (list T))
  : result (list (list T)) :=
  match inputs with
  | [] => Ok outs
  | inp :: rest =>
      r ← fn2 fn carry inp;
      let '(flat, treedef) := tree_flatten r.2 in
      if bool_decide (treedef = carrydef)
      then scan_loop fn carrydef rest r.1 (outs ++ [flat])
      else Raise AssertionError
  end.

(** [jnp.stack([carry[i] for carry in outs], 0)] *)
Definition stack_leaf (outs : list (list T)) (i : nat) : result (list T) :=
  leaves ← mapM_result (fun flat => index flat i) outs;
  jnp_stack leaves.

Definition scan (fn : gmap string T -> X -> result (gmap string T))
           (inputs : list X) (start : gmap string T) (unroll : bool)
  : result (gmap string (list T)) :=
  if negb unroll then
    r ← nj_scan (fn2 fn) start inputs; Ok r.2
  else
    let carrydef := tree_structure start in
    outs ← scan_loop fn carrydef inputs start [];
    first ← index outs 0;
    stacked ← mapM_result (stack_leaf outs) (seq 0 (length first));
    Ok (tree_unflatten carrydef stacked).
End Scan.

(** ** agent.WorldModel.imagine

    A leaf [T] is the value of one latent entry at one time step.  The
    collaborators of [imagine] whose code is outside this development are
    fields of the world model: the keys of [self.rssm.initial(1)],
    [self.rssm.img_step], the mode of the ["cont"] head over a stacked
    trajectory, the numeric reading of the [is_terminal] leaf, and the
    configuration values [config.horizon] and [config.imag_unroll]. *)

Record WorldModel (T : Type) : Type := mkWorldModel {
  rssm_keys : list string;
  img_step : gmap string T -> T -> gmap string T;
  cont_head : gmap string (list T) -> list R;
  to_float : T -> R;
  config_horizon : R;
  imag_unroll : bool
}.

Arguments rssm_keys {T} _.
Arguments img_step {T} _ _ _.
Arguments cont_head {T} _ _.
Arguments to_float {T} _ _.
Arguments config_horizon {T} _.
Arguments imag_unroll {T} _.

Definition with_unroll {T} (wm : WorldModel T) (b : bool) : WorldModel T :=
  mkWorldModel T (rssm_keys wm) (img_step wm) (cont_head wm) (to_float wm)
               (config_horizon wm) b.

(** The imagined trajectory: the stacked latent entries and actions, and the
    ["cont"] and ["weight"] entries that [imagine] adds. *)
Record Trajectory (T : Type) : Type := mkTrajectory {
  traj_state : gmap string (list T);
  traj_cont : list R;
  traj_weight : list R
}.

Arguments traj_state {T} _.
Arguments traj_cont {T} _.
Arguments traj_weight {T} _.

Section Imagine.
Context {T : Type}.
Variable wm : WorldModel T.
Variable policy : gmap string T -> T.

(** The inner [step(prev, _)] of [imagine]. *)
Definition imagine_step (prev : gmap string T) (_ : nat)
  : result (gmap string T) :=
  match prev !! "action" with
  | None => Raise KeyError
  | Some action =>
      let state := img_step wm (delete "action" prev) action in
      Ok (<["action" := policy state]> state)
  end.

(** [{k: jnp.concatenate([start[k][None], v], 0) for k, v in traj.items()}] *)
Definition prepend_start (start : gmap string T) (traj : gmap string (list T))
  : result (gmap string (list T)) :=
  if bool_decide (dom traj ⊆ dom start)
  then Ok (map_zip_with (fun s v => s :: v) start traj)
  else Raise KeyError.

Definition imagine (start : gmap string T) (horizon : nat)
  : result (Trajectory T) :=
  match start !! "is_terminal" with
  | None => Raise KeyError
  | Some terminal =>
      let first_cont := 1 - to_float wm terminal in
      let start :=
        filter (fun kv : string * T => kv.1 ∈ rssm_keys wm) start in
      let start := <["action" := policy start]> start in
      traj ← scan imagine_step (seq 0 horizon) start (imag_unroll wm);
      traj ← prepend_start start traj;
      let cont := cont_head wm traj in
      let cont := first_cont :: tl cont in
      if Req_dec_T (config_horizon wm) 0 then Raise ZeroDivisionError
      else
        let discount := 1 - 1 / config_horizon wm in
        let weight :=
          map (fun w => w / discount)
              (cumprod (map (fun c => discount * c) cont)) in
        Ok (mkTrajectory T traj cont weight)
  end.
End Imagine.

(** A world model over integer leaves whose dynamics add the action to the
    single latent entry, with [config.horizon = 2] and an eagerly unrolled
    scan; and an identity step function for [scan]. *)
Definition wm_example : WorldModel Z :=
  mkWorldModel Z ["deter"]
               (fun s a => {["deter" := (default 0 (s !! "deter") + a)%Z]})
               (fun tr => [1; 1]) IZR 2 true.

Definition policy_example (s : gmap string Z) : Z := 0%Z.

Definition start_example : gmap string Z :=
  <["deter" := 5%Z]> (<["is_terminal" := 0%Z]> ∅).

Definition fn_example (carry : gmap string Z) (inp : nat)
  : result (gmap string Z) := Ok carry.

(** ** jaxutils.polyak_averaging

    An entry of a module's parameter dict is a pytree of arrays (flattened
    here), an [nn.R2Conv] with its weights and bias, or another
    [nn.EquivariantModule]. *)

Inductive param : Type :=
| Tree (leaves : list R)
| R2Conv (weights bias : list R)
| EquivariantModule (leaves : list R).

(** [mix * s + (1 - mix) * d], elementwise *)
Definition blend (mix : R) (s d : list R) : result (list R) :=
  ew2 (fun x y => mix * x + (1 - mix) * y) s d.

(** One iteration of [for k, v in src.items()]. *)
Definition polyak_entry (mix : R) (dst : gmap string param)
           (k : string) (v : param) : result (gmap string param) :=
  match v with
  | R2Conv w b =>
      match dst !! k with
      | None => Raise KeyError
      | Some (R2Conv dw db) =>
          w' ← blend mix w dw;
          b' ← blend mix b db;
          Ok (<[k := R2Conv w' b']> dst)
      | Some _ => Raise AttributeError
      end
  | EquivariantModule _ => Ok dst
  | Tree s =>
      match dst !! k with
      | None => Raise KeyError
      | Some (Tree d) => r ← blend mix s d; Ok (<[k := Tree r]> dst)
      | Some _ => Raise ValueError
      end
  end.

Definition polyak_averaging (src dst : gmap string param) (mix : R)
  : result (gmap string param) :=
  foldl (fun acc kv => d ← acc; polyak_entry mix d kv.1 kv.2)
        (Ok dst) (map_to_list src).

(** ** jaxutils.SlowUpdater *)

(** [rename_key] is [k.replace(f"/{src.name}/", f"/{dst.name}/")]. *)
Record SlowUpdater : Type := mkSlowUpdater {
  fraction : R;
  period : Z;
  rename_key : string -> string
}.

(** The dict comprehension that renames the keys of [self.src.getm()]. *)
Definition renamed_source (su : SlowUpdater) (src : gmap string param)
  : gmap string param :=
  list_to_map
    ((fun kv : string * param => (rename_key su kv.1, kv.2)) <$> map_to_list src).

(** [updates % self.period] on the [int32] counter ([jnp.remainder]): the
    sign of the result follows the divisor, and a zero divisor gives zero. *)
Definition int32_rem (x p : Z) : Z :=
  if (p =? 0)%Z then 0%Z else (x mod p)%Z.

(** [SlowUpdater.__call__] on the parameters of the source module, the
    parameters of the destination module and the [updates] variable; returns
    the new destination parameters and the new counter. *)
Definition SlowUpdater_call (su : SlowUpdater) (src dst : gmap string param)
           (updates : Z) : result (gmap string param * Z) :=
  if bool_decide (src = ∅) then Raise AssertionError
  else
    let need_init := b2r (updates =? 0)%Z in
    let need_update := b2r (int32_rem updates (period su) =? 0)%Z in
    let mix := clip (1 * need_init + fraction su * need_update) 0 1 in
    let source := renamed_source su src in
    dst' ← polyak_averaging source dst mix;
    Ok (dst', wrap32 (updates + 1)).

(** What [polyak_averaging] writes for a source entry [v] over the
    destination entry [d] of matching kind. *)
Definition blended (mix : R) (v d : param) : param :=
  match v, d with
  | Tree s, Tree d' =>
      Tree (zip_with (fun x y => mix * x + (1 - mix) * y) s d')
  | R2Conv w b, R2Conv dw db =>
      R2Conv (zip_with (fun x y => mix * x + (1 - mix) * y) w dw)
             (zip_with (fun x y => mix * x + (1 - mix) * y) b db)
  | _, _ => d
  end.

(** The destination entry has the kind and the shapes of the source entry. *)
Definition same_shape (v d : param) : Prop :=
  match v, d with
  | Tree s, Tree d' => length s = length d'
  | R2Conv w b, R2Conv dw db => length w = length dw /\ length b = length db
  | EquivariantModule _, _ => True
  | _, _ => False
  end.

(** An updater with [fraction = 1], [period = 1] and no renaming, and a
    module whose only parameter entry is an equivariant module that is not an
    [R2Conv]. *)
Definition su_example : SlowUpdater := mkSlowUpdater 1 1 (fun k => k).

Definition src_equivariant : gmap string param :=
  {["linear" := EquivariantModule [1]]}.

Definition dst_equivariant : gmap string param :=
  {["linear" := EquivariantModule [0]]}.

Definition src_tree : gmap string param := {["w" := Tree [1]]}.

Definition dst_tree : gmap string param := {["w" := Tree [0]]}.

(** ** Gradients and parameters of the optimizer

    The optimizer tests its gradients with [jnp.isfinite]: an array element
    is a finite real or a non-finite value ([inf] or [nan]), and arithmetic
    on a non-finite value stays non-finite. *)

Inductive fnum : Type :=
| Fin (r : R)
| NonFin.

Definition isfinite (x : fnum) : bool :=
  match x with Fin _ => true | NonFin => false end.

(** [x * c] and [x / c] for a finite scalar [c]; [nan * 0.0] is [nan]. *)
Definition fscale (x : fnum) (c : R) : fnum :=
  match x with Fin r => Fin (r * c) | NonFin => NonFin end.

Definition fdiv (x : fnum) (c : R) : fnum :=
  match x with Fin r => Fin (r / c) | NonFin => NonFin end.

Definition fadd (x y : fnum) : fnum :=
  match x, y with Fin a, Fin b => Fin (a + b) | _, _ => NonFin end.

Definition fmul (x y : fnum) : fnum :=
  match x, y with Fin a, Fin b => Fin (a * b) | _, _ => NonFin end.

Definition fsqrt (x : fnum) : fnum :=
  match x with Fin r => Fin (sqrt r) | NonFin => NonFin end.

(** [jnp.array([jnp.isfinite(x).all() for x in tree_leaves(grads)]).all()] *)
Definition all_finite (grads : gmap string (list fnum)) : bool :=
  forallb (fun kv : string * list fnum => forallb isfinite kv.2)
          (map_to_list grads).

(** [optax.global_norm]: the square root of the sum of all squared entries *)
Definition global_norm (grads : gmap string (list fnum)) : fnum :=
  fsqrt (foldr fadd (Fin 0)
               (map_to_list grads ≫=
                  fun kv : string * list fnum => (fun x => fmul x x) <$> kv.2)).

(** [optax.apply_updates(params, updates)] followed by
    [nj.context().update(...)] *)
Definition apply_updates (params updates : gmap string (list fnum))
  : gmap string (list fnum) :=
  map_zip_with (zip_with fadd) params updates ∪ params.

(** [tree_zeros_like] *)
Definition zeros_like (updates : gmap string (list fnum))
  : gmap string (list fnum) :=
  (fun l : list fnum => (fun _ => Fin 0) <$> l) <$> updates.

(** ** optax gradient transformations

    The chain built by [Optimizer.__init__] (clipping, Adam scaling, weight
    decay, learning rate) is an [optax.GradientTransformation] whose code is
    outside the repository: it is a parameter [inner] of the optimizer. *)

Record GradientTransformation (S : Type) : Type := mkGradientTransformation {
  gt_init : gmap string (list fnum) -> S;
  gt_update : gmap string (list fnum) -> S -> gmap string (list fnum)
              -> gmap string (list fnum) * S
}.

Arguments gt_init {S} _ _.
Arguments gt_update {S} _ _ _ _.

Record ApplyIfFiniteState (S : Type) : Type := mkApplyIfFiniteState {
  notfinite_count : Z;
  last_finite : bool;
  total_notfinite : Z;
  inner_state : S
}.

Arguments notfinite_count {S} _.
Arguments last_finite {S} _.
Arguments total_notfinite {S} _.
Arguments inner_state {S} _.

Definition safe_int32_increment (count : Z) : Z :=
  if (count <? 2 ^ 31 - 1)%Z then (count + 1)%Z else (2 ^ 31 - 1)%Z.

(** [optax.apply_if_finite(inner, max_consecutive_errors)], after its
    documentation: an update with a non-finite entry is replaced by zeros and
    the inner state is kept, unless more than [max_consecutive_errors]
    consecutive updates were non-finite, in which case the update is passed
    to the inner transformation. *)
Definition apply_if_finite {S} (inner : GradientTransformation S)
           (max_consecutive_errors : Z)
  : GradientTransformation (ApplyIfFiniteState S) :=
  mkGradientTransformation (ApplyIfFiniteState S)
    (fun params => mkApplyIfFiniteState S 0 true 0 (gt_init inner params))
    (fun updates state params =>
       let finite := all_finite updates in
       let count :=
         if finite then 0%Z
         else safe_int32_increment (notfinite_count state) in
       let r :=
         if finite || (max_consecutive_errors <? count)%Z
         then gt_update inner updates (inner_state state) params
         else (zeros_like updates, inner_state state) in
       (r.1,
        mkApplyIfFiniteState S count finite
          (if finite then total_notfinite state
           else safe_int32_increment (total_notfinite state))
          r.2)).

(** The transformation without the wrapper, over the same state record (the
    counters are not used). *)
Definition unwrapped {S} (inner : GradientTransformation S)
  : GradientTransformation (ApplyIfFiniteState S) :=
  mkGradientTransformation (ApplyIfFiniteState S)
    (fun params => mkApplyIfFiniteState S 0 true 0 (gt_init inner params))
    (fun updates state params =>
       let r := gt_update inner updates (inner_state state) params in
       (r.1,
        mkApplyIfFiniteState S (notfinite_count state) (last_finite state)
                             (total_notfinite state) r.2)).

(** ** jaxutils.Optimizer *)

(** [scaling] is [COMPUTE_DTYPE == jnp.float16]. *)
Record OptimizerConfig : Type := mkOptimizerConfig {
  scaling : bool;
  freeze : Q
}.

Record OptimizerState (S : Type) : Type := mkOptimizerState {
  step : Z;
  grad_scale : R;
  good_steps : Z;
  state : option (ApplyIfFiniteState S)
}.

Arguments step {S} _.
Arguments grad_scale {S} _.
Arguments good_steps {S} _.
Arguments state {S} _.

Record Metrics : Type := mkMetrics {
  metric_grad_scale : option R;
  metric_grad_overflow : option R;
  metric_loss : R;
  metric_grad_norm : fnum;
  metric_grad_steps : Z
}.

(** [self.opt] as set up by [Optimizer.__init__] *)
Definition Optimizer_opt {S} (cfg : OptimizerConfig)
           (inner : GradientTransformation S)
  : GradientTransformation (ApplyIfFiniteState S) :=
  if scaling cfg then apply_if_finite inner 1000 else unwrapped inner.

(** The initial variables: [step = 0], [grad_scale = 1e4],
    [good_steps = 0], no optimizer state yet. *)
Definition Optimizer_init (S : Type) : OptimizerState S :=
  mkOptimizerState S 0 10000 0 None.

(** [Optimizer._update_scale] *)
Definition update_scale {S} (grads : gmap string (list fnum))
           (st : OptimizerState S) : OptimizerState S * bool :=
  let finite := all_finite grads in
  let keep := finite && (good_steps st <? 1000)%Z in
  let incr := finite && (1000 <=? good_steps st)%Z in
  let decr := negb finite in
  let good := wrap32 (b2z keep * wrap32 (good_steps st + 1)) in
  let scale :=
    clip (b2r keep * grad_scale st
          + b2r incr * grad_scale st * 2
          + b2r decr * grad_scale st / 2)
         (1 / 10000) 10000 in
  (mkOptimizerState S (step st) scale good (state st), finite).

(** [int(x)]: truncation toward zero *)
Definition py_int (x : Q) : Z := Z.quot (Qnum x) (Zpos (Qden x)).

Definition prototypes : string := "agent/wm/rssm/prototypes".

(** The [if "agent/wm/rssm/prototypes" in grads.keys()] block of
    [Optimizer.__call__]. *)
Definition freeze_prototypes (cfg : OptimizerConfig) (step : Z)
           (grads : gmap string (list fnum)) : gmap string (list fnum) :=
  match grads !! prototypes with
  | Some g =>
      <[prototypes :=
          if (step <? py_int (freeze cfg))%Z
          then (fun x => fscale x 0) <$> g
          else g]> grads
  | None => grads
  end.

(** [tree_map(lambda x: x / self.grad_scale.read(), grads)] when scaling *)
Definition unscale {S} (cfg : OptimizerConfig) (st : OptimizerState S)
           (grads : gmap string (list fnum)) : gmap string (list fnum) :=
  if scaling cfg
  then (fun l : list fnum => (fun x => fdiv x (grad_scale st)) <$> l) <$> grads
  else grads.

(** [Optimizer.__call__] from the gradients that [nj.grad] returns for the
    (scaled) loss; not in a parallel context.  Returns the new variables, the
    new parameters and the metrics. *)
Definition Optimizer_call {S} (cfg : OptimizerConfig)
           (inner : GradientTransformation S) (st : OptimizerState S)
           (loss : R) (params grads : gmap string (list fnum))
  : OptimizerState S * gmap string (list fnum) * Metrics :=
  let opt := Optimizer_opt cfg inner in
  let grads := unscale cfg st grads in
  let scaled := if scaling cfg then update_scale grads st else (st, true) in
  let st1 := scaled.1 in
  let finite := scaled.2 in
  let optstate :=
    match state st1 with Some s => s | None => gt_init opt params end in
  let grads := freeze_prototypes cfg (step st1) grads in
  let r := gt_update opt grads optstate params in
  let params' := apply_updates params r.1 in
  let norm := global_norm grads in
  let norm :=
    if scaling cfg then (if isfinite norm then norm else NonFin) else norm in
  let step' := wrap32 (step st1 + b2z (isfinite norm)) in
  (mkOptimizerState S step' (grad_scale st1) (good_steps st1) (Some r.2),
   params',
   mkMetrics
     (if scaling cfg then Some (grad_scale st1) else None)
     (if scaling cfg then Some (b2r (negb finite)) else None)
     loss norm step').

(** Plain gradient descent with learning rate [lr], as an inner
    transformation without state. *)
Definition sgd (lr : R) : GradientTransformation unit :=
  mkGradientTransformation unit
    (fun _ => tt)
    (fun updates _ _ =>
       ((fun l : list fnum => (fun x => fscale x (- lr)) <$> l) <$> updates, tt)).

Definition cfg_float16 : OptimizerConfig := mkOptimizerConfig true 10000.

Definition cfg_float32 : OptimizerConfig := mkOptimizerConfig false 10000.

(** The optimizer variables after 1000 consecutive finite steps from the
    initial ones. *)
Definition st_good1000 : OptimizerState unit :=
  mkOptimizerState unit 1000 10000 1000 None.

Definition grads_finite : gmap string (list fnum) := {["w" := [Fin 1]]}.

Definition grads_nonfinite : gmap string (list fnum) := {["w" := [NonFin]]}.

Definition params_example : gmap string (list fnum) := {["w" := [Fin 3]]}.

Definition grads_prototypes_nan : gmap string (list fnum) :=
  {[prototypes := [NonFin]]}.

Definition grads_prototypes : gmap string (list fnum) :=
  {[prototypes := [Fin 2]]}.

Definition params_prototypes : gmap string (list fnum) :=
  {[prototypes := [Fin 3]]}.

(** ** jaxutils.cosine_distance, jaxutils.l2_normalize (one vector) *)

(** [jnp.dot] of two vectors; different sizes are a [TypeError]. *)
Definition dot (vec1 vec2 : list R) : result R :=
  if (length vec1 =? length vec2)%nat
  then Ok (sum_list (zip_with Rmult vec1 vec2))
  else Raise TypeError.

(** [jnp.linalg.norm]: the L2 norm *)
Definition norm (vec : list R) : R :=
  sqrt (sum_list (map (fun x => x * x) vec)).

Definition cosine_distance (vec1 vec2 : list R) : result R :=
  dot_product ← dot vec1 vec2;
  let norm_vec1 := norm vec1 in
  let norm_vec2 := norm vec2 in
  let cosine_similarity :=
    dot_product / (norm_vec1 * norm_vec2 + 1 / 100000000) in
  Ok (1 - cosine_similarity).

(** [l2_normalize(vectors, axis=-1, epsilon)] on a single vector *)
Definition l2_normalize (vectors : list R) (epsilon : R) : list R :=
  let norms := norm vectors in
  map (fun x => x / Rmax norms epsilon) vectors.

(** ** jaxutils.MSEDist, SymlogDist.log_prob

    The whole array is one event ([dims] is its rank).  The aggregation and
    distance names that the code implements are enumerated; any other name
    raises [NotImplementedError] in the code. *)

Inductive mse_agg : Type := mse_mean | mse_sum | mse_cosine.

Record MSEDist : Type := mkMSEDist { mse_mode : list R; mse_aggregation : mse_agg }.

Definition MSEDist_mode (d : MSEDist) : list R := mse_mode d.

Definition MSEDist_mean (d : MSEDist) : list R := mse_mode d.

(** [x.mean()] *)
Definition mean_list (l : list R) : R := sum_list l / INR (length l).

Definition MSEDist_log_prob (d : MSEDist) (value : list R) : result R :=
  if negb (length (mse_mode d) =? length value)%nat then Raise AssertionError
  else
    match mse_aggregation d with
    | mse_mean =>
        let distance := zip_with (fun m v => (m - v) ^ 2) (mse_mode d) value in
        Ok (- mean_list distance)
    | mse_sum =>
        let distance := zip_with (fun m v => (m - v) ^ 2) (mse_mode d) value in
        Ok (- sum_list distance)
    | mse_cosine =>
        loss ← cosine_distance (mse_mode d) value; Ok (- loss)
    end.

Inductive symlog_dist : Type := dist_mse | dist_abs.

Inductive symlog_agg : Type := agg_mean | agg_sum.

(** [SymlogDist.log_prob]; [dist], [agg] and [tol] are the constructor's
    options of the same names. *)
Definition SymlogDist_log_prob (d : SymlogDist) (dist : symlog_dist)
           (agg : symlog_agg) (tol : R) (value : list R) : result R :=
  if negb (length (sl_mode d) =? length value)%nat then Raise AssertionError
  else
    let raw :=
      match dist with
      | dist_mse => zip_with (fun m v => (m - symlog v) ^ 2) (sl_mode d) value
      | dist_abs => zip_with (fun m v => Rabs (m - symlog v)) (sl_mode d) value
      end in
    let distance := map (fun x => if Rlt_dec x tol then 0 else x) raw in
    match agg with
    | agg_mean => Ok (- mean_list distance)
    | agg_sum => Ok (- sum_list distance)
    end.

(** ** jaxutils.DiscDist.log_prob *)

(** [(self.bins <= x).astype(jnp.int32).sum(-1)] and
    [(self.bins > x).astype(jnp.int32).sum(-1)] *)
Fixpoint count_le (bins : list R) (x : R) : Z :=
  match bins with
  | [] => 0
  | b :: rest => ((if Rle_dec b x then 1 else 0) + count_le rest x)%Z
  end.

Fixpoint count_gt (bins : list R) (x : R) : Z :=
  match bins with
  | [] => 0
  | b :: rest => ((if Rgt_dec b x then 1 else 0) + count_gt rest x)%Z
  end.

(** [jnp.clip] on integers *)
Definition clip_int (k lo hi : Z) : Z := Z.min hi (Z.max lo k).

(** [jax.nn.one_hot(k, n)] for an integer index; an index outside
    [0 .. n-1] gives the zero vector. *)
Definition one_hot_int (k : Z) (n : nat) : list R :=
  map (fun i => if (Z.of_nat i =? k)%Z then 1 else 0) (seq 0 n).

(** The local [target] of [DiscDist.log_prob]: the two-hot encoding of the
    transformed value over the bins. *)
Definition DiscDist_target (d : DiscDist) (x : R) : list R :=
  let x := dd_transfwd d x in
  let bins := DiscDist_bins d in
  let n := length bins in
  let below := (count_le bins x - 1)%Z in
  let above := (Z.of_nat n - count_gt bins x)%Z in
  let below := clip_int below 0 (Z.of_nat n - 1) in
  let above := clip_int above 0 (Z.of_nat n - 1) in
  let equal := (below =? above)%Z in
  let dist_to_below :=
    if equal then 1 else Rabs (nth (Z.to_nat below) bins 0 - x) in
  let dist_to_above :=
    if equal then 1 else Rabs (nth (Z.to_nat above) bins 0 - x) in
  let total := dist_to_below + dist_to_above in
  let weight_below := dist_to_above / total in
  let weight_above := dist_to_below / total in
  zip_with Rplus
           (map (fun o => o * weight_below) (one_hot_int below n))
           (map (fun o => o * weight_above) (one_hot_int above n)).

(** [self.logits - logsumexp(self.logits, -1, keepdims=True)] *)
Definition log_softmax (logits : list R) : list R :=
  map (fun l => l - ln (sum_list (map exp logits))) logits.

Definition DiscDist_log_prob (d : DiscDist) (x : R) : R :=
  sum_list (zip_with Rmult (DiscDist_target d x) (log_softmax (dd_logits d))).

(** Bins listed in non-decreasing order, as [jnp.linspace(low, high, n)]
    produces them for [low <= high]. *)
Definition monotone_bins (bins : list R) : Prop :=
  forall i j, (i <= j)%nat -> (j < length bins)%nat ->
              nth i bins 0 <= nth j bins 0.

(** Successive training steps under mixed precision: [_update_scale] runs
    once per call of the optimizer, each call reading the [grad_scale] and
    [good_steps] variables the previous one wrote. *)
Definition update_scale_calls {S} (gl : list (gmap string (list fnum)))
           (st : OptimizerState S) : OptimizerState S :=
  fold_left (fun st grads => (update_scale grads st).1) gl st.

(** [n] successive calls of [polyak_averaging] with the same source and the
    same [mix], each call working on the destination the previous one
    returned. *)
Definition polyak_averaging_iter (src : gmap string param) (mix : R) (n : nat)
           (dst : gmap string param) : result (gmap string param) :=
  Nat.iter n (fun acc => d ← acc; polyak_averaging src d mix) (Ok dst).

(** ** jaxutils.Moments.update

    [jnp.min] and [jnp.max] of a batch; a zero-size array has no minimum or
    maximum and makes them raise. *)
Definition min_list (x : list R) : result R :=
  match x with
  | [] => Raise ValueError
  | a :: rest => Ok (fold_left Rmin rest a)
  end.

Definition max_list (x : list R) : result R :=
  match x with
  | [] => Raise ValueError
  | a :: rest => Ok (fold_left Rmax rest a)
  end.

(** [Moments.update] outside [pmap] ([parallel()] is false), on a flattened
    batch [x].  [per] is [jnp.percentile] and [perclo], [perchi] are the
    percentiles given to the constructor.  The mean of an empty batch is a
    NaN, which the real numbers do not have: statements about the [mean_std]
    and [mean_mag] branches are made for non-empty batches. *)
Definition Moments_update (per : list R -> R -> R) (perclo perchi : R)
           (mo : Moments) (x : list R) : result Moments :=
  let m := m_decay mo in
  match m_impl mo with
  | impl_off => Ok mo
  | impl_mean_std =>
      Ok (mkMoments (m_impl mo) (m_decay mo) (m_max mo) (m_eps mo)
                    (wrap32 (m_step mo + 1))
                    (m * m_mean mo + (1 - m) * mean_list x)
                    (m * m_sqrs mo + (1 - m) * mean_list (map (fun v => v * v) x))
                    (m_low mo) (m_high mo) (m_mag mo))
  | impl_min_max =>
      low ← min_list x;
      high ← max_list x;
      Ok (mkMoments (m_impl mo) (m_decay mo) (m_max mo) (m_eps mo)
                    (m_step mo) (m_mean mo) (m_sqrs mo)
                    (m * Rmin (m_low mo) low + (1 - m) * low)
                    (m * Rmax (m_high mo) high + (1 - m) * high)
                    (m_mag mo))
  | impl_perc_ema =>
      let low := per x perclo in
      let high := per x perchi in
      Ok (mkMoments (m_impl mo) (m_decay mo) (m_max mo) (m_eps mo)
                    (m_step mo) (m_mean mo) (m_sqrs mo)
                    (m * m_low mo + (1 - m) * low)
                    (m * m_high mo + (1 - m) * high)
                    (m_mag mo))
  | impl_perc_ema_corr =>
      let low := per x perclo in
      let high := per x perchi in
      Ok (mkMoments (m_impl mo) (m_decay mo) (m_max mo) (m_eps mo)
                    (wrap32 (m_step mo + 1)) (m_mean mo) (m_sqrs mo)
                    (m * m_low mo + (1 - m) * low)
                    (m * m_high mo + (1 - m) * high)
                    (m_mag mo))
  | impl_mean_mag =>
      let curr := mean_list (map Rabs x) in
      Ok (mkMoments (m_impl mo) (m_decay mo) (m_max mo) (m_eps mo)
                    (m_step mo) (m_mean mo) (m_sqrs mo) (m_low mo) (m_high mo)
                    (m * m_mag mo + (1 - m) * curr))
  | impl_max_mag =>
      curr ← max_list (map Rabs x);
      Ok (mkMoments (m_impl mo) (m_decay mo) (m_max mo) (m_eps mo)
                    (m_step mo) (m_mean mo) (m_sqrs mo) (m_low mo) (m_high mo)
                    (m * Rmax (m_mag mo) curr + (1 - m) * curr))
  end.

(** [Moments.__call__]: update, then read the statistics. *)
Definition Moments_call (per : list R -> R -> R) (perclo perchi : R)
           (mo : Moments) (x : list R) : result (Moments * (xreal * xreal)) :=
  mo' ← Moments_update per perclo perchi mo x;
  s ← Moments_stats mo';
  Ok (mo', s).

(** Successive updates, one batch after the other. *)
Definition Moments_updates (per : list R -> R -> R) (perclo perchi : R)
           (mo : Moments) (xs : list (list R)) : result Moments :=
  foldl (fun acc x => mo ← acc; Moments_update per perclo perchi mo x)
        (Ok mo) xs.

(** The variables of a [mean_std] normalizer as the constructor creates
    them. *)
Definition Moments_mean_std_init (decay max eps : R) : Moments :=
  mkMoments impl_mean_std decay max eps 0 0 0 0 0 0.

(** [tree_map(lambda x: x[t], tree)]: step [t] of a stacked tree. *)
Definition time_slice {T} (tree : gmap string (list T)) (t : nat)
  : gmap string T :=
  omap (fun v : list T => v !! t) tree.

(** ** embodied.run.train.per_episode

    The values that [per_episode] hands to [logger.add] under the prefix
    ["episode"], for an episode [ep] given as a dict of flat arrays.  The mean
    behind [reward_rate] is a NaN for an empty episode, which the real
    numbers do not have. *)

Record EpisodeStats : Type := mkEpisodeStats {
  ep_length : Z;
  ep_score : R;
  ep_sum_abs_reward : R;
  ep_reward_rate : R;
  ep_discounted_score : R
}.

(** [for r in reversed(rewards): discounted_score = r + 0.99 * discounted_score] *)
Definition discounted_score (rewards : list R) : R :=
  fold_left (fun ds r => r + 99 / 100 * ds) (rev rewards) 0.

Definition per_episode (ep : gmap string (list R)) : result EpisodeStats :=
  match ep !! "reward" with
  | None => Raise KeyError
  | Some reward =>
      Ok (mkEpisodeStats
            (Z.of_nat (length reward) - 1)
            (sum_list reward)
            (sum_list (map Rabs reward))
            (mean_list (map (fun r => if Rle_dec (1 / 2) (Rabs r) then 1 else 0)
                            reward))
            (discounted_score reward))
  end.

(** ** agent.Agent.preprocess

    An observation entry is an array with a shape (of which only the rank
    matters here), a dtype and its flattened values. *)

Inductive dtype : Type := uint8 | int32 | bool_ | float16 | float32.

#[global] Instance dtype_eq_dec : EqDecision dtype.
Proof. solve_decision. Defined.

Record array : Type := mkArray {
  arr_rank : nat;
  arr_dtype : dtype;
  arr_vals : list R
}.

(** The body of the loop of [preprocess] for one entry that is not skipped;
    [compute] is [jaxutils.COMPUTE_DTYPE]. *)
Definition preprocess_value (compute : dtype) (value : array) : array :=
  if (3 <? arr_rank value)%nat && bool_decide (arr_dtype value = uint8)
  then mkArray (arr_rank value) compute
               (map (fun x => x / 255) (arr_vals value))
  else mkArray (arr_rank value) float32 (arr_vals value).

(** [key.startswith("log_") or key in ("key",)] *)
Definition preprocess_skips (key : string) : bool :=
  String.prefix "log_" key || String.eqb key "key".

(** [Agent.preprocess(obs)] with the default [swav=False]. *)
Definition preprocess (compute : dtype) (obs : gmap string array)
  : result (gmap string array) :=
  let obs :=
    map_imap (fun key value =>
                Some (if preprocess_skips key then value
                      else preprocess_value compute value)) obs in
  match obs !! "is_terminal" with
  | None => Raise KeyError
  | Some terminal =>
      Ok (<["cont" := mkArray (arr_rank terminal) float32
                              (map (fun x => 1 - x) (arr_vals terminal))]> obs)
  end.

(** ** jaxutils.subsample, jaxutils.tensorstats

    [perm] is [jax.random.permutation(nj.rng(), values)]. *)
Definition subsample (perm : list R -> list R) (values : list R)
           (amount : nat) : list R :=
  if (amount <? length values)%nat then take amount (perm values) else values.

(** A metric is a scalar or an array of samples. *)
Inductive metric : Type :=
| Scalar (x : R)
| Samples (v : list R).

(** [tensor.std()] *)
Definition std_list (tensor : list R) : R :=
  sqrt (mean_list (map (fun v => (v - mean_list tensor) ^ 2) tensor)).

(** [f"{prefix}_{k}"] under [if prefix:], which an empty prefix fails like
    [None]. *)
Definition metric_key (prefix key : string) : string :=
  if String.eqb prefix "" then key else prefix +:+ "_" +:+ key.

(** [tensorstats(tensor, prefix)] on a flattened tensor, as the dict's items
    in insertion order.  The reductions [max] and [min] raise on an empty
    tensor. *)
Definition tensorstats (perm : list R -> list R) (tensor : list R)
           (prefix : string) : result (list (string * metric)) :=
  mag ← max_list (map Rabs tensor);
  mn ← min_list tensor;
  mx ← max_list tensor;
  Ok [(metric_key prefix "mean", Scalar (mean_list tensor));
      (metric_key prefix "std", Scalar (std_list tensor));
      (metric_key prefix "mag", Scalar mag);
      (metric_key prefix "min", Scalar mn);
      (metric_key prefix "max", Scalar mx);
      (metric_key prefix "dist", Samples (subsample perm tensor 1024))].

(** ** jaxutils.late_grad_clip

    The [update_fn] of the gradient transformation, on finite updates; its
    state is the empty tuple. *)
Definition late_grad_clip_update (value : R) (updates : gmap string (list R))
           (state : unit) (params : gmap string (list R))
  : gmap string (list R) * unit :=
  (map (fun x => clip x (- value) value) <$> updates, tt).

(** ** jaxutils.balance_stats

    [dist_mean] is [dist.mean()] and [loss] is [-dist.log_prob(target)], both
    of the shape of [target].  A batch without positives or without negatives
    gives NaN entries, which the real numbers do not have: statements about
    the ratios are made for batches that contain both. *)

Record BalanceStats : Type := mkBalanceStats {
  bs_pos_loss : R;
  bs_neg_loss : R;
  bs_pos_acc : R;
  bs_neg_acc : R;
  bs_rate : R;
  bs_avg : R;
  bs_pred : R
}.

Definition balance_stats (dist_mean loss target : list R) (thres : R)
  : BalanceStats :=
  let pos := map (fun t => if Rgt_dec t thres then 1 else 0) target in
  let neg := map (fun t => if Rle_dec t thres then 1 else 0) target in
  let pred := map (fun m => if Rgt_dec m thres then 1 else 0) dist_mean in
  mkBalanceStats
    (sum_list (zip_with Rmult loss pos) / sum_list pos)
    (sum_list (zip_with Rmult loss neg) / sum_list neg)
    (sum_list (zip_with Rmult pred pos) / sum_list pos)
    (sum_list (zip_with Rmult (map (fun p => 1 - p) pred) neg) / sum_list neg)
    (mean_list pos)
    (mean_list target)
    (mean_list dist_mean).

(* ================================================================== *)
(** * Theorems *)
(* ================================================================== *)

Lemma bind_Ok {A B} (f : A -> result B) (x : A) : (Ok x ≫= f) = f x.
Proof. reflexivity. Qed.

(** ** symlog / symexp *)

Lemma sign_pos x : 0 < x -> sign x = 1.
Proof.
  intros Hx. unfold sign.
  destruct (Rlt_dec x 0); [lra|]. destruct (Rlt_dec 0 x); [reflexivity|lra].
Qed.

Lemma sign_neg x : x < 0 -> sign x = -1.
Proof. intros Hx. unfold sign. destruct (Rlt_dec x 0); [reflexivity|lra]. Qed.

Lemma sign_zero : sign 0 = 0.
Proof.
  unfold sign. destruct (Rlt_dec 0 0); [lra|]. destruct (Rlt_dec 0 0); lra.
Qed.

Lemma ln_1p_pos x : 0 < x -> 0 < ln (1 + x).
Proof. intros Hx. rewrite <- ln_1. apply ln_increasing; lra. Qed.

Lemma exp_m1_pos x : 0 < x -> 0 < exp x - 1.
Proof. intros Hx. pose proof (exp_increasing 0 x Hx) as H. rewrite exp_0 in H. lra. Qed.

Lemma symexp_symlog x : symexp (symlog x) = x.
Proof.
  destruct (Rtotal_order x 0) as [Hx | [-> | Hx]].
  - unfold symlog. rewrite (sign_neg x Hx), (Rabs_left x Hx).
    pose proof (ln_1p_pos (- x) ltac:(lra)) as Hl.
    unfold symexp. rewrite sign_neg by lra. rewrite Rabs_left by lra.
    replace (- (-1 * ln (1 + - x))) with (ln (1 + - x)) by lra.
    rewrite exp_ln by lra. lra.
  - unfold symlog, symexp. rewrite sign_zero. rewrite !Rmult_0_l.
    rewrite sign_zero. lra.
  - unfold symlog. rewrite (sign_pos x Hx), (Rabs_right x) by lra.
    pose proof (ln_1p_pos x Hx) as Hl.
    unfold symexp. rewrite sign_pos by lra. rewrite Rabs_right by lra.
    replace (1 * ln (1 + x)) with (ln (1 + x)) by lra.
    rewrite exp_ln by lra. lra.
Qed.

Lemma symlog_symexp x : symlog (symexp x) = x.
Proof.
  destruct (Rtotal_order x 0) as [Hx | [-> | Hx]].
  - unfold symexp. rewrite (sign_neg x Hx), (Rabs_left x Hx).
    pose proof (exp_m1_pos (- x) ltac:(lra)) as He.
    unfold symlog. rewrite sign_neg by lra. rewrite Rabs_left by lra.
    replace (1 + - (-1 * (exp (- x) - 1))) with (exp (- x)) by lra.
    rewrite ln_exp. lra.
  - unfold symlog, symexp. rewrite sign_zero. rewrite !Rmult_0_l.
    rewrite sign_zero. lra.
  - unfold symexp. rewrite (sign_pos x Hx), (Rabs_right x) by lra.
    pose proof (exp_m1_pos x Hx) as He.
    unfold symlog. rewrite sign_pos by lra. rewrite Rabs_right by lra.
    replace (1 + 1 * (exp x - 1)) with (exp x) by lra.
    rewrite ln_exp. lra.
Qed.

(** C9. [symlog] and [symexp] are mutually inverse bijections of the reals,
    so the mode and mean of [SymlogDist] and of [DiscDist] (with its default
    transforms) are the original-space values whose [symlog] is the
    prediction made in symlog space. *)
Theorem symlog_symexp_inverse :
  (forall x, symexp (symlog x) = x) /\
  (forall x, symlog (symexp x) = x) /\
  (forall x y, symlog x = symlog y -> x = y) /\
  (forall y, exists x, symlog x = y) /\
  (forall x y, symexp x = symexp y -> x = y) /\
  (forall y, exists x, symexp x = y) /\
  (forall d, map symlog (SymlogDist_mode d) = sl_mode d /\
             map symlog (SymlogDist_mean d) = sl_mode d) /\
  (forall v, SymlogDist_mode (mkSymlogDist (map symlog v)) = v) /\
  (forall logits,
      symlog (DiscDist_mean (DiscDist_default logits))
        = DiscDist_expect (DiscDist_default logits) /\
      symlog (DiscDist_mode (DiscDist_default logits))
        = DiscDist_expect (DiscDist_default logits)).
Proof.
  split; [apply symexp_symlog|]. split; [apply symlog_symexp|].
  split.
  { intros x y Hxy. rewrite <- (symexp_symlog x), <- (symexp_symlog y).
    now rewrite Hxy. }
  split.
  { intros y. exists (symexp y). apply symlog_symexp. }
  split.
  { intros x y Hxy. rewrite <- (symlog_symexp x), <- (symlog_symexp y).
    now rewrite Hxy. }
  split.
  { intros y. exists (symlog y). apply symexp_symlog. }
  split.
  { intros d. unfold SymlogDist_mode, SymlogDist_mean. rewrite map_map.
    rewrite (map_ext _ (fun x => x)) by (intros; apply symlog_symexp).
    rewrite map_id. split; reflexivity. }
  split.
  { intros v. unfold SymlogDist_mode; simpl. rewrite map_map.
    rewrite (map_ext _ (fun x => x)) by (intros; apply symexp_symlog).
    apply map_id. }
  intros logits. unfold DiscDist_mean, DiscDist_mode; simpl.
  split; apply symlog_symexp.
Qed.

(** ** The lambda-return of [VFunction.score] *)

Lemma ew2_zip_with f a b :
  length a = length b -> ew2 f a b = Ok (zip_with f a b).
Proof.
  revert b. induction a as [|x a IH]; intros [|y b] Hlen; simpl in *;
    try discriminate; [reflexivity|].
  rewrite IH by lia. reflexivity.
Qed.

Lemma last_rev_hd (l : list R) d : List.last (rev l) d = hd d l.
Proof. destruct l as [|x l]; simpl; [reflexivity|]. apply last_last. Qed.

Lemma hd_app_bootstrap (l : list R) v d : hd d (l ++ [v]) = hd v l.
Proof. destruct l; reflexivity. Qed.

Lemma score_loop_backward lam v (I D Ip Dp : list R) :
  length I = length D -> length Ip = length Dp ->
  fold_right (fun t acc => score_step lam (Ip ++ I) (Dp ++ D) acc t) [v]
             (seq (length Ip) (length I))
  = rev (backward lam v (combine I D) ++ [v]).
Proof.
  revert D Ip Dp. induction I as [|i I IH]; intros [|d D] Ip Dp HI Hp;
    simpl in *; try discriminate; [reflexivity|].
  specialize (IH D (Ip ++ [i]) (Dp ++ [d])).
  rewrite !length_app in IH. simpl in IH.
  replace (length Ip + 1)%nat with (S (length Ip)) in IH by lia.
  rewrite <- !app_assoc in IH. simpl in IH.
  rewrite IH by lia. clear IH.
  unfold score_step.
  rewrite last_rev_hd, hd_app_bootstrap.
  rewrite app_nth2 by lia. rewrite Nat.sub_diag. simpl.
  rewrite Hp at 1. rewrite app_nth2 by lia. rewrite Nat.sub_diag. simpl.
  reflexivity.
Qed.

Lemma score_loop lam v (I D : list R) :
  length I = length D ->
  fold_left (score_step lam I D) (rev (seq 0 (length D))) [v]
  = rev (backward lam v (combine I D) ++ [v]).
Proof.
  intros HI. rewrite <- fold_left_rev_right, rev_involutive.
  rewrite <- HI. apply (score_loop_backward lam v I D [] [] HI eq_refl).
Qed.

Lemma backward_length lam v l : length (backward lam v l) = length l.
Proof. induction l as [|[i d] l IH]; simpl; [reflexivity|]. now rewrite IH. Qed.

Lemma backward_nth lam v l t :
  (t < length l)%nat ->
  nth t (backward lam v l ++ [v]) 0
  = fst (nth t l (0, 0)) + snd (nth t l (0, 0)) * lam
      * nth (S t) (backward lam v l ++ [v]) 0.
Proof.
  revert t. induction l as [|[i d] l IH]; intros t Ht; simpl in *; [lia|].
  destruct t as [|t].
  - simpl. f_equal. f_equal.
    destruct (backward lam v l); reflexivity.
  - apply IH. lia.
Qed.

Lemma nth_map_default {A B} (f : A -> B) (l : list A) t (da : A) (db : B) :
  (t < length l)%nat -> nth t (map f l) db = f (nth t l da).
Proof.
  intros Ht. rewrite (nth_indep _ db (f da)) by (rewrite length_map; lia).
  apply map_nth.
Qed.

Lemma nth_map_R (f : R -> R) l t :
  (t < length l)%nat -> nth t (map f l) 0 = f (nth t l 0).
Proof.
  intros Ht. rewrite (nth_indep _ 0 (f 0)) by (rewrite length_map; lia).
  apply map_nth.
Qed.

Lemma nth_zip_with_R (f : R -> R -> R) a b t :
  (t < length a)%nat -> length a = length b ->
  nth t (zip_with f a b) 0 = f (nth t a 0) (nth t b 0).
Proof.
  revert b t. induction a as [|x a IH]; intros [|y b] t Ht Hlen; simpl in *;
    try lia.
  destruct t as [|t]; [reflexivity|]. apply IH; lia.
Qed.

Lemma nth_tl (l : list R) t : nth t (tl l) 0 = nth (S t) l 0.
Proof. destruct l; simpl; [now destruct t|reflexivity]. Qed.

Lemma length_tl (l : list R) : length (tl l) = pred (length l).
Proof. destruct l; reflexivity. Qed.

Lemma last_nth (l : list R) n :
  length l = S n -> last l = Some (nth n l 0).
Proof.
  revert n. induction l as [|x l IH]; intros n Hl; simpl in *; [lia|].
  destruct l as [|y l].
  - simpl in Hl. assert (n = 0%nat) as -> by lia. reflexivity.
  - destruct n as [|n]; simpl in Hl; [lia|].
    change (last (x :: y :: l)) with (last (y :: l)).
    rewrite (IH n) by (simpl; lia). reflexivity.
Qed.

Ltac returns3_eq tac :=
  match goal with
  | |- Ok (_, [?a; ?b; ?c], _) = Ok (_, [?a'; ?b'; ?c'], _) =>
      replace a with a' by tac;
      replace b with b' by tac;
      replace c with c' by tac;
      reflexivity
  end.

Lemma jnp_stack_ok {A} (l : list A) :
  (0 < length l)%nat -> jnp_stack l = Ok l.
Proof. destruct l; simpl; [lia|done]. Qed.

Lemma score_length3 cfg r c c0 v0 v1 v2 v :
  horizon cfg <> 0 ->
  score cfg [r; r; r] [c0; c; c; c] [v0; v1; v2; v] 4
  = Ok ([r; r; r],
        (let lam := return_lambda cfg in
         let d := c * (1 - 1 / horizon cfg) in
         let ret2 := r + d * ((1 - lam) * v + lam * v) in
         let ret1 := r + d * ((1 - lam) * v2 + lam * ret2) in
         let ret0 := r + d * ((1 - lam) * v1 + lam * ret1) in
         [ret0; ret1; ret2]),
        [v0; v1; v2]).
Proof.
  intros Hh. unfold score. simpl.
  destruct (Req_dec_T (horizon cfg) 0) as [E|_]; [contradiction|].
  simpl. unfold score_step. simpl.
  returns3_eq ltac:(field; assumption).
Qed.

(** C1 (as stated) fails for [H = 0]: [jnp.stack] of the empty list of
    returns raises. *)
Lemma score_lambda_return_counterexample :
  length ([] : list R) = 0%nat /\
  score (mkVConfig 2 (1 / 2)) [] [1] [0] 1 = Raise ValueError.
Proof.
  split; [reflexivity|]. unfold score. simpl.
  destruct (Req_dec_T 2 0) as [E|_]; [lra|]. reflexivity.
Qed.

(** C1 (amended). For [H >= 1], [VFunction.score] returns a return sequence
    of length [H] that satisfies the backward lambda-return recursion
    [ret[t] = rew[t] + disc[t] * ((1 - lambda) * value[t+1] + lambda * ret[t+1])]
    with [ret[H] = value[H]] and [disc[t] = cont[t+1] * (1 - 1/horizon)]; for a
    trajectory of length 3 with constant reward, continuation and discount the
    returns are the closed-form geometric sums. *)
Theorem score_lambda_return (cfg : VConfig) :
  horizon cfg <> 0 ->
  let lam := return_lambda cfg in
  let gamma := 1 - 1 / horizon cfg in
  (forall (H : nat) (rew cont value : list R),
      (1 <= H)%nat ->
      length rew = H -> length cont = S H -> length value = S H ->
      exists ret,
        score cfg rew cont value (S H) = Ok (rew, ret, removelast value) /\
        length ret = H /\
        (forall t, (t < H)%nat ->
           nth t (ret ++ [nth H value 0]) 0
           = nth t rew 0
             + (nth (S t) cont 0 * gamma)
               * ((1 - lam) * nth (S t) value 0
                  + lam * nth (S t) (ret ++ [nth H value 0]) 0)) /\
        nth H (ret ++ [nth H value 0]) 0 = nth H value 0) /\
  (forall r c c0 v0 v1 v2 v : R,
      let d := c * gamma in
      (lam = 1 ->
       score cfg [r; r; r] [c0; c; c; c] [v0; v1; v2; v] 4
       = Ok ([r; r; r],
             [r + d * r + d ^ 2 * r + d ^ 3 * v;
              r + d * r + d ^ 2 * v;
              r + d * v],
             [v0; v1; v2])) /\
      (v1 = v -> v2 = v ->
       let q := d * lam in
       let b := r + d * (1 - lam) * v in
       score cfg [r; r; r] [c0; c; c; c] [v0; v1; v2; v] 4
       = Ok ([r; r; r],
             [b + q * b + q ^ 2 * b + q ^ 3 * v;
              b + q * b + q ^ 2 * v;
              b + q * v],
             [v0; v1; v2]))).
Proof.
  intros Hh lam gamma. split.
  - intros H rew cont value Hpos Hrew Hcont Hvalue.
    set (disc := map (fun c => c * gamma) (tl cont)).
    set (interm := zip_with Rplus rew
                     (map (fun x => x * (1 - lam)) (zip_with Rmult disc (tl value)))).
    assert (Hdisc : length disc = H).
    { unfold disc. rewrite length_map, length_tl, Hcont. reflexivity. }
    assert (Htlv : length (tl value) = H).
    { rewrite length_tl, Hvalue. reflexivity. }
    assert (Hd1 : length (zip_with Rmult disc (tl value)) = H).
    { rewrite length_zip_with. lia. }
    assert (Hinterm : length interm = H).
    { unfold interm. rewrite length_zip_with, length_map. lia. }
    exists (backward lam (nth H value 0) (combine interm disc)).
    split; [|split; [|split]].
    + unfold score. rewrite Hrew, Nat.eqb_refl. simpl.
      destruct (Req_dec_T (horizon cfg) 0) as [E|_]; [contradiction|].
      rewrite (last_nth value H Hvalue).
      fold gamma. fold disc.
      rewrite (ew2_zip_with Rmult disc (tl value)) by lia. simpl.
      rewrite (ew2_zip_with Rplus rew) by (rewrite length_map; lia). simpl.
      fold lam. fold interm.
      rewrite (score_loop lam _ interm disc) by lia.
      rewrite rev_involutive, removelast_last.
      rewrite jnp_stack_ok by (rewrite backward_length, length_combine; lia).
      reflexivity.
    + rewrite backward_length, length_combine. lia.
    + intros t Ht.
      rewrite backward_nth by (rewrite length_combine; lia).
      rewrite combine_nth by lia. simpl.
      unfold interm at 1.
      rewrite nth_zip_with_R by (rewrite ?length_map; lia).
      rewrite nth_map_R by lia.
      rewrite nth_zip_with_R by lia.
      unfold disc at 1 2. rewrite !nth_map_R by (rewrite length_tl; lia).
      rewrite !nth_tl. ring.
    + rewrite app_nth2 by (rewrite backward_length, length_combine; lia).
      rewrite backward_length, length_combine.
      replace (H - (length interm `min` length disc))%nat with 0%nat by lia.
      reflexivity.
  - intros r c c0 v0 v1 v2 v d. split.
    + intros Hlam. rewrite score_length3 by assumption.
      fold lam gamma. fold d. rewrite Hlam. simpl. returns3_eq ltac:(ring).
    + intros -> -> q b. rewrite score_length3 by assumption.
      fold lam gamma. fold d. simpl. unfold q, b. returns3_eq ltac:(ring).
Qed.

Lemma score_lambda_return_witness :
  exists ret,
    score (mkVConfig 2 (1 / 2)) [1; 1] [1; 1; 1] [0; 0; 0] 3
    = Ok ([1; 1], ret, [0; 0]) /\ length ret = 2%nat.
Proof.
  destruct (score_lambda_return (mkVConfig 2 (1 / 2))) as [Hgen _].
  { simpl. lra. }
  destruct (Hgen 2%nat [1; 1] [1; 1; 1] [0; 0; 0] ltac:(lia)
                 eq_refl eq_refl eq_refl)
    as (ret & Hs & Hl & _).
  exists ret. split; assumption.
Defined.

(** ** Return normalization: [Moments.stats] *)

Lemma inv_max_pos mx : 0 < mx -> 0 < 1 / mx.
Proof. intros H. apply Rdiv_lt_0_compat; lra. Qed.

Lemma std_floor var mx eps :
  0 < mx -> 0 <= eps -> 1 / mx <= sqrt (Rmax var (1 / mx ^ 2) + eps).
Proof.
  intros Hmx Heps.
  pose proof (inv_max_pos mx Hmx) as Hinv.
  rewrite <- (sqrt_pow2 (1 / mx)) at 1 by lra.
  apply sqrt_le_1_alt.
  replace ((1 / mx) ^ 2) with (1 / mx ^ 2) by (field; lra).
  pose proof (Rmax_r var (1 / mx ^ 2)). lra.
Qed.

Lemma normalize_defined ret offset invscale :
  invscale <> 0 ->
  map (fun x => x * invscale + offset) (normalize ret offset invscale) = ret.
Proof.
  intros Hne. unfold normalize. rewrite map_map.
  rewrite (map_ext _ (fun x => x)) by (intros; field; assumption).
  apply map_id.
Qed.

Lemma corr_nonzero (decay : R) (step : Z) :
  0 <= decay < 1 -> (1 <= step)%Z -> powerRZ decay step <> 1.
Proof.
  intros Hd Hstep. rewrite <- (Z2Nat.id step) by lia.
  rewrite <- pow_powerRZ.
  assert (Hn : (1 <= Z.to_nat step)%nat) by lia.
  destruct (Z.to_nat step) as [|n]; [lia|]. simpl.
  assert (decay ^ n <= 1).
  { rewrite <- (pow1 n). apply pow_incr. lra. }
  assert (0 <= decay ^ n) by (apply pow_le; lra). nra.
Qed.

Lemma xdiv_finite (a b : R) : b <> 0 -> xdiv a b = XFin (a / b).
Proof.
  intros Hb. unfold xdiv. by destruct (Req_dec_T b 0).
Qed.

Lemma xsqrt_finite (a : R) : 0 <= a -> xsqrt (XFin a) = XFin (sqrt a).
Proof.
  intros Ha. unfold xsqrt. destruct (Rlt_dec a 0); [lra|done].
Qed.

(** C10 (as stated) fails: with a negative [eps] the [mean_std] branch adds
    [eps] after the variance floor, and the scale drops below [1 / max]; and
    where the bias correction [1 - decay ** step] is zero, as in the
    constructor's state and in every state of a normalizer with decay 1, the
    [mean_std] scale is a NaN. *)
Lemma stats_scale_floor_counterexample :
  (m_impl moments_negative_eps <> impl_off) /\
  (0 < m_max moments_negative_eps) /\
  (Moments_stats moments_negative_eps = Ok (XFin 0, XFin 0)) /\
  ~ (1 / m_max moments_negative_eps <= 0) /\
  Moments_stats (Moments_mean_std_init (99 / 100) 100000000 0)
  = Ok (XNaN, XNaN) /\
  (Moments_update (fun _ _ => 0) 5 95 (Moments_mean_std_init 1 1 0) [0]
     ≫= Moments_stats)
  = Ok (XNaN, XNaN).
Proof.
  split; [discriminate|]. split; [simpl; lra|]. split; [|split; [|split]].
  - unfold Moments_stats, moments_negative_eps.
    cbn [m_impl m_max m_decay m_step m_mean m_sqrs m_eps].
    destruct (Req_dec_T 1 0) as [E|_]; [lra|].
    rewrite !xdiv_finite by (simpl; lra). cbn [xsub xmaximum xadd].
    replace (Rmax (0 / (1 - powerRZ (1 / 2) 1) - 0 ^ 2) (1 / 1 ^ 2) + -1)
      with 0.
    + rewrite xsqrt_finite by lra. rewrite sqrt_0.
      do 3 f_equal. simpl. field.
    + rewrite Rmax_right; simpl; [field|]. lra.
  - simpl. lra.
  - unfold Moments_stats, Moments_mean_std_init.
    cbn [m_impl m_max m_decay m_step m_mean m_sqrs m_eps].
    destruct (Req_dec_T 100000000 0) as [E|_]; [lra|].
    unfold xdiv. change (powerRZ (99 / 100) 0) with 1.
    destruct (Req_dec_T (1 - 1) 0) as [_|E]; [|lra].
    destruct (Rlt_dec 0 0) as [E|_]; [lra|]. reflexivity.
  - unfold Moments_update, Moments_mean_std_init.
    cbn [m_impl m_max m_decay m_step m_mean m_sqrs m_eps m_low m_high m_mag].
    rewrite bind_Ok. unfold Moments_stats.
    cbn [m_impl m_max m_decay m_step m_mean m_sqrs m_eps].
    destruct (Req_dec_T 1 0) as [E|_]; [lra|].
    change (wrap32 (0 + 1)) with 1%Z.
    assert (Hcorr : 1 - powerRZ 1 1 = 0) by (simpl; lra).
    assert (Hmean : 1 * 0 + (1 - 1) * mean_list [0] = 0) by ring.
    assert (Hsqrs : 1 * 0 + (1 - 1) * mean_list (map (fun v => v * v) [0]) = 0)
      by ring.
    rewrite Hcorr, Hmean, Hsqrs. unfold xdiv.
    destruct (Req_dec_T 0 0) as [_|E]; [|lra].
    destruct (Rlt_dec 0 0) as [E|_]; [lra|]. reflexivity.
Qed.

(** C10 (amended). For every [Moments] with [impl] other than [off], bound
    [max > 0] and [eps >= 0], in every internal state in which the bias
    correction [1 - decay ** step] is not zero where the implementation
    divides by it ([mean_std] and [perc_ema_corr]), [stats()] returns a
    finite scale that is at least [1 / max], hence positive, so the
    normalization [(ret - offset) / invscale] of [ImagActorCritic.loss]
    divides by a non-zero number; the bias correction is not zero in any
    state with at least one update when the decay lies in [[0, 1)]. *)
Theorem stats_scale_floor (m : Moments) :
  m_impl m <> impl_off -> 0 < m_max m -> 0 <= m_eps m ->
  ((bias_corrected m = true -> powerRZ (m_decay m) (m_step m) <> 1) ->
   exists offset invscale : R,
     Moments_stats m = Ok (XFin offset, XFin invscale) /\
     1 / m_max m <= invscale /\
     0 < invscale /\
     (forall ret,
         map (fun x => x * invscale + offset) (normalize ret offset invscale)
         = ret)) /\
  (0 <= m_decay m < 1 -> (1 <= m_step m)%Z ->
   powerRZ (m_decay m) (m_step m) <> 1).
Proof.
  intros Himpl Hmax Heps. split; [|apply corr_nonzero].
  intros Hcorr.
  pose proof (inv_max_pos _ Hmax) as Hinv.
  assert (Hfin : forall offset invscale,
             1 / m_max m <= invscale ->
             1 / m_max m <= invscale /\ 0 < invscale /\
             (forall ret,
                 map (fun x => x * invscale + offset)
                     (normalize ret offset invscale) = ret)).
  { intros offset invscale Hle. split; [exact Hle|]. split; [lra|].
    intros ret. apply normalize_defined. lra. }
  assert (Hfloor : 0 < 1 / m_max m ^ 2).
  { apply Rdiv_lt_0_compat; [lra|]. apply pow_lt. exact Hmax. }
  unfold bias_corrected in Hcorr. unfold Moments_stats.
  destruct (m_impl m); try contradiction;
    destruct (Req_dec_T (m_max m) 0) as [E|_]; try lra.
  - (* mean_std *)
    specialize (Hcorr eq_refl).
    rewrite !xdiv_finite by lra. cbn [xsub xmaximum xadd].
    set (var := m_sqrs m / (1 - powerRZ (m_decay m) (m_step m)) - m_mean m ^ 2).
    pose proof (Rmax_r var (1 / m_max m ^ 2)) as Hr.
    rewrite xsqrt_finite by lra.
    do 2 eexists. split; [reflexivity|]. apply Hfin. by apply std_floor.
  - do 2 eexists. split; [reflexivity|]. apply Hfin, Rmax_l.
  - do 2 eexists. split; [reflexivity|]. apply Hfin, Rmax_l.
  - (* perc_ema_corr *)
    specialize (Hcorr eq_refl).
    rewrite !xdiv_finite by lra. cbn [xsub xmaximum].
    do 2 eexists. split; [reflexivity|]. apply Hfin, Rmax_l.
  - do 2 eexists. split; [reflexivity|]. apply Hfin, Rmax_l.
  - do 2 eexists. split; [reflexivity|]. apply Hfin, Rmax_l.
Qed.

Lemma stats_scale_floor_witness :
  exists offset invscale,
    Moments_stats (mkMoments impl_mean_std (1 / 2) 1 0 1 0 0 0 0 0)
    = Ok (XFin offset, XFin invscale) /\
    1 / 1 <= invscale.
Proof.
  destruct (stats_scale_floor (mkMoments impl_mean_std (1 / 2) 1 0 1 0 0 0 0 0))
    as [Hstats Hcorr].
  - discriminate.
  - simpl. lra.
  - simpl. lra.
  - destruct Hstats as (o & s & Hs & Hle & _).
    + intros _. apply Hcorr; simpl; [lra|lia].
    + exists o, s. split; assumption.
Defined.

(** ** Straight-through sampling: [OneHotDist.sample] *)

Lemma straight_through_primal (h p : list dual) :
  length h = length p ->
  map primal (zip_with dadd (map sg h) (zip_with dsub p (map sg p)))
  = map primal h.
Proof.
  revert p. induction h as [|x h IH]; intros [|y p] Hlen; simpl in *;
    try discriminate; [reflexivity|].
  rewrite IH by lia. f_equal. ring.
Qed.

Lemma straight_through_tangent (h p : list dual) :
  length h = length p ->
  map tangent (zip_with dadd (map sg h) (zip_with dsub p (map sg p)))
  = map tangent p.
Proof.
  revert p. induction h as [|x h IH]; intros [|y p] Hlen; simpl in *;
    try discriminate; [reflexivity|].
  rewrite IH by lia. f_equal. ring.
Qed.

Lemma length_one_hot k n : length (one_hot k n) = n.
Proof. unfold one_hot. now rewrite length_map, length_seq. Qed.

Lemma length_probs_parameter d : length (probs_parameter d) = num_classes d.
Proof.
  destruct d; simpl; [|reflexivity].
  unfold softmax_dual. now rewrite length_map.
Qed.

Lemma nth_one_hot k n i :
  (i < n)%nat -> nth i (one_hot k n) 0 = if (i =? k)%nat then 1 else 0.
Proof.
  intros Hi. unfold one_hot.
  rewrite (nth_map_default _ _ _ 0%nat) by (rewrite length_seq; lia).
  rewrite seq_nth by lia. reflexivity.
Qed.

Lemma map_primal_dconst l : map primal (map dconst l) = l.
Proof. rewrite map_map. simpl. apply map_id. Qed.

Lemma map_primal_sg l : map primal (map sg l) = map primal l.
Proof. rewrite map_map. reflexivity. Qed.

Lemma primal_dsum_exp_seed i x :
  primal (dsum (map dexp (seed i x))) = sum_list (map exp x).
Proof.
  revert i. induction x as [|a x IH]; intros i; [reflexivity|].
  destruct i as [|i]; simpl.
  - f_equal. clear IH. induction x as [|b x IHx]; [reflexivity|].
    simpl. now rewrite IHx.
  - now rewrite IH.
Qed.

Lemma tangent_dsum_exp_const x :
  tangent (dsum (map dexp (map dconst x))) = 0.
Proof.
  induction x as [|a x IH]; [reflexivity|]. simpl. rewrite IH. ring.
Qed.

Lemma tangent_dsum_exp_seed i x :
  (i < length x)%nat ->
  tangent (dsum (map dexp (seed i x))) = exp (nth i x 0).
Proof.
  revert i. induction x as [|a x IH]; intros i Hi; simpl in *; [lia|].
  destruct i as [|i]; simpl.
  - rewrite tangent_dsum_exp_const. ring.
  - rewrite IH by lia. ring.
Qed.

Lemma nth_seed i x :
  (i < length x)%nat -> nth i (seed i x) (dconst 0) = mkDual (nth i x 0) 1.
Proof.
  revert i. induction x as [|a x IH]; intros i Hi; simpl in *; [lia|].
  destruct i as [|i]; [reflexivity|]. apply IH. lia.
Qed.

Lemma length_seed i x : length (seed i x) = length x.
Proof.
  revert i. induction x as [|a x IH]; intros i; [reflexivity|].
  destruct i; simpl; [now rewrite length_map|now rewrite IH].
Qed.

Lemma sum_exp_pos x : 0 <= sum_list (map exp x).
Proof.
  induction x as [|a x IH]; simpl; [lra|].
  pose proof (exp_pos a). lra.
Qed.

Lemma sum_exp_ge i x :
  (i < length x)%nat -> exp (nth i x 0) <= sum_list (map exp x).
Proof.
  revert i. induction x as [|a x IH]; intros i Hi; simpl in *; [lia|].
  pose proof (exp_pos a). pose proof (sum_exp_pos x).
  destruct i as [|i]; [lra|].
  specialize (IH i ltac:(lia)). lra.
Qed.

Lemma sum_exp_gt i x :
  (i < length x)%nat -> (2 <= length x)%nat ->
  exp (nth i x 0) < sum_list (map exp x).
Proof.
  intros Hi H2. destruct x as [|a x]; simpl in *; [lia|].
  pose proof (exp_pos a).
  destruct i as [|i].
  - destruct x as [|b x]; simpl in *; [lia|].
    pose proof (exp_pos b). pose proof (sum_exp_pos x). lra.
  - pose proof (sum_exp_ge i x ltac:(lia)). lra.
Qed.

Lemma softmax_seed_tangent i x :
  (i < length x)%nat -> (2 <= length x)%nat ->
  let p := exp (nth i x 0) / sum_list (map exp x) in
  tangent (nth i (softmax_dual (seed i x)) (dconst 0)) = p * (1 - p) /\
  0 < p * (1 - p).
Proof.
  intros Hi H2 p.
  pose proof (sum_exp_gt i x Hi H2) as Hgt.
  pose proof (exp_pos (nth i x 0)) as He.
  unfold softmax_dual.
  set (z := dsum (map dexp (seed i x))).
  rewrite (nth_map_default _ _ _ (dconst 0)) by (rewrite length_seed; lia).
  rewrite nth_seed by lia.
  unfold ddiv, dexp, z. simpl.
  rewrite primal_dsum_exp_seed, tangent_dsum_exp_seed by lia.
  unfold p. split.
  - field. lra.
  - apply Rmult_lt_0_compat.
    + apply Rdiv_lt_0_compat; lra.
    + replace (1 - exp (nth i x 0) / sum_list (map exp x))
        with ((sum_list (map exp x) - exp (nth i x 0)) / sum_list (map exp x))
        by (field; lra).
      apply Rdiv_lt_0_compat; lra.
Qed.

(** C2. [OneHotDist.sample] returns
    [sg(hard sample) + (probs - sg(probs))]: its forward value is exactly the
    one-hot hard sample, and its gradient with respect to the distribution
    parameters is the gradient of the probabilities, which is non-zero: the
    derivative of the [i]-th component with respect to the [i]-th probability
    is [1], and for softmax logits over at least two classes its derivative
    with respect to the [i]-th logit is [p_i * (1 - p_i) > 0]. *)
Theorem sample_straight_through (d : OneHotDist) (draw : nat) :
  let hard := OneHotCategorical_sample d draw in
  let probs := probs_parameter d in
  OneHotDist_sample d draw
    = zip_with dadd (map sg hard) (zip_with dsub probs (map sg probs)) /\
  map primal (OneHotDist_sample d draw) = one_hot draw (num_classes d) /\
  map primal (OneHotDist_sample d draw) = map primal hard /\
  ((draw < num_classes d)%nat ->
   forall i, (i < num_classes d)%nat ->
     nth i (map primal (OneHotDist_sample d draw)) 0
     = if (i =? draw)%nat then 1 else 0) /\
  map tangent (OneHotDist_sample d draw) = map tangent probs /\
  (forall (p : list R) (i : nat),
      d = OneHotProbs (seed i p) ->
      (i < length p)%nat ->
      tangent (nth i (OneHotDist_sample d draw) (dconst 0)) = 1) /\
  (forall (x : list R) (i : nat),
      d = OneHotLogits (seed i x) ->
      (i < length x)%nat -> (2 <= length x)%nat ->
      let p := exp (nth i x 0) / sum_list (map exp x) in
      tangent (nth i (OneHotDist_sample d draw) (dconst 0)) = p * (1 - p) /\
      tangent (nth i (OneHotDist_sample d draw) (dconst 0)) <> 0).
Proof.
  intros hard probs.
  assert (Hlen : length (map sg hard) = length probs).
  { unfold hard, probs, OneHotCategorical_sample.
    rewrite !length_map, length_one_hot, length_probs_parameter. reflexivity. }
  assert (Hprimal : map primal (OneHotDist_sample d draw)
                    = one_hot draw (num_classes d)).
  { unfold OneHotDist_sample. fold hard. fold probs.
    rewrite straight_through_primal by exact Hlen.
    rewrite !map_primal_sg. unfold hard, OneHotCategorical_sample.
    apply map_primal_dconst. }
  assert (Htangent : map tangent (OneHotDist_sample d draw) = map tangent probs).
  { unfold OneHotDist_sample. fold hard. fold probs.
    apply straight_through_tangent. exact Hlen. }
  assert (Ht : forall i,
             tangent (nth i (OneHotDist_sample d draw) (dconst 0))
             = tangent (nth i probs (dconst 0))).
  { intros i. change 0 with (tangent (dconst 0)) at 1.
    rewrite <- !map_nth with (f := tangent). now rewrite Htangent. }
  split; [|split; [|split; [|split; [|split; [|split]]]]].
  - unfold OneHotDist_sample. fold hard. fold probs.
    f_equal. rewrite map_map. apply map_ext. intros a. reflexivity.
  - exact Hprimal.
  - rewrite Hprimal. unfold hard, OneHotCategorical_sample.
    now rewrite map_primal_dconst.
  - intros _ i Hi. rewrite Hprimal. now apply nth_one_hot.
  - exact Htangent.
  - intros p i Hd Hi. rewrite Ht. unfold probs. rewrite Hd. simpl.
    now rewrite nth_seed.
  - intros x i Hd Hi H2 p.
    rewrite Ht. unfold probs. rewrite Hd. simpl.
    destruct (softmax_seed_tangent i x Hi H2) as [Heq Hpos].
    fold p in Heq, Hpos. rewrite Heq. split; [reflexivity|lra].
Qed.

Lemma sample_straight_through_witness :
  tangent (nth 0 (OneHotDist_sample (OneHotLogits (seed 0 [0; 0])) 1) (dconst 0))
  <> 0 /\
  nth 1 (map primal (OneHotDist_sample (OneHotLogits (seed 0 [0; 0])) 1)) 0 = 1.
Proof.
  destruct (sample_straight_through (OneHotLogits (seed 0 [0; 0])) 1)
    as (_ & _ & _ & Hhot & _ & _ & Hgrad).
  split.
  - apply (Hgrad [0; 0] 0%nat eq_refl); simpl; lia.
  - apply (Hhot ltac:(simpl; lia) 1%nat ltac:(simpl; lia)).
Defined.

(** ** Pytrees and [jaxutils.scan] *)

Section PytreeFacts.
Context {V : Type}.
Implicit Types m : gmap string V.

Lemma omap_lookup_index m (l : list string) i k :
  (forall k', k' ∈ l -> is_Some (m !! k')) ->
  l !! i = Some k ->
  omap (fun k' => m !! k') l !! i = m !! k.
Proof.
  revert i. induction l as [|a l IH]; intros i Hall Hi; [done|].
  destruct (Hall a) as [v Hv]; [by left|].
  cbn. rewrite Hv. destruct i as [|i]; simpl in *.
  - by simplify_eq.
  - apply IH; [|done]. intros k' Hk'. apply Hall. by right.
Qed.

Lemma omap_lookup_length m (l : list string) :
  (forall k', k' ∈ l -> is_Some (m !! k')) ->
  length (omap (fun k' => m !! k') l) = length l.
Proof.
  induction l as [|a l IH]; intros Hall; [done|].
  destruct (Hall a) as [v Hv]; [by left|].
  cbn. rewrite Hv. simpl. f_equal. apply IH.
  intros k' Hk'. apply Hall. by right.
Qed.

Lemma keys_in_dom m k : k ∈ elements (dom m) -> is_Some (m !! k).
Proof. intros Hk. apply elem_of_elements in Hk. by apply elem_of_dom. Qed.

Lemma tree_leaves_lookup m i k :
  elements (dom m) !! i = Some k -> tree_leaves m !! i = m !! k.
Proof. apply omap_lookup_index. apply keys_in_dom. Qed.

Lemma tree_leaves_length m :
  length (tree_leaves m) = length (elements (dom m)).
Proof. apply omap_lookup_length. apply keys_in_dom. Qed.
End PytreeFacts.

Lemma mapM_result_ok {A B} (f : A -> result B) (g : A -> B) (l : list A) :
  (forall x, x ∈ l -> f x = Ok (g x)) -> mapM_result f l = Ok (map g l).
Proof.
  induction l as [|a l IH]; intros Hall; [done|].
  simpl. rewrite (Hall a) by (by left). simpl.
  rewrite IH; [done|]. intros x Hx. apply Hall. by right.
Qed.

Lemma zip_keys_stacked {B} (h : string -> B) (g : nat -> B)
      (pre l : list string) :
  (forall i k, (pre ++ l) !! i = Some k -> g i = h k) ->
  zip l (map g (seq (length pre) (length l))) = map (fun k => (k, h k)) l.
Proof.
  revert pre. induction l as [|a l IH]; intros pre Hg; [done|].
  simpl. f_equal.
  - f_equal. apply Hg. rewrite lookup_app_r by lia.
    by rewrite Nat.sub_diag.
  - specialize (IH (pre ++ [a])). rewrite length_app in IH. simpl in IH.
    replace (length pre + 1)%nat with (S (length pre)) in IH by lia.
    apply IH. intros i k. rewrite <- app_assoc. apply Hg.
Qed.

Lemma list_to_map_keyed {B} (h : string -> B) (l : list string) k :
  (list_to_map (map (fun k' => (k', h k')) l) : gmap string B) !! k
  = if decide (k ∈ l) then Some (h k) else None.
Proof.
  induction l as [|a l IH]; simpl.
  - rewrite lookup_empty. destruct (decide (k ∈ [])) as [Hin|]; [|done].
    by apply elem_of_nil in Hin.
  - destruct (decide (a = k)) as [->|Hne].
    + rewrite lookup_insert_eq. rewrite decide_True; [done|by left].
    + rewrite lookup_insert_ne by done. rewrite IH.
      destruct (decide (k ∈ l)) as [Hin|Hnin].
      * rewrite decide_True; [done|by right].
      * rewrite decide_False; [done|].
        intros [?|?]%elem_of_cons; [congruence|done].
Qed.

Section ScanFacts.
Context {T X : Type}.
Implicit Types (fn : gmap string T -> X -> result (gmap string T)).
Implicit Types (start carry : gmap string T) (inputs : list X).

Lemma leaf_elements_flatten (def : gset string) (outs : list (gmap string T)) i k :
  Forall (fun o => tree_structure o = def) outs ->
  elements def !! i = Some k ->
  mapM_result (fun flat => index flat i) (map tree_leaves outs)
  = Ok (omap (fun o : gmap string T => o !! k) outs).
Proof.
  intros Hall Hi.
  induction Hall as [|o outs Ho Hall IH]; [done|].
  unfold tree_structure in Ho.
  assert (is_Some (o !! k)) as [v Hv].
  { apply elem_of_dom. rewrite Ho. apply elem_of_elements.
    by eapply list_elem_of_lookup_2. }
  assert (Hidx : index (tree_leaves o) i = Ok v).
  { unfold index. rewrite (tree_leaves_lookup o i k) by (by rewrite Ho).
    by rewrite Hv. }
  change (map tree_leaves (o :: outs))
    with (tree_leaves o :: map tree_leaves outs).
  cbn [mapM_result]. rewrite Hidx, IH. cbn. by rewrite Hv.
Qed.

Lemma stack_leaf_flatten (def : gset string) (outs : list (gmap string T)) i k :
  outs <> [] ->
  Forall (fun o => tree_structure o = def) outs ->
  elements def !! i = Some k ->
  stack_leaf (map tree_leaves outs) i
  = Ok (omap (fun o : gmap string T => o !! k) outs).
Proof.
  intros Hne Hall Hi. unfold stack_leaf.
  rewrite (leaf_elements_flatten def outs i k Hall Hi), bind_Ok.
  destruct outs as [|o outs]; [done|].
  apply Forall_cons in Hall as [Ho _]. unfold tree_structure in Ho.
  assert (is_Some (o !! k)) as [v Hv].
  { apply elem_of_dom. rewrite Ho. apply elem_of_elements.
    by eapply list_elem_of_lookup_2. }
  cbn. by rewrite Hv.
Qed.

Lemma scan_loop_spec fn (def : gset string) inputs carry acc r :
  scan_loop fn def inputs carry acc = Ok r <->
  exists final outs,
    sequential (fn2 fn) carry inputs = Ok (final, outs) /\
    Forall (fun o => tree_structure o = def) outs /\
    r = acc ++ map tree_leaves outs.
Proof.
  revert carry acc r. induction inputs as [|inp rest IH]; intros carry acc r;
    simpl.
  - split.
    + intros [= <-]. exists carry, []. by rewrite app_nil_r.
    + intros (final & outs & [= <- <-] & _ & ->). by rewrite app_nil_r.
  - unfold fn2 at 1 3. destruct (fn carry inp) as [out|e]; simpl.
    2: { split; [done|]. by intros (? & ? & ? & _). }
    destruct (bool_decide (tree_structure out = def)) eqn:Hdef.
    + apply bool_decide_eq_true in Hdef. rewrite IH. split.
      * intros (final & outs & Hseq & Hall & ->).
        exists final, (out :: outs). rewrite Hseq. simpl.
        split; [done|]. split; [by constructor|].
        by rewrite <- app_assoc.
      * intros (final & outs & Hseq & Hall & ->).
        destruct (sequential (fn2 fn) out rest) as [[final' outs']|e];
          simpl in Hseq; [|done].
        injection Hseq as <- <-. exists final', outs'.
        split; [done|]. inversion Hall; subst.
        split; [done|]. by rewrite <- app_assoc.
    + apply bool_decide_eq_false in Hdef. split; [done|].
      intros (final & outs & Hseq & Hall & _).
      destruct (sequential (fn2 fn) out rest) as [[final' outs']|e];
        simpl in Hseq; [|done].
      injection Hseq as <- <-. inversion Hall; subst. done.
Qed.

Lemma sequential_length step carry inputs final
      (outs : list (gmap string T)) :
  sequential (T:=T) (X:=X) step carry inputs = Ok (final, outs) ->
  length outs = length inputs.
Proof.
  revert carry final outs. induction inputs as [|inp rest IH];
    intros carry final outs; simpl.
  - by intros [= <- <-].
  - destruct (step carry inp) as [r|e]; simpl; [|done].
    destruct (sequential step r.1 rest) as [[final' outs']|e] eqn:Hseq;
      simpl; [|done].
    intros [= <- <-]. simpl. f_equal. by eapply IH.
Qed.

Lemma unflatten_stacked start (outs : list (gmap string T)) :
  tree_unflatten (tree_structure start)
    (map (fun i =>
            match elements (dom start) !! i with
            | Some k => omap (fun o : gmap string T => o !! k) outs
            | None => []
            end)
         (seq 0 (length (elements (dom start)))))
  = stack_outputs start outs.
Proof.
  unfold tree_unflatten, tree_structure.
  rewrite (zip_keys_stacked
             (fun k => omap (fun o : gmap string T => o !! k) outs) _ []).
  2: { intros i k Hi. simpl in Hi. by rewrite Hi. }
  apply map_eq. intros k. rewrite list_to_map_keyed.
  unfold stack_outputs. rewrite map_lookup_imap.
  destruct (decide (k ∈ elements (dom start))) as [Hin|Hnin].
  - apply keys_in_dom in Hin as [v Hv]. by rewrite Hv.
  - destruct (start !! k) as [v|] eqn:Hv; [|done].
    exfalso. apply Hnin. apply elem_of_elements, elem_of_dom. by eexists.
Qed.

(** The unrolled branch on a non-empty input sequence computes the stacked
    outputs of the sequential scan. *)
Lemma scan_unrolled_sequential fn inputs start final outs :
  inputs <> [] ->
  sequential (fn2 fn) start inputs = Ok (final, outs) ->
  Forall (fun o => tree_structure o = tree_structure start) outs ->
  scan fn inputs start true = Ok (stack_outputs start outs).
Proof.
  intros Hne Hseq Hall. unfold scan. simpl.
  assert (Hloop : scan_loop fn (tree_structure start) inputs start []
                  = Ok (map tree_leaves outs)).
  { apply scan_loop_spec. exists final, outs. done. }
  rewrite Hloop, bind_Ok.
  pose proof (sequential_length _ _ _ _ _ Hseq) as Hlen.
  destruct outs as [|o outs]; [by destruct inputs|].
  assert (Hidx : index (map tree_leaves (o :: outs)) 0 = Ok (tree_leaves o))
    by reflexivity.
  rewrite Hidx, bind_Ok, tree_leaves_length.
  assert (Ho : dom o = dom start) by (by inversion Hall).
  rewrite Ho.
  rewrite (mapM_result_ok _
             (fun i =>
                match elements (dom start) !! i with
                | Some k => omap (fun o : gmap string T => o !! k) (o :: outs)
                | None => []
                end)).
  - rewrite bind_Ok. f_equal. apply unflatten_stacked.
  - intros i Hi. apply elem_of_seq in Hi.
    destruct (lookup_lt_is_Some_2 (elements (dom start)) i) as [k Hk]; [lia|].
    rewrite Hk. by apply (stack_leaf_flatten (dom start)).
Qed.

Lemma scan_lazy_sequential fn inputs start final outs :
  inputs <> [] ->
  sequential (fn2 fn) start inputs = Ok (final, outs) ->
  Forall (fun o => tree_structure o = tree_structure start) outs ->
  scan fn inputs start false = Ok (stack_outputs start outs).
Proof.
  intros Hne Hseq Hall. unfold scan, nj_scan. cbn [negb].
  destruct inputs as [|inp rest]; [done|]. rewrite Hseq. simpl.
  assert (forallb (fun out : gmap string T =>
             bool_decide (tree_structure out = tree_structure start)) outs
          = true) as ->; [|done].
  apply forallb_forall. intros o Ho. apply bool_decide_eq_true.
  rewrite Forall_forall in Hall. apply Hall. by apply list_elem_of_In.
Qed.

Lemma scan_unrolled_inv fn inputs start r :
  scan fn inputs start true = Ok r ->
  exists final outs,
    inputs <> [] /\
    sequential (fn2 fn) start inputs = Ok (final, outs) /\
    Forall (fun o => tree_structure o = tree_structure start) outs.
Proof.
  unfold scan. simpl.
  destruct (scan_loop fn (tree_structure start) inputs start []) as [ls|e]
    eqn:Hloop; simpl; [|done].
  apply scan_loop_spec in Hloop as (final & outs & Hseq & Hall & ->).
  intros Hr. exists final, outs. split; [|done].
  intros ->. simpl in Hseq. injection Hseq as <- <-. done.
Qed.

Lemma scan_lazy_inv fn inputs start r :
  scan fn inputs start false = Ok r ->
  exists final outs,
    inputs <> [] /\
    sequential (fn2 fn) start inputs = Ok (final, outs) /\
    Forall (fun o => tree_structure o = tree_structure start) outs.
Proof.
  unfold scan, nj_scan. cbn [negb].
  destruct inputs as [|inp rest]; [done|].
  destruct (sequential (fn2 fn) start (inp :: rest)) as [[final outs]|e];
    simpl; [|done].
  destruct (forallb _ outs) eqn:Hall; simpl; [|done].
  intros _. exists final, outs. split; [done|]. split; [done|].
  apply Forall_forall. intros o Ho.
  rewrite forallb_forall in Hall.
  eapply bool_decide_eq_true_1. apply Hall. by apply list_elem_of_In.
Qed.
End ScanFacts.

(** C7. For every step function, every stacked input sequence and every
    start carry, [jaxutils.scan] with [unroll=True] returns exactly the
    stacked outputs that it returns with [unroll=False], and one returns
    whenever the other does (on an empty input sequence both raise
    [IndexError]); consequently [WorldModel.imagine] returns the same
    trajectory for either setting of [imag_unroll]. *)
Theorem scan_unroll_equiv {T X : Type}
        (fn : gmap string T -> X -> result (gmap string T))
        (inputs : list X) (start : gmap string T) :
  (forall r, scan fn inputs start true = Ok r
             <-> scan fn inputs start false = Ok r) /\
  (inputs = [] ->
   scan fn inputs start true = Raise IndexError /\
   scan fn inputs start false = Raise IndexError) /\
  (forall (wm : WorldModel T) (policy : gmap string T -> T) (horizon : nat)
          (traj : Trajectory T),
      imagine (with_unroll wm true) policy start horizon = Ok traj
      <-> imagine (with_unroll wm false) policy start horizon = Ok traj).
Proof.
  assert (Hscan : forall {Y : Type}
                    (f : gmap string T -> Y -> result (gmap string T))
                    (ins : list Y) (s : gmap string T),
             forall r, scan f ins s true = Ok r <-> scan f ins s false = Ok r).
  { intros Y f ins s r. split; intros Hr.
    - destruct (scan_unrolled_inv f ins s r Hr)
        as (final & outs & Hins & Hseq & Hall).
      rewrite (scan_unrolled_sequential f ins s final outs Hins Hseq Hall) in Hr.
      rewrite <- Hr. by eapply scan_lazy_sequential.
    - destruct (scan_lazy_inv f ins s r Hr)
        as (final & outs & Hins & Hseq & Hall).
      rewrite (scan_lazy_sequential f ins s final outs Hins Hseq Hall) in Hr.
      rewrite <- Hr. by eapply scan_unrolled_sequential. }
  split; [by apply Hscan|]. split; [by intros ->|].
  intros wm policy horizon traj.
  unfold imagine. simpl.
  destruct (start !! "is_terminal") as [terminal|]; [|done].
  set (start' := <["action" := _]> _).
  pose proof (Hscan nat (imagine_step (with_unroll wm true) policy)
                (seq 0 horizon) start') as Heq.
  change (imagine_step (with_unroll wm false) policy)
    with (imagine_step (with_unroll wm true) policy).
  destruct (scan (imagine_step (with_unroll wm true) policy) (seq 0 horizon)
                 start' true) as [r1|e1] eqn:E1;
    destruct (scan (imagine_step (with_unroll wm true) policy) (seq 0 horizon)
                   start' false) as [r2|e2] eqn:E2.
  - assert (r1 = r2) as ->.
    { destruct (Heq r1) as [H1 _]. specialize (H1 eq_refl). congruence. }
    done.
  - destruct (Heq r1) as [H1 _]. specialize (H1 eq_refl). congruence.
  - destruct (Heq r2) as [_ H2]. specialize (H2 eq_refl). congruence.
  - done.
Qed.

Lemma scan_unroll_equiv_witness :
  scan fn_example [0%nat] start_example false
  = Ok (stack_outputs start_example [start_example]).
Proof.
  destruct (scan_unroll_equiv fn_example [0%nat] start_example) as [Heq _].
  apply Heq.
  apply (scan_unrolled_sequential fn_example [0%nat] start_example
           start_example [start_example]).
  - discriminate.
  - reflexivity.
  - by constructor.
Defined.

(** ** The imagined trajectory: [WorldModel.imagine] *)

Lemma cumprod_from_length acc l : length (cumprod_from acc l) = length l.
Proof.
  revert acc. induction l as [|x l IH]; intros acc; [done|].
  simpl. by rewrite IH.
Qed.

Lemma cumprod_from_nth acc l t :
  (t < length l)%nat ->
  nth t (cumprod_from acc l) 0 = acc * prod_list (take (S t) l).
Proof.
  revert acc t. induction l as [|x l IH]; intros acc t Ht; simpl in *; [lia|].
  destruct t as [|t].
  - destruct l; simpl; ring.
  - rewrite IH by lia. simpl. ring.
Qed.

Lemma prod_take_scaled d l n :
  (n <= length l)%nat ->
  prod_list (take n (map (fun c => d * c) l)) = d ^ n * prod_list (take n l).
Proof.
  revert n. induction l as [|x l IH]; intros n Hn; simpl in *.
  - assert (n = 0%nat) as -> by lia. simpl. ring.
  - destruct n as [|n]; simpl; [ring|]. rewrite IH by lia. ring.
Qed.

Lemma weight_nth discount cont t :
  discount <> 0 -> (t < length cont)%nat ->
  nth t (map (fun w => w / discount)
             (cumprod (map (fun c => discount * c) cont))) 0
  = discount ^ t * prod_list (take (S t) cont).
Proof.
  intros Hd Ht. unfold cumprod.
  rewrite nth_map_R by (rewrite cumprod_from_length, length_map; lia).
  rewrite cumprod_from_nth by (rewrite length_map; lia).
  rewrite prod_take_scaled by lia. simpl. field. exact Hd.
Qed.

Lemma omap_lookup_all {T : Type} (outs : list (gmap string T)) k :
  Forall (fun o => is_Some (o !! k)) outs ->
  length (omap (fun o : gmap string T => o !! k) outs) = length outs.
Proof.
  induction 1 as [|o outs [v Hv] Hall IH]; [done|].
  cbn. rewrite Hv. simpl. by rewrite IH.
Qed.

Section ImagineFacts.
Context {T : Type}.
Variable wm : WorldModel T.
Variable policy : gmap string T -> T.

Let K : gset string := list_to_set (rssm_keys wm).

Hypothesis img_step_keys : forall s a, dom (img_step wm s a) = K.

Lemma imagine_step_ok carry action inp :
  carry !! "action" = Some action ->
  exists out,
    fn2 (imagine_step wm policy) carry inp = Ok (out, out) /\
    dom out = {["action"]} ∪ K /\ is_Some (out !! "action").
Proof.
  intros Ha. unfold fn2, imagine_step. rewrite Ha. eexists.
  split; [done|]. split.
  - rewrite dom_insert_L. by rewrite img_step_keys.
  - rewrite lookup_insert_eq. by eexists.
Qed.

Lemma imagine_sequential (inputs : list nat) carry :
  is_Some (carry !! "action") ->
  exists final outs,
    sequential (fn2 (imagine_step wm policy)) carry inputs = Ok (final, outs) /\
    Forall (fun o => dom o = {["action"]} ∪ K) outs /\
    length outs = length inputs.
Proof.
  revert carry. induction inputs as [|inp rest IH]; intros carry [a Ha].
  - exists carry, []. done.
  - destruct (imagine_step_ok carry a inp Ha) as (out & Hout & Hdom & Hact).
    destruct (IH out Hact) as (final & outs & Hseq & Hall & Hlen).
    exists final, (out :: outs).
    cbn [sequential]. rewrite Hout, bind_Ok. cbn [fst snd].
    rewrite Hseq, bind_Ok.
    split; [done|]. split; [by constructor|]. simpl. by rewrite Hlen.
Qed.
End ImagineFacts.

Section TrajectoryFacts.
Context {T : Type}.
Implicit Types (start : gmap string T) (outs : list (gmap string T)).

Lemma stack_outputs_lookup start outs k :
  stack_outputs start outs !! k
  = match start !! k with
    | Some _ => Some (omap (fun o : gmap string T => o !! k) outs)
    | None => None
    end.
Proof.
  unfold stack_outputs. rewrite map_lookup_imap.
  by destruct (start !! k).
Qed.

Lemma stack_outputs_dom start outs :
  dom (stack_outputs start outs) = dom start.
Proof.
  apply set_eq. intros k. rewrite !elem_of_dom, stack_outputs_lookup.
  destruct (start !! k); split; intros [? ?]; try done; by eexists.
Qed.

Lemma prepend_start_lookup start outs k :
  map_zip_with (fun s v => s :: v) start (stack_outputs start outs) !! k
  = match start !! k with
    | Some s => Some (s :: omap (fun o : gmap string T => o !! k) outs)
    | None => None
    end.
Proof.
  rewrite map_lookup_zip_with, stack_outputs_lookup.
  by destruct (start !! k).
Qed.

Lemma prepend_start_ok start outs :
  prepend_start start (stack_outputs start outs)
  = Ok (map_zip_with (fun s v => s :: v) start (stack_outputs start outs)).
Proof.
  unfold prepend_start. rewrite stack_outputs_dom.
  by rewrite bool_decide_eq_true_2.
Qed.
End TrajectoryFacts.

Lemma cont_lookup_succ (first : R) (cont : list R) t :
  (1 <= t)%nat -> (first :: tl cont) !! t = cont !! t.
Proof.
  intros Ht. destruct t as [|t]; [lia|]. simpl.
  destruct cont; [done|]. done.
Qed.

(** C6 (as stated) fails for a horizon of zero under [imag_unroll]: the
    unrolled scan over the empty [jnp.arange(0)] raises, so no trajectory of
    [horizon + 1 = 1] steps is returned. *)
Lemma imagine_trajectory_counterexample :
  imag_unroll wm_example = true /\
  start_example !! "is_terminal" = Some 0%Z /\
  imagine wm_example policy_example start_example 0 = Raise IndexError.
Proof.
  assert (Hterm : start_example !! "is_terminal" = Some 0%Z).
  { unfold start_example. rewrite lookup_insert_ne by done.
    by rewrite lookup_insert_eq. }
  split; [done|]. split; [exact Hterm|].
  unfold imagine. rewrite Hterm. reflexivity.
Qed.

(** C6 (amended). When the horizon is at least one, the discount
    [1 - 1/config.horizon] is defined and non-zero,
    the start holds [is_terminal] and every latent key, [img_step] returns
    latent states over those keys and the ["cont"] head returns one value
    per step, [WorldModel.imagine] returns a trajectory with [horizon + 1]
    steps that begins with the real start, with
    [cont[0] = 1 - start["is_terminal"]], [cont[t]] for [t >= 1] the mode of
    the ["cont"] head, and
    [weight[t] = (1 - 1/config.horizon)^t * prod_{s <= t} cont[s]]. *)
Theorem imagine_trajectory {T : Type} (wm : WorldModel T)
        (policy : gmap string T -> T) (start : gmap string T)
        (terminal : T) (horizon : nat) :
  (1 <= horizon)%nat ->
  config_horizon wm <> 0 ->
  config_horizon wm <> 1 ->
  start !! "is_terminal" = Some terminal ->
  (forall k, k ∈ rssm_keys wm -> is_Some (start !! k)) ->
  (forall s a, dom (img_step wm s a) = list_to_set (rssm_keys wm)) ->
  (forall tr : gmap string (list T),
      (forall k v, tr !! k = Some v -> length v = S horizon) ->
      length (cont_head wm tr) = S horizon) ->
  let discount := 1 - 1 / config_horizon wm in
  exists traj,
    imagine wm policy start horizon = Ok traj /\
    dom (traj_state traj) = {["action"]} ∪ list_to_set (rssm_keys wm) /\
    (forall k v, traj_state traj !! k = Some v -> length v = S horizon) /\
    (forall k, k ∈ rssm_keys wm -> k <> "action" ->
       exists v, traj_state traj !! k = Some v /\ v !! 0%nat = start !! k) /\
    length (traj_cont traj) = S horizon /\
    length (traj_weight traj) = S horizon /\
    traj_cont traj !! 0%nat = Some (1 - to_float wm terminal) /\
    (forall t, (1 <= t)%nat ->
       traj_cont traj !! t = cont_head wm (traj_state traj) !! t) /\
    (forall t, (t <= horizon)%nat ->
       nth t (traj_weight traj) 0
       = discount ^ t * prod_list (take (S t) (traj_cont traj))).
Proof.
  intros Hunroll Hh0 Hh1 Hterm Hkeys Himg Hhead discount.
  set (K := list_to_set (rssm_keys wm) : gset string).
  set (startf := filter (fun kv : string * T => kv.1 ∈ rssm_keys wm) start).
  set (start' := <["action" := policy startf]> startf).
  assert (Hdisc : discount <> 0).
  { unfold discount. intros E. apply Hh1.
    assert (1 / config_horizon wm = 1) as E1 by lra.
    apply (f_equal (fun x => x * config_horizon wm)) in E1.
    field_simplify in E1; [lra|exact Hh0]. }
  assert (Hdomf : dom startf = K).
  { apply dom_filter_L. intros k. unfold K. rewrite elem_of_list_to_set.
    split.
    - intros Hk. destruct (Hkeys k Hk) as [x Hx]. by exists x.
    - by intros (x & _ & Hk). }
  assert (Hdom' : dom start' = {["action"]} ∪ K).
  { unfold start'. by rewrite dom_insert_L, Hdomf. }
  destruct (imagine_sequential wm policy Himg (seq 0 horizon) start')
    as (final & outs & Hseq & Hall & Hlen).
  { unfold start'. rewrite lookup_insert_eq. by eexists. }
  rewrite length_seq in Hlen.
  assert (Hall' : Forall (fun o => tree_structure o = tree_structure start') outs).
  { eapply Forall_impl; [exact Hall|]. intros o Ho.
    unfold tree_structure. fold K in Ho. by rewrite Ho, Hdom'. }
  assert (Hscan : scan (imagine_step wm policy) (seq 0 horizon) start'
                       (imag_unroll wm) = Ok (stack_outputs start' outs)).
  { assert (Hins : seq 0 horizon <> []) by (destruct horizon; [lia|done]).
    destruct (imag_unroll wm) eqn:Hu.
    - by eapply scan_unrolled_sequential.
    - by eapply scan_lazy_sequential. }
  set (tstate := map_zip_with (fun s v => s :: v) start'
                              (stack_outputs start' outs)).
  assert (Hlookup : forall k v, tstate !! k = Some v ->
            exists s, start' !! k = Some s /\
              v = s :: omap (fun o : gmap string T => o !! k) outs /\
              length v = S horizon).
  { intros k v Hv. unfold tstate in Hv. rewrite prepend_start_lookup in Hv.
    destruct (start' !! k) as [s|] eqn:Hs; [|done].
    injection Hv as <-. exists s. split; [done|]. split; [done|].
    simpl. f_equal. rewrite omap_lookup_all; [done|].
    eapply Forall_impl; [exact Hall|]. intros o Ho. simpl.
    apply elem_of_dom. fold K in Ho. rewrite Ho, <- Hdom'.
    apply elem_of_dom. by eexists. }
  assert (Hlenhead : length (cont_head wm tstate) = S horizon).
  { apply Hhead. intros k v Hv.
    by destruct (Hlookup k v Hv) as (s & _ & _ & Hl). }
  set (cont := (1 - to_float wm terminal) :: tl (cont_head wm tstate)).
  assert (Hlencont : length cont = S horizon).
  { unfold cont. simpl. rewrite length_tl, Hlenhead. done. }
  exists (mkTrajectory T tstate cont
            (map (fun w => w / discount)
                 (cumprod (map (fun c => discount * c) cont)))).
  split.
  { unfold imagine. rewrite Hterm. fold startf. fold start'.
    rewrite Hscan, bind_Ok, prepend_start_ok, bind_Ok. fold tstate.
    destruct (Req_dec_T (config_horizon wm) 0) as [E|_]; [contradiction|].
    reflexivity. }
  cbn [traj_state traj_cont traj_weight]. split.
  { unfold tstate. rewrite dom_map_zip_with_L, stack_outputs_dom, Hdom'.
    fold K. apply set_eq. intros k. rewrite elem_of_intersection. tauto. }
  split.
  { intros k v Hv. by destruct (Hlookup k v Hv) as (s & _ & _ & Hl). }
  split.
  { intros k Hk Hne. destruct (Hkeys k Hk) as [x Hx].
    assert (Hs : start' !! k = Some x).
    { unfold start'. rewrite lookup_insert_ne by done.
      unfold startf. apply map_lookup_filter_Some. done. }
    eexists. split.
    - unfold tstate. rewrite prepend_start_lookup, Hs. reflexivity.
    - simpl. by rewrite Hx. }
  split; [exact Hlencont|]. split.
  { rewrite length_map. unfold cumprod.
    rewrite cumprod_from_length, length_map. exact Hlencont. }
  split; [done|]. split.
  { intros t Ht. unfold cont. by apply cont_lookup_succ. }
  intros t Ht. apply weight_nth; [exact Hdisc|lia].
Qed.

Lemma imagine_trajectory_witness :
  exists traj,
    imagine wm_example policy_example start_example 1 = Ok traj /\
    length (traj_cont traj) = 2%nat.
Proof.
  destruct (imagine_trajectory wm_example policy_example start_example 0%Z 1)
    as (traj & Hok & _ & _ & _ & Hlen & _).
  - lia.
  - simpl. lra.
  - simpl. lra.
  - unfold start_example. rewrite lookup_insert_ne by done.
    by rewrite lookup_insert_eq.
  - intros k Hk. simpl in Hk. apply list_elem_of_singleton in Hk as ->.
    unfold start_example. rewrite lookup_insert_eq. by eexists.
  - intros s a. simpl. rewrite dom_singleton_L. set_solver.
  - intros tr _. reflexivity.
  - exists traj. split; assumption.
Defined.

(** ** Slow updates: [polyak_averaging] and [SlowUpdater] *)

Lemma blend_ok mix s d :
  length s = length d ->
  blend mix s d = Ok (zip_with (fun x y => mix * x + (1 - mix) * y) s d).
Proof. apply ew2_zip_with. Qed.

Lemma polyak_entry_ok mix (dst : gmap string param) k v d :
  dst !! k = Some d -> same_shape v d ->
  polyak_entry mix dst k v = Ok (<[k := blended mix v d]> dst).
Proof.
  intros Hd Hshape. unfold polyak_entry.
  destruct v as [s|w b|e]; destruct d as [s'|w' b'|e']; simpl in Hshape;
    try contradiction; rewrite ?Hd.
  - rewrite blend_ok by done. reflexivity.
  - destruct Hshape as [Hw Hb]. rewrite !blend_ok by done. reflexivity.
  - by rewrite insert_id.
  - by rewrite insert_id.
  - by rewrite insert_id.
Qed.

Lemma polyak_fold mix (l : list (string * param)) (dst : gmap string param) :
  NoDup l.*1 ->
  (forall k v, (k, v) ∈ l -> exists d, dst !! k = Some d /\ same_shape v d) ->
  exists dst',
    foldl (fun acc kv => d ← acc; polyak_entry mix d kv.1 kv.2) (Ok dst) l
    = Ok dst' /\
    (forall k v d, (k, v) ∈ l -> dst !! k = Some d ->
                   dst' !! k = Some (blended mix v d)) /\
    (forall k, k ∉ l.*1 -> dst' !! k = dst !! k).
Proof.
  revert dst. induction l as [|[k0 v0] l IH]; intros dst Hnd Hshape.
  - exists dst. split; [done|]. split; [|done].
    intros k v d Hin. by apply elem_of_nil in Hin.
  - simpl in Hnd. apply NoDup_cons in Hnd as [Hk0 Hnd].
    destruct (Hshape k0 v0) as (d0 & Hd0 & Hs0); [by left|].
    set (dst1 := <[k0 := blended mix v0 d0]> dst).
    destruct (IH dst1 Hnd) as (dst' & Hfold & Hin' & Hout').
    { intros k v Hin. destruct (Hshape k v) as (d & Hd & Hs); [by right|].
      exists d. split; [|done]. unfold dst1.
      rewrite lookup_insert_ne; [done|]. intros ->. apply Hk0.
      apply list_elem_of_fmap. by exists (k, v). }
    exists dst'. split.
    { simpl. rewrite (polyak_entry_ok mix dst k0 v0 d0 Hd0 Hs0).
      exact Hfold. }
    split.
    + intros k v d Hin Hd. apply elem_of_cons in Hin as [[= -> ->]|Hin].
      * rewrite Hout' by done. unfold dst1. rewrite lookup_insert_eq.
        congruence.
      * apply (Hin' k v d Hin). unfold dst1.
        rewrite lookup_insert_ne; [done|]. intros ->. apply Hk0.
        apply list_elem_of_fmap. by exists (k, v).
    + intros k Hk. simpl in Hk. apply not_elem_of_cons in Hk as [Hne Hk].
      rewrite Hout' by done. unfold dst1. by rewrite lookup_insert_ne.
Qed.

Lemma polyak_averaging_spec mix (src dst : gmap string param) :
  (forall k v, src !! k = Some v -> exists d, dst !! k = Some d /\ same_shape v d) ->
  exists dst',
    polyak_averaging src dst mix = Ok dst' /\
    forall k, dst' !! k
              = match src !! k, dst !! k with
                | Some v, Some d => Some (blended mix v d)
                | _, od => od
                end.
Proof.
  intros Hshape. unfold polyak_averaging.
  destruct (polyak_fold mix (map_to_list src) dst) as (dst' & Hfold & Hin & Hout).
  { apply NoDup_fst_map_to_list. }
  { intros k v Hkv. apply Hshape. by apply elem_of_map_to_list. }
  exists dst'. split; [exact Hfold|]. intros k.
  destruct (src !! k) as [v|] eqn:Hsrc.
  - destruct (Hshape k v Hsrc) as (d & Hd & _). rewrite Hd.
    apply Hin; [|done]. by apply elem_of_map_to_list.
  - apply Hout. intros Hk. apply list_elem_of_fmap in Hk as ([k' v] & -> & Hkv).
    apply elem_of_map_to_list in Hkv. simpl in Hsrc. congruence.
Qed.

Lemma zip_with_mix_one (s d : list R) :
  length s = length d ->
  zip_with (fun x y => 1 * x + (1 - 1) * y) s d = s.
Proof.
  revert d. induction s as [|x s IH]; intros [|y d] Hlen; simpl in *;
    try discriminate; [done|].
  rewrite IH by lia. f_equal. ring.
Qed.

Lemma zip_with_mix_zero (s d : list R) :
  length s = length d ->
  zip_with (fun x y => 0 * x + (1 - 0) * y) s d = d.
Proof.
  revert d. induction s as [|x s IH]; intros [|y d] Hlen; simpl in *;
    try discriminate; [done|].
  rewrite IH by lia. f_equal. ring.
Qed.

Lemma blended_one v d :
  same_shape v d -> (forall e, v <> EquivariantModule e) -> blended 1 v d = v.
Proof.
  intros Hs Hne. destruct v as [s|w b|e]; destruct d as [s'|w' b'|e'];
    simpl in Hs; try contradiction; simpl;
    try (exfalso; by eapply Hne).
  - by rewrite zip_with_mix_one.
  - destruct Hs. by rewrite !zip_with_mix_one.
Qed.

Lemma blended_zero v d : same_shape v d -> blended 0 v d = d.
Proof.
  intros Hs. destruct v as [s|w b|e]; destruct d as [s'|w' b'|e'];
    simpl in Hs; try contradiction; simpl; try done.
  - by rewrite zip_with_mix_zero.
  - destruct Hs. by rewrite !zip_with_mix_zero.
Qed.

Lemma clip_unit x : 0 <= x <= 1 -> clip x 0 1 = x.
Proof.
  intros Hx. unfold clip. rewrite Rmax_right by lra. rewrite Rmin_right; lra.
Qed.

Lemma clip_above x : 1 <= x -> clip x 0 1 = 1.
Proof.
  intros Hx. unfold clip. rewrite Rmax_right by lra. rewrite Rmin_left; lra.
Qed.

Lemma wrap32_id z : int32_range z -> wrap32 z = z.
Proof.
  unfold int32_range, wrap32. intros Hz.
  rewrite Z.mod_small by lia. lia.
Qed.

Lemma int32_rem_nonzero x p : p <> 0%Z -> int32_rem x p = (x mod p)%Z.
Proof.
  intros Hp. unfold int32_rem.
  destruct (Z.eqb_spec p 0) as [E|_]; [contradiction|reflexivity].
Qed.

(** C5 (as stated) fails: a source entry that is an equivariant module other
    than [R2Conv] is skipped by [polyak_averaging], so the first call does not
    copy it into the destination. *)
Lemma slow_updater_call_counterexample :
  SlowUpdater_call su_example src_equivariant dst_equivariant 0
  = Ok (dst_equivariant, 1%Z) /\
  dst_equivariant !! "linear" <> src_equivariant !! "linear".
Proof.
  split.
  - unfold SlowUpdater_call.
    rewrite bool_decide_eq_false_2 by apply map_non_empty_singleton.
    unfold renamed_source, src_equivariant. rewrite map_to_list_singleton.
    simpl. rewrite insert_empty. unfold polyak_averaging.
    rewrite map_to_list_singleton. reflexivity.
  - unfold dst_equivariant, src_equivariant. rewrite !lookup_singleton_eq.
    intros [= H]. lra.
Qed.

(** C5 (amended). For a [SlowUpdater] with fraction [0 <= f <= 1] and a
    non-zero period [p], a source module that has parameters, and a
    destination that holds
    every (renamed) source entry with the same kind and shapes: the call
    succeeds and increments the counter by one in [int32] arithmetic; entries
    absent from the source, and source entries that are equivariant modules
    other than [R2Conv], are left unchanged; for the other entries (array
    pytrees and [R2Conv] weights and biases) the call at counter zero copies
    the source ([mix = 1]), a later call at a counter that is a multiple of
    [p] blends [dst <- f * src + (1 - f) * dst], and a call at any other
    counter leaves the destination unchanged ([mix = 0]). *)
Theorem slow_updater_call (su : SlowUpdater) (src dst : gmap string param)
        (updates : Z) :
  0 <= fraction su <= 1 ->
  period su <> 0%Z ->
  src <> ∅ ->
  (forall k v, renamed_source su src !! k = Some v ->
               exists d, dst !! k = Some d /\ same_shape v d) ->
  exists dst',
    SlowUpdater_call su src dst updates = Ok (dst', wrap32 (updates + 1)) /\
    (int32_range updates -> updates <> (2 ^ 31 - 1)%Z ->
     wrap32 (updates + 1) = (updates + 1)%Z) /\
    (forall k, renamed_source su src !! k = None -> dst' !! k = dst !! k) /\
    (forall k e, renamed_source su src !! k = Some (EquivariantModule e) ->
                 dst' !! k = dst !! k) /\
    (updates = 0%Z ->
     forall k v, renamed_source su src !! k = Some v ->
                 (forall e, v <> EquivariantModule e) ->
                 dst' !! k = Some v) /\
    (updates <> 0%Z -> (updates mod period su = 0)%Z ->
     forall k v d, renamed_source su src !! k = Some v -> dst !! k = Some d ->
                   dst' !! k = Some (blended (fraction su) v d)) /\
    ((updates mod period su <> 0)%Z -> dst' = dst).
Proof.
  intros Hf Hperiod Hsrc Hshape.
  set (mix := clip (1 * b2r (updates =? 0)%Z
                    + fraction su * b2r (updates mod period su =? 0)%Z) 0 1).
  destruct (polyak_averaging_spec mix (renamed_source su src) dst Hshape)
    as (dst' & Hpolyak & Hl).
  exists dst'. split.
  { unfold SlowUpdater_call. rewrite bool_decide_eq_false_2 by done.
    rewrite (int32_rem_nonzero updates (period su) Hperiod).
    fold mix. rewrite Hpolyak. reflexivity. }
  split.
  { intros Hr Hmax. apply wrap32_id. unfold int32_range in *. lia. }
  split.
  { intros k Hk. by rewrite Hl, Hk. }
  split.
  { intros k e Hk. rewrite Hl, Hk. by destruct (dst !! k). }
  split.
  { intros -> k v Hk Hne.
    assert (Hmix : mix = 1).
    { unfold mix. rewrite Zmod_0_l. change (0 =? 0)%Z with true.
      unfold b2r. apply clip_above. lra. }
    destruct (Hshape k v Hk) as (d & Hd & Hs).
    rewrite Hl, Hk, Hd, Hmix. f_equal. by apply blended_one. }
  split.
  { intros Hne Hmod k v d Hk Hd.
    assert (Hmix : mix = fraction su).
    { unfold mix. rewrite Hmod.
      destruct (updates =? 0)%Z eqn:E; [apply Z.eqb_eq in E; done|].
      change (0 =? 0)%Z with true. unfold b2r.
      replace (1 * 0 + fraction su * 1) with (fraction su) by ring.
      by apply clip_unit. }
    by rewrite Hl, Hk, Hd, Hmix. }
  intros Hmod.
  assert (Hmix : mix = 0).
  { unfold mix.
    destruct (updates =? 0)%Z eqn:E.
    { apply Z.eqb_eq in E. subst. by rewrite Zmod_0_l in Hmod. }
    destruct (updates mod period su =? 0)%Z eqn:E'.
    { apply Z.eqb_eq in E'. done. }
    unfold b2r. replace (1 * 0 + fraction su * 0) with 0 by ring.
    apply clip_unit. lra. }
  apply map_eq. intros k. rewrite Hl, Hmix.
  destruct (renamed_source su src !! k) as [v|] eqn:Hk; [|done].
  destruct (Hshape k v Hk) as (d & Hd & Hs). rewrite Hd.
  f_equal. by apply blended_zero.
Qed.

Lemma slow_updater_call_witness :
  exists dst',
    SlowUpdater_call su_example src_tree dst_tree 0 = Ok (dst', 1%Z) /\
    dst' !! "w" = Some (Tree [1]).
Proof.
  assert (Hsrc : renamed_source su_example src_tree = src_tree).
  { unfold renamed_source, src_tree. rewrite map_to_list_singleton.
    simpl. by rewrite insert_empty. }
  destruct (slow_updater_call su_example src_tree dst_tree 0)
    as (dst' & Hcall & _ & _ & _ & Hinit & _).
  - simpl. lra.
  - done.
  - apply map_non_empty_singleton.
  - rewrite Hsrc. intros k v Hk. unfold src_tree in Hk.
    apply lookup_singleton_Some in Hk as [<- <-].
    exists (Tree [0]). unfold dst_tree. rewrite lookup_singleton_eq.
    split; reflexivity.
  - exists dst'. split; [exact Hcall|].
    apply (Hinit eq_refl "w" (Tree [1])); [|discriminate].
    rewrite Hsrc. unfold src_tree. by rewrite lookup_singleton_eq.
Defined.

(** ** The optimizer wrapper *)

Lemma forallb_isfinite_fmap (f : fnum -> fnum) (l : list fnum) :
  (forall x, isfinite (f x) = isfinite x) ->
  forallb isfinite (f <$> l) = forallb isfinite l.
Proof.
  intros Hf. induction l as [|x l IH]; [done|].
  cbn. by rewrite Hf, <- IH.
Qed.

Lemma all_finite_spec (g : gmap string (list fnum)) :
  all_finite g = true <->
  forall k l, g !! k = Some l -> forallb isfinite l = true.
Proof.
  unfold all_finite. rewrite forallb_forall. split.
  - intros H k l Hk. apply (H (k, l)).
    apply list_elem_of_In. by apply elem_of_map_to_list.
  - intros H [k l] Hin. apply list_elem_of_In, elem_of_map_to_list in Hin.
    simpl. by eapply H.
Qed.

Lemma all_finite_fmap (f : fnum -> fnum) (g : gmap string (list fnum)) :
  (forall x, isfinite (f x) = isfinite x) ->
  all_finite ((fun l : list fnum => f <$> l) <$> g) = all_finite g.
Proof.
  intros Hf. apply Bool.eq_iff_eq_true. rewrite !all_finite_spec. split.
  - intros H k l Hk. rewrite <- (forallb_isfinite_fmap f l Hf).
    apply (H k). by rewrite lookup_fmap, Hk.
  - intros H k l Hk. rewrite lookup_fmap in Hk.
    destruct (g !! k) as [l0|] eqn:Hg; [|done]. injection Hk as <-.
    rewrite (forallb_isfinite_fmap f l0 Hf). by eapply H.
Qed.

Lemma all_finite_unscale {S} cfg (st : OptimizerState S) g :
  all_finite (unscale cfg st g) = all_finite g.
Proof.
  unfold unscale. destruct (scaling cfg); [|done].
  apply all_finite_fmap. by intros [r|].
Qed.

Lemma freeze_prototypes_lookup cfg step (g : gmap string (list fnum)) k :
  freeze_prototypes cfg step g !! k
  = if decide (k = prototypes)
    then (fun l : list fnum =>
            if (step <? py_int (freeze cfg))%Z
            then (fun x => fscale x 0) <$> l else l) <$> g !! k
    else g !! k.
Proof.
  unfold freeze_prototypes. destruct (decide (k = prototypes)) as [->|Hne].
  - destruct (g !! prototypes) as [l|] eqn:Hl.
    + by rewrite lookup_insert_eq.
    + by rewrite Hl.
  - destruct (g !! prototypes) as [l|]; [|done].
    by rewrite lookup_insert_ne.
Qed.

Lemma all_finite_freeze cfg step (g : gmap string (list fnum)) :
  all_finite (freeze_prototypes cfg step g) = all_finite g.
Proof.
  assert (Hsame : forall l : list fnum,
             forallb isfinite
               (if (step <? py_int (freeze cfg))%Z
                then (fun x => fscale x 0) <$> l else l)
             = forallb isfinite l).
  { intros l. destruct (step <? py_int (freeze cfg))%Z; [|done].
    apply forallb_isfinite_fmap. by intros [r|]. }
  apply Bool.eq_iff_eq_true. rewrite !all_finite_spec. split.
  - intros H k l Hk. specialize (H k). rewrite freeze_prototypes_lookup in H.
    destruct (decide (k = prototypes)); [|by apply H].
    rewrite Hk in H. simpl in H. rewrite <- Hsame. by apply H.
  - intros H k l Hk. rewrite freeze_prototypes_lookup in Hk.
    destruct (decide (k = prototypes)); [|by eapply H].
    destruct (g !! k) as [l0|] eqn:Hg; [|done]. injection Hk as <-.
    rewrite Hsame. by eapply H.
Qed.

Lemma isfinite_sum (l : list fnum) :
  isfinite (foldr fadd (Fin 0) l) = forallb isfinite l.
Proof.
  induction l as [|x l IH]; [done|].
  simpl. destruct x as [r|]; [|done].
  simpl. rewrite <- IH. by destruct (foldr fadd (Fin 0) l).
Qed.

Lemma forallb_squares (kvs : list (string * list fnum)) :
  forallb isfinite
          (kvs ≫= fun kv : string * list fnum => (fun x => fmul x x) <$> kv.2)
  = forallb (fun kv : string * list fnum => forallb isfinite kv.2) kvs.
Proof.
  induction kvs as [|[k l] kvs IH]; [done|].
  cbn. rewrite forallb_app, IH. f_equal.
  apply forallb_isfinite_fmap. by intros [r|].
Qed.

Lemma isfinite_global_norm (g : gmap string (list fnum)) :
  isfinite (global_norm g) = all_finite g.
Proof.
  unfold global_norm, all_finite. rewrite <- forallb_squares, <- isfinite_sum.
  by destruct (foldr fadd (Fin 0) _).
Qed.

Lemma zip_with_fadd_zeros (p l : list fnum) :
  length p = length l ->
  zip_with fadd p ((fun _ => Fin 0) <$> l) = p.
Proof.
  revert l. induction p as [|x p IH]; intros [|y l] Hlen; simpl in *;
    try discriminate; [done|].
  rewrite IH by lia. f_equal. destruct x as [r|]; [|done].
  simpl. f_equal. ring.
Qed.

Lemma apply_updates_zeros (params g : gmap string (list fnum)) :
  (forall k p l, params !! k = Some p -> g !! k = Some l ->
                 length p = length l) ->
  apply_updates params (zeros_like g) = params.
Proof.
  intros Hshape. apply map_eq. intros k. unfold apply_updates, zeros_like.
  rewrite lookup_union, map_lookup_zip_with, lookup_fmap.
  destruct (params !! k) as [p|] eqn:Hp; [|done].
  destruct (g !! k) as [l|] eqn:Hl; [|done].
  simpl. by rewrite (zip_with_fadd_zeros p l (Hshape k p l Hp Hl)).
Qed.

Lemma clip_bounds x lo hi : lo <= hi -> lo <= clip x lo hi <= hi.
Proof.
  intros Hle. unfold clip. split.
  - apply Rmin_glb; [lra|apply Rmax_l].
  - apply Rmin_l.
Qed.

Lemma clip_id x lo hi : lo <= x <= hi -> clip x lo hi = x.
Proof.
  intros Hx. unfold clip. rewrite Rmax_right by lra. rewrite Rmin_right; lra.
Qed.

Lemma wrap32_range z : int32_range (wrap32 z).
Proof.
  unfold int32_range, wrap32.
  pose proof (Z.mod_pos_bound (z + 2 ^ 31) (2 ^ 32) ltac:(lia)). lia.
Qed.

Lemma wrap32_idem z : wrap32 (wrap32 z) = wrap32 z.
Proof. apply wrap32_id, wrap32_range. Qed.

Lemma all_finite_grads_finite : all_finite grads_finite = true.
Proof. unfold all_finite, grads_finite. by rewrite map_to_list_singleton. Qed.

Lemma all_finite_grads_nonfinite : all_finite grads_nonfinite = false.
Proof. unfold all_finite, grads_nonfinite. by rewrite map_to_list_singleton. Qed.

Lemma update_scale_cases {S} (st : OptimizerState S) grads :
  let gs := grad_scale st in
  let st' := (update_scale grads st).1 in
  (all_finite grads = false ->
   grad_scale st' = clip (gs / 2) (1 / 10000) 10000 /\ good_steps st' = 0%Z) /\
  (all_finite grads = true -> (1000 <= good_steps st)%Z ->
   grad_scale st' = clip (gs * 2) (1 / 10000) 10000 /\ good_steps st' = 0%Z) /\
  (all_finite grads = true -> (good_steps st < 1000)%Z ->
   grad_scale st' = clip gs (1 / 10000) 10000 /\
   good_steps st' = wrap32 (good_steps st + 1)).
Proof.
  intros gs st'. unfold st', update_scale. cbn [fst grad_scale good_steps].
  fold gs. split; [|split].
  - intros ->. cbn [andb negb b2r b2z]. split.
    + unfold gs. f_equal. lra.
    + by rewrite Z.mul_0_l.
  - intros -> Hge.
    assert ((good_steps st <? 1000)%Z = false) as -> by lia.
    assert ((1000 <=? good_steps st)%Z = true) as -> by lia.
    cbn [andb negb b2r b2z]. split.
    + unfold gs. f_equal. lra.
    + by rewrite Z.mul_0_l.
  - intros -> Hlt.
    assert ((good_steps st <? 1000)%Z = true) as -> by lia.
    assert ((1000 <=? good_steps st)%Z = false) as -> by lia.
    cbn [andb negb b2r b2z]. split.
    + unfold gs. f_equal. lra.
    + by rewrite Z.mul_1_l, wrap32_idem.
Qed.

(** C3 (as stated) fails: at the initial scale [1e4], after 1000 good steps
    and a finite gradient, the doubled scale is clamped back to [1e4]. *)
Lemma update_scale_counterexample :
  all_finite grads_finite = true /\
  grad_scale st_good1000 = 10000 /\
  good_steps st_good1000 = 1000%Z /\
  grad_scale (update_scale grads_finite st_good1000).1 = 10000 /\
  grad_scale (update_scale grads_finite st_good1000).1
  <> 2 * grad_scale st_good1000.
Proof.
  destruct (update_scale_cases st_good1000 grads_finite) as (_ & Hincr & _).
  destruct (Hincr all_finite_grads_finite) as [Hscale _]; [simpl; lia|].
  assert (Hval : grad_scale (update_scale grads_finite st_good1000).1 = 10000).
  { rewrite Hscale. simpl. unfold clip.
    rewrite Rmax_right by lra. rewrite Rmin_left by lra. reflexivity. }
  split; [exact all_finite_grads_finite|]. split; [reflexivity|].
  split; [reflexivity|]. split; [exact Hval|].
  rewrite Hval. simpl. lra.
Qed.

Lemma optimizer_grads_length {S} cfg (st : OptimizerState S) step
      (grads : gmap string (list fnum)) k l2 :
  freeze_prototypes cfg step (unscale cfg st grads) !! k = Some l2 ->
  exists l, grads !! k = Some l /\ length l2 = length l.
Proof.
  rewrite freeze_prototypes_lookup.
  assert (Hun : forall l', unscale cfg st grads !! k = Some l' ->
                  exists l, grads !! k = Some l /\ length l' = length l).
  { unfold unscale. destruct (scaling cfg).
    - intros l'. rewrite lookup_fmap.
      destruct (grads !! k) as [l|]; [|done]. intros [= <-].
      exists l. by rewrite length_fmap.
    - intros l' Hl'. by exists l'. }
  destruct (decide (k = prototypes)); [|apply Hun].
  destruct (unscale cfg st grads !! k) as [l'|] eqn:Hl'; [|done].
  intros [= <-]. destruct (Hun l' eq_refl) as (l & Hl & Hlen).
  exists l. split; [done|].
  destruct (step <? py_int (freeze cfg))%Z; [|done].
  by rewrite length_fmap.
Qed.

Lemma apply_if_finite_rejects {S} (inner : GradientTransformation S)
      (g params : gmap string (list fnum)) (s : ApplyIfFiniteState S) :
  all_finite g = false -> (notfinite_count s < 1000)%Z ->
  (gt_update (apply_if_finite inner 1000) g s params).1 = zeros_like g.
Proof.
  intros Hg Hcount. cbn [apply_if_finite gt_update fst]. rewrite Hg.
  cbn [orb]. unfold safe_int32_increment.
  assert ((notfinite_count s <? 2 ^ 31 - 1)%Z = true) as -> by lia.
  assert ((1000 <? notfinite_count s + 1)%Z = false) as -> by lia.
  reflexivity.
Qed.

Lemma optimizer_skip {S} cfg (inner : GradientTransformation S)
      (st : OptimizerState S) loss (params grads : gmap string (list fnum)) :
  scaling cfg = true ->
  all_finite grads = false ->
  match state st with
  | Some s => (notfinite_count s < 1000)%Z
  | None => True
  end ->
  (forall k p l, params !! k = Some p -> grads !! k = Some l ->
                 length p = length l) ->
  (Optimizer_call cfg inner st loss params grads).1.2 = params.
Proof.
  intros Hscaling Hfin Hcount Hshape.
  unfold Optimizer_call, Optimizer_opt. rewrite Hscaling.
  cbn [fst snd]. cbn [update_scale fst snd state step].
  set (g2 := freeze_prototypes cfg (step st) (unscale cfg st grads)).
  assert (Hg2 : all_finite g2 = false).
  { unfold g2. by rewrite all_finite_freeze, all_finite_unscale. }
  rewrite apply_if_finite_rejects; [| exact Hg2 |].
  - apply apply_updates_zeros. intros k p l2 Hp Hl2.
    destruct (optimizer_grads_length cfg st (step st) grads k l2 Hl2)
      as (l & Hl & Hlen).
    rewrite Hlen. by eapply Hshape.
  - destruct (state st) as [s|]; [exact Hcount|]. simpl. lia.
Qed.

(** C3 (amended). [Optimizer._update_scale] halves [grad_scale] on a
    non-finite gradient, doubles it on a finite gradient once the counter of
    consecutive good steps has reached 1000 (resetting the counter in both
    cases), and otherwise keeps it and increments the counter, each time
    clamped to [[1e-4, 1e4]]: the new scale always lies in that interval, and
    it is exactly the halved, doubled or kept scale whenever that value lies
    in the interval.  Under mixed precision a call with a non-finite gradient
    leaves the parameters unchanged as long as fewer than 1000 consecutive
    non-finite updates preceded it. *)
Theorem update_scale_clamped {S : Type} (cfg : OptimizerConfig)
        (inner : GradientTransformation S) (st : OptimizerState S)
        (loss : R) (params grads : gmap string (list fnum)) :
  let gs := grad_scale st in
  let st' := (update_scale grads st).1 in
  (update_scale grads st).2 = all_finite grads /\
  (all_finite grads = false ->
   grad_scale st' = clip (gs / 2) (1 / 10000) 10000 /\
   good_steps st' = 0%Z /\
   (2 / 10000 <= gs <= 20000 -> grad_scale st' = gs / 2)) /\
  (all_finite grads = true -> (1000 <= good_steps st)%Z ->
   grad_scale st' = clip (gs * 2) (1 / 10000) 10000 /\
   good_steps st' = 0%Z /\
   (1 / 20000 <= gs <= 5000 -> grad_scale st' = gs * 2)) /\
  (all_finite grads = true -> (good_steps st < 1000)%Z ->
   grad_scale st' = clip gs (1 / 10000) 10000 /\
   good_steps st' = wrap32 (good_steps st + 1) /\
   (1 / 10000 <= gs <= 10000 -> grad_scale st' = gs) /\
   (int32_range (good_steps st) -> good_steps st' = (good_steps st + 1)%Z)) /\
  1 / 10000 <= grad_scale st' <= 10000 /\
  (scaling cfg = true ->
   all_finite grads = false ->
   match state st with
   | Some s => (notfinite_count s < 1000)%Z
   | None => True
   end ->
   (forall k p l, params !! k = Some p -> grads !! k = Some l ->
                  length p = length l) ->
   (Optimizer_call cfg inner st loss params grads).1.2 = params).
Proof.
  intros gs st'.
  destruct (update_scale_cases st grads) as (Hdecr & Hincr & Hkeep).
  fold gs in Hdecr, Hincr, Hkeep. fold st' in Hdecr, Hincr, Hkeep.
  split; [reflexivity|]. split; [|split; [|split; [|split]]].
  - intros Hfin. destruct (Hdecr Hfin) as [Hs Hg].
    split; [exact Hs|]. split; [exact Hg|].
    intros Hrange. rewrite Hs. apply clip_id. lra.
  - intros Hfin Hge. destruct (Hincr Hfin Hge) as [Hs Hg].
    split; [exact Hs|]. split; [exact Hg|].
    intros Hrange. rewrite Hs. apply clip_id. lra.
  - intros Hfin Hlt. destruct (Hkeep Hfin Hlt) as [Hs Hg].
    split; [exact Hs|]. split; [exact Hg|]. split.
    + intros Hrange. rewrite Hs. by apply clip_id.
    + intros Hr. rewrite Hg. apply wrap32_id.
      unfold int32_range in *. lia.
  - unfold st', update_scale. cbn [fst grad_scale].
    apply clip_bounds. lra.
  - apply optimizer_skip.
Qed.

Lemma update_scale_clamped_witness :
  grad_scale (update_scale grads_nonfinite (Optimizer_init unit)).1 = 10000 / 2 /\
  (Optimizer_call cfg_float16 (sgd 1) (Optimizer_init unit) 0
                  params_example grads_nonfinite).1.2 = params_example.
Proof.
  destruct (update_scale_clamped cfg_float16 (sgd 1) (Optimizer_init unit) 0
              params_example grads_nonfinite)
    as (_ & Hdecr & _ & _ & _ & Hskip).
  split.
  - destruct (Hdecr all_finite_grads_nonfinite) as (_ & _ & Hhalf).
    apply Hhalf. simpl. lra.
  - apply Hskip.
    + reflexivity.
    + exact all_finite_grads_nonfinite.
    + exact I.
    + intros k p l Hp Hl. unfold params_example in Hp.
      unfold grads_nonfinite in Hl.
      apply lookup_singleton_Some in Hp as [<- <-].
      apply lookup_singleton_Some in Hl as [_ <-]. reflexivity.
Defined.

Lemma optimizer_call_norm {S} cfg (inner : GradientTransformation S)
      (st : OptimizerState S) loss (params grads : gmap string (list fnum)) :
  isfinite (metric_grad_norm (Optimizer_call cfg inner st loss params grads).2)
  = all_finite grads.
Proof.
  unfold Optimizer_call. cbn [snd metric_grad_norm].
  set (g2 := freeze_prototypes cfg _ (unscale cfg st grads)).
  assert (Hn : isfinite (global_norm g2) = all_finite grads).
  { unfold g2. by rewrite isfinite_global_norm, all_finite_freeze,
      all_finite_unscale. }
  destruct (scaling cfg); [|exact Hn].
  destruct (isfinite (global_norm g2)) eqn:E; [by rewrite E|by rewrite <- Hn].
Qed.

Lemma optimizer_call_step {S} cfg (inner : GradientTransformation S)
      (st : OptimizerState S) loss (params grads : gmap string (list fnum)) :
  step (Optimizer_call cfg inner st loss params grads).1.1
  = wrap32 (step st + b2z (all_finite grads)) /\
  metric_grad_steps (Optimizer_call cfg inner st loss params grads).2
  = step (Optimizer_call cfg inner st loss params grads).1.1.
Proof.
  pose proof (optimizer_call_norm cfg inner st loss params grads) as Hn.
  unfold Optimizer_call in *. cbn [fst snd step metric_grad_norm] in *.
  cbn [metric_grad_steps]. rewrite Hn. split; [|reflexivity].
  by destruct (scaling cfg).
Qed.

(** C4 (as stated) fails: under mixed precision a call with a non-finite
    gradient leaves the step counter where it was. *)
Lemma optimizer_step_counter_counterexample :
  scaling cfg_float16 = true /\
  all_finite grads_nonfinite = false /\
  step (Optimizer_call cfg_float16 (sgd 1) (Optimizer_init unit) 0
                       params_example grads_nonfinite).1.1
  = step (Optimizer_init unit) /\
  step (Optimizer_call cfg_float16 (sgd 1) (Optimizer_init unit) 0
                       params_example grads_nonfinite).1.1
  <> (step (Optimizer_init unit) + 1)%Z.
Proof.
  destruct (optimizer_call_step cfg_float16 (sgd 1) (Optimizer_init unit) 0
              params_example grads_nonfinite) as [Hstep _].
  rewrite all_finite_grads_nonfinite in Hstep.
  change (wrap32 (step (Optimizer_init unit) + b2z false)) with 0%Z in Hstep.
  split; [reflexivity|]. split; [exact all_finite_grads_nonfinite|].
  rewrite Hstep. split; [reflexivity|]. simpl. lia.
Qed.

(** C4 (amended). [Optimizer.__call__] adds [isfinite(norm)] to the step
    counter: the counter is incremented (in [int32] arithmetic) when the
    global norm of the gradient is finite, and it is left unchanged when the
    gradient is non-finite; in that case, under mixed precision and with
    fewer than 1000 consecutive non-finite updates before, the parameter
    update is skipped as well. *)
Theorem optimizer_step_counter {S : Type} (cfg : OptimizerConfig)
        (inner : GradientTransformation S) (st : OptimizerState S)
        (loss : R) (params grads : gmap string (list fnum)) :
  let r := Optimizer_call cfg inner st loss params grads in
  isfinite (metric_grad_norm r.2) = all_finite grads /\
  metric_grad_steps r.2 = step r.1.1 /\
  (all_finite grads = true ->
   step r.1.1 = wrap32 (step st + 1) /\
   (int32_range (step st) -> step st <> (2 ^ 31 - 1)%Z ->
    step r.1.1 = (step st + 1)%Z)) /\
  (all_finite grads = false ->
   step r.1.1 = wrap32 (step st) /\
   (int32_range (step st) -> step r.1.1 = step st)) /\
  (scaling cfg = true ->
   all_finite grads = false ->
   match state st with
   | Some s => (notfinite_count s < 1000)%Z
   | None => True
   end ->
   (forall k p l, params !! k = Some p -> grads !! k = Some l ->
                  length p = length l) ->
   r.1.2 = params).
Proof.
  intros r. subst r.
  destruct (optimizer_call_step cfg inner st loss params grads)
    as [Hstep Hmetric].
  split; [apply optimizer_call_norm|]. split; [exact Hmetric|].
  split; [|split].
  - intros Hfin. rewrite Hfin in Hstep. cbn [b2z] in Hstep.
    split; [exact Hstep|]. intros Hr Hmax. rewrite Hstep.
    apply wrap32_id. unfold int32_range in *. lia.
  - intros Hfin. rewrite Hfin in Hstep. cbn [b2z] in Hstep.
    rewrite Z.add_0_r in Hstep.
    split; [exact Hstep|]. intros Hr. rewrite Hstep. by apply wrap32_id.
  - apply optimizer_skip.
Qed.

Lemma optimizer_step_counter_witness :
  step (Optimizer_call cfg_float32 (sgd 1) (Optimizer_init unit) 0
                       params_example grads_finite).1.1 = 1%Z /\
  step (Optimizer_call cfg_float32 (sgd 1) (Optimizer_init unit) 0
                       params_example grads_nonfinite).1.1 = 0%Z.
Proof.
  split.
  - destruct (optimizer_step_counter cfg_float32 (sgd 1) (Optimizer_init unit)
                0 params_example grads_finite) as (_ & _ & Hfin & _).
    destruct (Hfin all_finite_grads_finite) as [_ Hstep].
    apply Hstep; [unfold int32_range; simpl; lia|simpl; lia].
  - destruct (optimizer_step_counter cfg_float32 (sgd 1) (Optimizer_init unit)
                0 params_example grads_nonfinite) as (_ & _ & _ & Hnon & _).
    destruct (Hnon all_finite_grads_nonfinite) as [_ Hstep].
    apply Hstep. unfold int32_range. simpl. lia.
Defined.

Lemma optimizer_call_params {S} cfg (inner : GradientTransformation S)
      (st : OptimizerState S) loss (params grads : gmap string (list fnum)) :
  (Optimizer_call cfg inner st loss params grads).1.2
  = apply_updates params
      (gt_update (Optimizer_opt cfg inner)
                 (freeze_prototypes cfg (step st) (unscale cfg st grads))
                 (match state st with
                  | Some s => s
                  | None => gt_init (Optimizer_opt cfg inner) params
                  end)
                 params).1.
Proof. unfold Optimizer_call. by destruct (scaling cfg). Qed.

Lemma fscale_zero (g : list fnum) :
  forallb isfinite g = true ->
  (fun x => fscale x 0) <$> g = (fun _ => Fin 0) <$> g.
Proof.
  induction g as [|x g IH]; [done|]. cbn.
  destruct x as [r|]; [|done]. intros Hg. cbn in Hg.
  rewrite IH by done. f_equal. simpl. f_equal. ring.
Qed.

(** An inner transformation that answers an all-zero gradient entry with
    that same all-zero update (gradient descent, or Adam while its moments
    for the entry are zero). *)
(** C8. The claim fails on the code for a non-finite gradient: at step 0,
    below [int(freeze)], the carve-out multiplies the prototype gradient by
    [0.0], and a non-finite entry stays non-finite; the entry handed to the
    update is not zero, although the code's comment calls the block a hack to
    freeze the prototypes. *)
Lemma freeze_prototypes_nonfinite :
  (0 < py_int (freeze cfg_float32))%Z /\
  grads_prototypes_nan !! prototypes = Some [NonFin] /\
  freeze_prototypes cfg_float32 0 grads_prototypes_nan !! prototypes
  = Some [NonFin] /\
  freeze_prototypes cfg_float32 0 grads_prototypes_nan !! prototypes
  <> Some [Fin 0].
Proof.
  assert (Hg : grads_prototypes_nan !! prototypes = Some [NonFin]).
  { unfold grads_prototypes_nan. by rewrite lookup_singleton_eq. }
  assert (Hf : freeze_prototypes cfg_float32 0 grads_prototypes_nan
               !! prototypes = Some [NonFin]).
  { rewrite freeze_prototypes_lookup, decide_True by done. by rewrite Hg. }
  split; [done|]. split; [exact Hg|]. split; [exact Hf|].
  rewrite Hf. discriminate.
Qed.

(** X24. The prototype carve-out of [Optimizer.__call__] on finite
    gradients: when the (unscaled) gradient dictionary contains
    ['agent/wm/rssm/prototypes'] and the step counter is strictly below
    [int(freeze)], a finite entry under that key is replaced by zeros of the
    same shape; at or above [int(freeze)] the
    entry is passed through unmodified; all other gradient entries are
    unaffected in either case, and the new parameters are the old ones plus
    the update that the chain computes from the carved-out gradients. *)
Theorem freeze_prototypes_carve_out {S : Type} (cfg : OptimizerConfig)
        (inner : GradientTransformation S) (st : OptimizerState S)
        (loss : R) (params grads : gmap string (list fnum))
        (g : list fnum) :
  let G := unscale cfg st grads in
  let G' := freeze_prototypes cfg (step st) G in
  G !! prototypes = Some g ->
  ((step st < py_int (freeze cfg))%Z -> forallb isfinite g = true ->
   G' !! prototypes = Some ((fun _ => Fin 0) <$> g)) /\
  ((py_int (freeze cfg) <= step st)%Z -> G' !! prototypes = Some g) /\
  (forall k, k <> prototypes -> G' !! k = G !! k) /\
  (Optimizer_call cfg inner st loss params grads).1.2
  = apply_updates params
      (gt_update (Optimizer_opt cfg inner) G'
                 (match state st with
                  | Some s => s
                  | None => gt_init (Optimizer_opt cfg inner) params
                  end)
                 params).1.
Proof.
  intros G G' Hg.
  assert (Hfrozen : (step st < py_int (freeze cfg))%Z ->
                    G' !! prototypes = Some ((fun x => fscale x 0) <$> g)).
  { intros Hlt. unfold G'. rewrite freeze_prototypes_lookup, decide_True by done.
    rewrite Hg. simpl.
    assert ((step st <? py_int (freeze cfg))%Z = true) as -> by lia. done. }
  split; [|split; [|split]].
  - intros Hlt Hfin. rewrite <- fscale_zero by done. by apply Hfrozen.
  - intros Hge. unfold G'. rewrite freeze_prototypes_lookup, decide_True by done.
    rewrite Hg. simpl.
    assert ((step st <? py_int (freeze cfg))%Z = false) as -> by lia. done.
  - intros k Hne. unfold G'.
    by rewrite freeze_prototypes_lookup, decide_False.
  - apply optimizer_call_params.
Qed.

Lemma freeze_prototypes_carve_out_witness :
  freeze_prototypes cfg_float32 (step (Optimizer_init unit))
                    (unscale cfg_float32 (Optimizer_init unit) grads_prototypes)
    !! prototypes
  = Some ((fun _ => Fin 0) <$> [Fin 2]).
Proof.
  destruct (freeze_prototypes_carve_out cfg_float32 (sgd 1)
              (Optimizer_init unit) 0 params_prototypes grads_prototypes
              [Fin 2]) as (Hfreeze & _).
  - change (grads_prototypes !! prototypes = Some [Fin 2]).
    unfold grads_prototypes. by rewrite lookup_singleton_eq.
  - by apply Hfreeze.
Defined.

(* ================================================================== *)
(** * Further properties of the code *)
(* ================================================================== *)

(** ** [symlog] and [symexp] as order-preserving transforms *)

Lemma symlog_nonneg x : 0 <= x -> symlog x = ln (1 + x).
Proof.
  intros Hx. unfold symlog. destruct (Req_dec x 0) as [->|Hne].
  - rewrite sign_zero, Rabs_R0, Rplus_0_r, ln_1. ring.
  - rewrite sign_pos by lra. rewrite Rabs_right by lra. ring.
Qed.

Lemma symlog_negative x : x < 0 -> symlog x = - ln (1 - x).
Proof.
  intros Hx. unfold symlog. rewrite sign_neg by lra.
  rewrite Rabs_left by lra. unfold Rminus. ring.
Qed.

Lemma ln_1p_le t : 0 <= t -> 0 <= ln (1 + t) <= t.
Proof.
  intros Ht. destruct (Req_dec t 0) as [->|Hne].
  - rewrite Rplus_0_r, ln_1. lra.
  - pose proof (ln_1p_pos t ltac:(lra)) as Hpos.
    pose proof (exp_ineq1 t ltac:(lra)) as Hexp.
    assert (ln (1 + t) < ln (exp t)) as Hlt by (apply ln_increasing; lra).
    rewrite ln_exp in Hlt. lra.
Qed.

Lemma symlog_lt x y : x < y -> symlog x < symlog y.
Proof.
  intros Hxy. destruct (Rlt_dec x 0) as [Hx|Hx]; destruct (Rlt_dec y 0) as [Hy|Hy].
  - rewrite !symlog_negative by lra.
    assert (ln (1 - y) < ln (1 - x)) by (apply ln_increasing; lra). lra.
  - rewrite (symlog_negative x) by lra. rewrite (symlog_nonneg y) by lra.
    pose proof (ln_1p_pos (- x) ltac:(lra)) as H1.
    pose proof (ln_1p_le y ltac:(lra)) as H2.
    replace (1 - x) with (1 + - x) by ring. lra.
  - lra.
  - rewrite !symlog_nonneg by lra. apply ln_increasing; lra.
Qed.

(** X1. [symlog] is odd, strictly increasing and compresses magnitudes:
    [|symlog x| <= |x|]. *)
Theorem symlog_odd_increasing :
  (forall x, symlog (- x) = - symlog x) /\
  (forall x y, x < y -> symlog x < symlog y) /\
  (forall x, Rabs (symlog x) <= Rabs x).
Proof.
  split; [|split].
  - intros x. destruct (Rtotal_order x 0) as [Hx|[->|Hx]].
    + rewrite (symlog_negative x) by lra. rewrite symlog_nonneg by lra.
      replace (1 + - x) with (1 - x) by ring. ring.
    + rewrite Ropp_0, symlog_nonneg by lra. rewrite Rplus_0_r, ln_1. ring.
    + rewrite (symlog_nonneg x) by lra. rewrite symlog_negative by lra.
      replace (1 - - x) with (1 + x) by ring. ring.
  - apply symlog_lt.
  - intros x. destruct (Rlt_dec x 0) as [Hx|Hx].
    + rewrite symlog_negative by lra.
      pose proof (ln_1p_le (- x) ltac:(lra)) as H.
      replace (1 + - x) with (1 - x) in H by ring.
      rewrite Rabs_Ropp, (Rabs_right (ln (1 - x))) by lra.
      rewrite Rabs_left by lra. lra.
    + rewrite symlog_nonneg by lra.
      pose proof (ln_1p_le x ltac:(lra)) as H.
      rewrite !Rabs_right by lra. lra.
Qed.

Lemma symlog_odd_increasing_witness : symlog 1 < symlog 2.
Proof.
  destruct symlog_odd_increasing as (_ & Hincr & _). apply Hincr. lra.
Defined.

Lemma symexp_lt x y : x < y -> symexp x < symexp y.
Proof.
  intros Hxy. destruct (Rtotal_order (symexp x) (symexp y))
    as [Hlt|[Heq|Hgt]]; [exact Hlt| |].
  - apply (f_equal symlog) in Heq. rewrite !symlog_symexp in Heq. lra.
  - apply symlog_lt in Hgt. rewrite !symlog_symexp in Hgt. lra.
Qed.

(** X2. [symexp] is odd, strictly increasing and expands magnitudes:
    [|x| <= |symexp x|]. *)
Theorem symexp_odd_increasing :
  (forall x, symexp (- x) = - symexp x) /\
  (forall x y, x < y -> symexp x < symexp y) /\
  (forall x, Rabs x <= Rabs (symexp x)).
Proof.
  assert (Hodd : forall x, symlog (- x) = - symlog x).
  { intros x. destruct (Rtotal_order x 0) as [Hx|[->|Hx]].
    - rewrite (symlog_negative x) by lra. rewrite symlog_nonneg by lra.
      replace (1 + - x) with (1 - x) by ring. ring.
    - rewrite Ropp_0, symlog_nonneg by lra. rewrite Rplus_0_r, ln_1. ring.
    - rewrite (symlog_nonneg x) by lra. rewrite symlog_negative by lra.
      replace (1 - - x) with (1 + x) by ring. ring. }
  assert (Hinj : forall a b, symlog a = symlog b -> a = b).
  { intros a b Hab. rewrite <- (symexp_symlog a), <- (symexp_symlog b).
    now rewrite Hab. }
  split; [|split].
  - intros x. apply Hinj. rewrite Hodd, !symlog_symexp. reflexivity.
  - apply symexp_lt.
  - intros x. set (y := symexp x).
    assert (Hx : x = symlog y) by (unfold y; now rewrite symlog_symexp).
    rewrite Hx. destruct (Rlt_dec y 0) as [Hy|Hy].
    + rewrite symlog_negative by lra.
      pose proof (ln_1p_le (- y) ltac:(lra)) as H.
      replace (1 + - y) with (1 - y) in H by ring.
      rewrite Rabs_Ropp, (Rabs_right (ln (1 - y))) by lra.
      rewrite Rabs_left by lra. lra.
    + rewrite symlog_nonneg by lra.
      pose proof (ln_1p_le y ltac:(lra)) as H.
      rewrite !Rabs_right by lra. lra.
Qed.

Lemma symexp_odd_increasing_witness : symexp 1 < symexp 2.
Proof.
  destruct symexp_odd_increasing as (_ & Hincr & _). apply Hincr. lra.
Defined.

(** ** Distances: [cosine_distance], [l2_normalize] *)

Lemma sum_squares_nonneg (v : list R) : 0 <= sum_list (map (fun x => x * x) v).
Proof.
  induction v as [|x v IH]; simpl; [lra|]. pose proof (Rle_0_sqr x) as H.
  unfold Rsqr in H. lra.
Qed.

Lemma cauchy_schwarz (a b : list R) :
  (sum_list (zip_with Rmult a b)) ^ 2
  <= sum_list (map (fun x => x * x) a) * sum_list (map (fun x => x * x) b).
Proof.
  revert b. induction a as [|x a IH]; intros [|y b]; simpl.
  - lra.
  - lra.
  - pose proof (sum_squares_nonneg a). pose proof (Rle_0_sqr x) as Hx.
    unfold Rsqr in Hx. nra.
  - specialize (IH b).
    pose proof (sum_squares_nonneg a) as HA.
    pose proof (sum_squares_nonneg b) as HB.
    set (A := sum_list (map (fun x => x * x) a)) in *.
    set (B := sum_list (map (fun x => x * x) b)) in *.
    set (D := sum_list (zip_with Rmult a b)) in *.
    assert (Hmix : 2 * (x * y) * D <= x * x * B + y * y * A).
    { destruct (Rle_dec (2 * (x * y) * D) 0) as [Hneg|Hpos].
      - pose proof (Rle_0_sqr x) as Hx. pose proof (Rle_0_sqr y) as Hy.
        unfold Rsqr in *. nra.
      - apply Rnot_le_lt in Hpos.
        assert (Hsq : (2 * (x * y) * D) ^ 2 <= (x * x * B + y * y * A) ^ 2).
        { pose proof (Rle_0_sqr (x * x * B - y * y * A)) as H1.
          pose proof (Rle_0_sqr (x * y)) as H2. unfold Rsqr in *. nra. }
        pose proof (Rle_0_sqr x) as Hx. pose proof (Rle_0_sqr y) as Hy.
        unfold Rsqr in *.
        assert (0 <= x * x * B + y * y * A) by nra.
        nra. }
    nra.
Qed.

Lemma dot_le_norms (a b : list R) :
  Rabs (sum_list (zip_with Rmult a b)) <= norm a * norm b.
Proof.
  unfold norm. rewrite <- sqrt_mult by apply sum_squares_nonneg.
  rewrite <- sqrt_Rsqr_abs. apply sqrt_le_1_alt.
  pose proof (cauchy_schwarz a b) as H. unfold Rsqr. simpl in H. lra.
Qed.

Lemma norm_nonneg v : 0 <= norm v.
Proof. apply sqrt_pos. Qed.

Lemma zip_with_Rmult_comm (a b : list R) :
  zip_with Rmult a b = zip_with Rmult b a.
Proof.
  revert b. induction a as [|x a IH]; intros [|y b]; simpl; try done.
  rewrite IH. f_equal. ring.
Qed.

Lemma norm_zeros (v : list R) : Forall (fun x => x = 0) v -> norm v = 0.
Proof.
  intros Hv. unfold norm.
  replace (sum_list (map (fun x => x * x) v)) with 0; [apply sqrt_0|].
  induction Hv as [|x v -> Hv IH]; simpl; [done|]. rewrite <- IH. ring.
Qed.

Lemma dot_zeros (a b : list R) :
  Forall (fun x => x = 0) a -> sum_list (zip_with Rmult a b) = 0.
Proof.
  intros Ha. revert b. induction Ha as [|x a -> Ha IH]; intros [|y b];
    simpl; try done.
  rewrite IH. ring.
Qed.

(** X5. For vectors of equal size [cosine_distance] returns, is symmetric in
    its arguments and lies in [[0, 2]]; against a zero vector it is exactly 1
    (the added epsilon keeps the division defined, there is no division by
    zero).  Vectors of different sizes raise [TypeError]. *)
Theorem cosine_distance_bounds (vec1 vec2 : list R) :
  (length vec1 = length vec2 ->
   exists d,
     cosine_distance vec1 vec2 = Ok d /\
     cosine_distance vec2 vec1 = Ok d /\
     0 <= d <= 2 /\
     (Forall (fun x => x = 0) vec1 -> d = 1)) /\
  (length vec1 <> length vec2 -> cosine_distance vec1 vec2 = Raise TypeError).
Proof.
  split.
  - intros Hlen. unfold cosine_distance, dot.
    rewrite Hlen, !Nat.eqb_refl. simpl.
    eexists. split; [reflexivity|]. split.
    { rewrite (zip_with_Rmult_comm vec2 vec1).
      rewrite (Rmult_comm (norm vec2)). reflexivity. }
    pose proof (dot_le_norms vec1 vec2) as Hdot.
    pose proof (norm_nonneg vec1) as H1. pose proof (norm_nonneg vec2) as H2.
    set (D := sum_list (zip_with Rmult vec1 vec2)) in *.
    set (N := norm vec1 * norm vec2) in *.
    assert (HN : 0 <= N) by (unfold N; nra).
    assert (Hden : 0 < N + 1 / 100000000) by lra.
    assert (Habs : - N <= D <= N).
    { unfold Rabs in Hdot. destruct (Rcase_abs D); lra. }
    split.
    + assert (Hq : -1 < D / (N + 1 / 100000000) < 1); [|lra].
      split.
      * apply Rmult_lt_reg_r with (N + 1 / 100000000); [exact Hden|].
        unfold Rdiv. rewrite Rmult_assoc, Rinv_l by lra. lra.
      * apply Rmult_lt_reg_r with (N + 1 / 100000000); [exact Hden|].
        unfold Rdiv. rewrite Rmult_assoc, Rinv_l by lra. lra.
    + intros Hzero. unfold D. rewrite dot_zeros by exact Hzero.
      unfold Rdiv. rewrite Rmult_0_l. ring.
  - intros Hne. unfold cosine_distance, dot.
    destruct (length vec1 =? length vec2)%nat eqn:E; [|reflexivity].
    apply Nat.eqb_eq in E. contradiction.
Qed.

Lemma cosine_distance_bounds_witness :
  exists d, cosine_distance [0; 0] [1; 2] = Ok d /\ d = 1.
Proof.
  destruct (cosine_distance_bounds [0; 0] [1; 2]) as [Heq _].
  destruct (Heq eq_refl) as (d & Hd & _ & _ & Hzero).
  exists d. split; [exact Hd|]. apply Hzero. repeat constructor.
Defined.

Lemma norm_scaled (v : list R) c :
  0 < c -> norm (map (fun x => x / c) v) = norm v / c.
Proof.
  intros Hc. unfold norm. rewrite map_map.
  replace (sum_list (map (fun x => x / c * (x / c)) v))
    with (sum_list (map (fun x => x * x) v) / (c * c)).
  - rewrite sqrt_div_alt by nra. rewrite sqrt_square by lra. reflexivity.
  - induction v as [|x v IH]; simpl.
    + unfold Rdiv. ring.
    + rewrite <- IH. field. lra.
Qed.

(** X6. [l2_normalize] with a positive epsilon returns a vector of the same
    size whose norm is at most 1, and exactly 1 when the norm of the input is
    at least epsilon; a zero vector is returned unchanged. *)
Theorem l2_normalize_unit (vectors : list R) (epsilon : R) :
  0 < epsilon ->
  length (l2_normalize vectors epsilon) = length vectors /\
  norm (l2_normalize vectors epsilon) <= 1 /\
  (epsilon <= norm vectors -> norm (l2_normalize vectors epsilon) = 1) /\
  (Forall (fun x => x = 0) vectors -> l2_normalize vectors epsilon = vectors).
Proof.
  intros Heps. pose proof (norm_nonneg vectors) as Hn.
  assert (Hc : 0 < Rmax (norm vectors) epsilon).
  { pose proof (Rmax_r (norm vectors) epsilon). lra. }
  unfold l2_normalize. split; [apply length_map|].
  rewrite norm_scaled by exact Hc. split; [|split].
  - pose proof (Rmax_l (norm vectors) epsilon) as Hl.
    apply Rmult_le_reg_r with (Rmax (norm vectors) epsilon); [exact Hc|].
    unfold Rdiv. rewrite Rmult_assoc, Rinv_l by lra. lra.
  - intros Hge. rewrite Rmax_left by lra. field. lra.
  - intros Hzero. clear Hn Hc. generalize (Rmax (norm vectors) epsilon).
    intros c. induction Hzero as [|x v -> Hv IH]; [done|].
    simpl. rewrite IH. f_equal. unfold Rdiv. ring.
Qed.

Lemma l2_normalize_unit_witness :
  norm (l2_normalize [3; 4] (1 / 1000000000)) <= 1.
Proof.
  destruct (l2_normalize_unit [3; 4] (1 / 1000000000)) as (_ & Hle & _).
  - lra.
  - exact Hle.
Defined.

(** ** Log-probabilities of [MSEDist] and [SymlogDist] *)

Lemma sum_list_nonneg (l : list R) :
  Forall (fun x => 0 <= x) l -> 0 <= sum_list l.
Proof. induction 1 as [|x l Hx Hl IH]; simpl; lra. Qed.

Lemma sum_list_zeros (l : list R) :
  Forall (fun x => x = 0) l -> sum_list l = 0.
Proof. induction 1 as [|x l -> Hl IH]; simpl; lra. Qed.

Lemma mean_list_nonneg (l : list R) :
  Forall (fun x => 0 <= x) l -> 0 <= mean_list l.
Proof.
  intros Hl. unfold mean_list. destruct l as [|x l].
  - simpl. unfold Rdiv. rewrite Rinv_0. lra.
  - apply Rmult_le_pos; [by apply sum_list_nonneg|].
    apply Rlt_le, Rinv_0_lt_compat. apply lt_0_INR. simpl. lia.
Qed.

Lemma mean_list_zeros (l : list R) :
  Forall (fun x => x = 0) l -> mean_list l = 0.
Proof.
  intros Hl. unfold mean_list. rewrite sum_list_zeros by done.
  unfold Rdiv. ring.
Qed.

Lemma Forall_zip_with {P : R -> Prop} (f : R -> R -> R) (a b : list R) :
  (forall x y, P (f x y)) -> Forall P (zip_with f a b).
Proof.
  intros Hf. revert b. induction a as [|x a IH]; intros [|y b]; simpl;
    constructor; auto.
Qed.

Lemma Forall_zip_with_diag {P : R -> Prop} (f : R -> R -> R) (g : R -> R)
      (a : list R) :
  (forall x, P (f x (g x))) -> Forall P (zip_with f a (map g a)).
Proof.
  intros Hf. induction a as [|x a IH]; simpl; constructor; auto.
Qed.

Lemma squares_zero_eq (a b : list R) :
  length a = length b ->
  sum_list (zip_with (fun m v => (m - v) ^ 2) a b) = 0 -> b = a.
Proof.
  revert b. induction a as [|x a IH]; intros [|y b] Hlen Hsum;
    cbn [zip_with sum_list length] in *; try discriminate; [done|].
  assert (Hrest : 0 <= sum_list (zip_with (fun m v => (m - v) ^ 2) a b)).
  { apply sum_list_nonneg. apply Forall_zip_with. intros m v. cbv beta.
    pose proof (pow2_ge_0 (m - v)). lra. }
  pose proof (pow2_ge_0 (x - y)) as Hsq.
  assert (Hxy : (x - y) ^ 2 = 0) by lra.
  assert (x - y = 0) by (simpl in Hxy; nra).
  f_equal; [lra|]. apply IH; [lia|lra].
Qed.

(** X3. [SymlogDist.log_prob] is never positive and is zero at the
    distribution's own mode, for either distance and aggregation and any
    tolerance; a value of another shape fails the assertion. *)
Theorem symlog_log_prob_mode (d : SymlogDist) (dist : symlog_dist)
        (agg : symlog_agg) (tol : R) :
  sl_mode d <> [] ->
  (forall value, length value = length (sl_mode d) ->
     exists lp, SymlogDist_log_prob d dist agg tol value = Ok lp /\ lp <= 0) /\
  (exists lp, SymlogDist_log_prob d dist agg tol (SymlogDist_mode d) = Ok lp /\
              lp = 0) /\
  (forall value, length value <> length (sl_mode d) ->
     SymlogDist_log_prob d dist agg tol value = Raise AssertionError).
Proof.
  intros Hne.
  set (thr := fun x : R => if Rlt_dec x tol then 0 else x).
  assert (Hthr : forall x, 0 <= x -> 0 <= thr x).
  { intros x Hx. unfold thr. destruct (Rlt_dec x tol); lra. }
  assert (Hthr0 : thr 0 = 0).
  { unfold thr. by destruct (Rlt_dec 0 tol). }
  split; [|split].
  - intros value Hlen. unfold SymlogDist_log_prob.
    rewrite <- Hlen, Nat.eqb_refl. simpl. fold thr.
    assert (Hpos : Forall (fun x => 0 <= x)
              (map thr
                 match dist with
                 | dist_mse =>
                     zip_with (fun m v => (m - symlog v) ^ 2) (sl_mode d) value
                 | dist_abs =>
                     zip_with (fun m v => Rabs (m - symlog v)) (sl_mode d) value
                 end)).
    { apply Forall_fmap. destruct dist.
      - apply Forall_zip_with. intros m v. apply Hthr. cbv beta.
        pose proof (pow2_ge_0 (m - symlog v)). lra.
      - apply Forall_zip_with. intros m v. apply Hthr. apply Rabs_pos. }
    destruct agg; eexists; (split; [reflexivity|]).
    + match goal with
      | |- - ?x <= 0 =>
          assert (0 <= x) by (apply mean_list_nonneg; exact Hpos); lra
      end.
    + match goal with
      | |- - ?x <= 0 =>
          assert (0 <= x) by (apply sum_list_nonneg; exact Hpos); lra
      end.
  - unfold SymlogDist_log_prob, SymlogDist_mode.
    rewrite length_map, Nat.eqb_refl. simpl. fold thr.
    assert (Hzero : Forall (fun x => x = 0)
              (map thr
                 match dist with
                 | dist_mse =>
                     zip_with (fun m v => (m - symlog v) ^ 2) (sl_mode d)
                              (map symexp (sl_mode d))
                 | dist_abs =>
                     zip_with (fun m v => Rabs (m - symlog v)) (sl_mode d)
                              (map symexp (sl_mode d))
                 end)).
    { apply Forall_fmap. destruct dist.
      - apply (Forall_zip_with_diag (P := fun x => thr x = 0)).
        intros m. rewrite symlog_symexp.
        replace ((m - m) ^ 2) with 0 by ring. exact Hthr0.
      - apply (Forall_zip_with_diag (P := fun x => thr x = 0)).
        intros m. rewrite symlog_symexp.
        replace (m - m) with 0 by ring. rewrite Rabs_R0. exact Hthr0. }
    destruct agg; eexists; (split; [reflexivity|]).
    + match goal with
      | |- - ?x = 0 =>
          assert (x = 0) by (apply mean_list_zeros; exact Hzero); lra
      end.
    + match goal with
      | |- - ?x = 0 =>
          assert (x = 0) by (apply sum_list_zeros; exact Hzero); lra
      end.
  - intros value Hlen. unfold SymlogDist_log_prob.
    destruct (length (sl_mode d) =? length value)%nat eqn:E; [|reflexivity].
    apply Nat.eqb_eq in E. congruence.
Qed.

Lemma symlog_log_prob_mode_witness :
  exists lp,
    SymlogDist_log_prob (mkSymlogDist [1; 2]) dist_mse agg_sum (1 / 100000000)
                        (SymlogDist_mode (mkSymlogDist [1; 2])) = Ok lp /\
    lp = 0.
Proof.
  destruct (symlog_log_prob_mode (mkSymlogDist [1; 2]) dist_mse agg_sum
              (1 / 100000000)) as (_ & Hmode & _).
  - discriminate.
  - exact Hmode.
Defined.

(** X4. [MSEDist.log_prob] with the [sum] or [mean] aggregation is never
    positive, and with [sum] it is zero exactly at the mode; a value of
    another shape fails the assertion. *)
Theorem mse_log_prob_mode (mode : list R) :
  mode <> [] ->
  (forall agg value, agg <> mse_cosine -> length value = length mode ->
     exists lp, MSEDist_log_prob (mkMSEDist mode agg) value = Ok lp /\ lp <= 0) /\
  (forall value, length value = length mode ->
     (MSEDist_log_prob (mkMSEDist mode mse_sum) value = Ok 0 <-> value = mode)) /\
  (forall agg value, length value <> length mode ->
     MSEDist_log_prob (mkMSEDist mode agg) value = Raise AssertionError).
Proof.
  intros Hne. split; [|split].
  - intros agg value Hagg Hlen. unfold MSEDist_log_prob. simpl.
    rewrite <- Hlen, Nat.eqb_refl. simpl.
    assert (Hpos : Forall (fun x => 0 <= x)
                          (zip_with (fun m v => (m - v) ^ 2) mode value)).
    { apply Forall_zip_with. intros m v. cbv beta.
      pose proof (pow2_ge_0 (m - v)). lra. }
    destruct agg; [| |contradiction]; eexists; (split; [reflexivity|]).
    + match goal with
      | |- - ?x <= 0 =>
          assert (0 <= x) by (apply mean_list_nonneg; exact Hpos); lra
      end.
    + match goal with
      | |- - ?x <= 0 =>
          assert (0 <= x) by (apply sum_list_nonneg; exact Hpos); lra
      end.
  - intros value Hlen. unfold MSEDist_log_prob.
    cbn [mse_mode mse_aggregation]. rewrite <- Hlen, Nat.eqb_refl.
    cbn [negb]. split.
    + intros [= Hsum].
      change (- sum_list (zip_with (fun m v => (m - v) ^ 2) mode value) = 0)
        in Hsum.
      apply squares_zero_eq; [done|lra].
    + intros ->. f_equal.
      rewrite sum_list_zeros; [ring|].
      clear. induction mode as [|x l IH]; cbn [zip_with]; constructor;
        [ring|done].
  - intros agg value Hlen. unfold MSEDist_log_prob. simpl.
    destruct (length mode =? length value)%nat eqn:E; [|reflexivity].
    apply Nat.eqb_eq in E. congruence.
Qed.

Lemma mse_log_prob_mode_witness :
  MSEDist_log_prob (mkMSEDist [1; 2] mse_sum) [1; 2] = Ok 0.
Proof.
  destruct (mse_log_prob_mode [1; 2]) as (_ & Hzero & _).
  - discriminate.
  - by apply (Hzero [1; 2] eq_refl).
Defined.

(** ** [DiscDist]: predictions stay within the bins *)

Lemma sum_exp_positive (l : list R) : l <> [] -> 0 < sum_list (map exp l).
Proof.
  destruct l as [|x l]; [done|]. intros _. simpl.
  pose proof (exp_pos x). pose proof (sum_exp_pos l). lra.
Qed.

Lemma sum_list_div (l : list R) z :
  sum_list (map (fun x => x / z) l) = sum_list l / z.
Proof.
  induction l as [|x l IH]; simpl.
  - unfold Rdiv. ring.
  - rewrite IH. unfold Rdiv. ring.
Qed.

Lemma softmax_simplex (logits : list R) :
  logits <> [] ->
  length (softmax logits) = length logits /\
  Forall (fun p => 0 < p) (softmax logits) /\
  sum_list (softmax logits) = 1.
Proof.
  intros Hne. pose proof (sum_exp_positive logits Hne) as Hz.
  unfold softmax. split; [apply length_map|]. split.
  - apply Forall_forall. intros p Hp. apply list_elem_of_In in Hp.
    apply in_map_iff in Hp as (x & <- & _).
    apply Rdiv_lt_0_compat; [apply exp_pos|exact Hz].
  - rewrite <- (map_map exp (fun e => e / sum_list (map exp logits))).
    rewrite sum_list_div. field. lra.
Qed.

Lemma length_linspace low high n : length (linspace low high n) = n.
Proof.
  unfold linspace. destruct n as [|[|n]]; [done|done|].
  by rewrite length_map, length_seq.
Qed.

Lemma nth_linspace low high n i :
  (2 <= n)%nat -> (i < n)%nat ->
  nth i (linspace low high n) 0
  = low + INR i * ((high - low) / INR (n - 1)).
Proof.
  intros Hn Hi. unfold linspace. destruct n as [|[|n]]; [lia|lia|].
  rewrite (nth_map_default _ _ _ 0%nat) by (rewrite length_seq; lia).
  by rewrite seq_nth by lia.
Qed.

Lemma linspace_bounds low high n :
  low <= high -> Forall (fun b => low <= b <= high) (linspace low high n).
Proof.
  intros Hle. destruct n as [|[|n]].
  - constructor.
  - simpl. constructor; [lra|constructor].
  - apply Forall_forall. intros b Hb. apply list_elem_of_In in Hb.
    unfold linspace in Hb. apply in_map_iff in Hb as (i & <- & Hi).
    apply in_seq in Hi.
    assert (Hden : 0 < INR (S (S n) - 1)) by (apply lt_0_INR; lia).
    assert (Hi0 : 0 <= INR i) by apply pos_INR.
    assert (Hi1 : INR i <= INR (S (S n) - 1)) by (apply le_INR; lia).
    set (m := INR (S (S n) - 1)) in *.
    assert (Hfrac : 0 <= INR i / m <= 1).
    { split.
      - apply Rmult_le_pos; [lra|]. apply Rlt_le, Rinv_0_lt_compat. lra.
      - apply Rmult_le_reg_r with m; [lra|].
        unfold Rdiv. rewrite Rmult_assoc, Rinv_l by lra. lra. }
    replace (INR i * ((high - low) / m)) with (INR i / m * (high - low))
      by (field; lra).
    nra.
Qed.

Lemma convex_combination (p b : list R) lo hi :
  Forall (fun x => 0 <= x) p -> Forall (fun x => lo <= x <= hi) b ->
  length p = length b ->
  lo * sum_list p <= sum_list (zip_with Rmult p b) <= hi * sum_list p.
Proof.
  intros Hp. revert b. induction Hp as [|x p Hx Hp IH]; intros [|y b] Hb Hlen;
    simpl in *; try discriminate; [lra|].
  apply Forall_cons in Hb as [Hy Hb].
  specialize (IH b Hb ltac:(lia)). nra.
Qed.

(** X7. For non-empty logits and [low <= high] the probabilities of a
    [DiscDist] are positive and sum to one, its expected bin lies in
    [[low, high]], and with the default [symexp] the mean and mode lie in
    [[symexp(low), symexp(high)]]. *)
Theorem disc_dist_mean_bounds (logits : list R) (low high : R)
        (transfwd : R -> R) :
  logits <> [] -> low <= high ->
  let d := mkDiscDist logits low high transfwd symexp in
  Forall (fun p => 0 < p) (DiscDist_probs d) /\
  sum_list (DiscDist_probs d) = 1 /\
  low <= DiscDist_expect d <= high /\
  symexp low <= DiscDist_mean d <= symexp high /\
  DiscDist_mode d = DiscDist_mean d.
Proof.
  intros Hne Hle d.
  destruct (softmax_simplex logits Hne) as (Hlen & Hpos & Hsum).
  assert (Hexp : low <= DiscDist_expect d <= high).
  { unfold DiscDist_expect, DiscDist_probs, DiscDist_bins. simpl.
    pose proof (convex_combination (softmax logits)
                  (linspace low high (length logits)) low high) as H.
    rewrite Hsum in H. rewrite !Rmult_1_r in H. apply H.
    - eapply Forall_impl; [exact Hpos|]. intros x Hx. simpl in Hx. lra.
    - by apply linspace_bounds.
    - by rewrite Hlen, length_linspace. }
  split; [exact Hpos|]. split; [exact Hsum|]. split; [exact Hexp|].
  split; [|reflexivity].
  assert (Hmono : forall a b, a <= b -> symexp a <= symexp b).
  { intros a b [Hab| ->]; [left; by apply symexp_lt|right; reflexivity]. }
  unfold DiscDist_mean. simpl. split; apply Hmono; apply Hexp.
Qed.

Lemma disc_dist_mean_bounds_witness :
  symexp (-20) <= DiscDist_mean (DiscDist_default [0; 0; 0]) <= symexp 20.
Proof.
  destruct (disc_dist_mean_bounds [0; 0; 0] (-20) 20 symlog)
    as (_ & _ & _ & Hmean & _).
  - discriminate.
  - lra.
  - exact Hmean.
Defined.

(** ** [DiscDist.log_prob]: the two-hot target *)

Lemma monotone_bins_tail b rest :
  monotone_bins (b :: rest) ->
  monotone_bins rest /\ (forall j, (j < length rest)%nat -> b <= nth j rest 0).
Proof.
  intros Hm. split.
  - intros i j Hij Hj. apply (Hm (S i) (S j)); simpl; lia.
  - intros j Hj. apply (Hm 0%nat (S j)); simpl; lia.
Qed.

Lemma count_split (bins : list R) x :
  (count_le bins x + count_gt bins x)%Z = Z.of_nat (length bins).
Proof.
  induction bins as [|b rest IH]; [done|].
  cbn [count_le count_gt length].
  destruct (Rle_dec b x); destruct (Rgt_dec b x); try lra; lia.
Qed.

Lemma count_le_none (bins : list R) x :
  (forall j, (j < length bins)%nat -> x < nth j bins 0) -> count_le bins x = 0%Z.
Proof.
  induction bins as [|b rest IH]; intros Hall; [done|].
  cbn [count_le]. pose proof (Hall 0%nat ltac:(simpl; lia)) as H0. simpl in H0.
  destruct (Rle_dec b x); [lra|]. rewrite IH; [done|].
  intros j Hj. apply (Hall (S j)). simpl. lia.
Qed.

Lemma count_le_sorted (bins : list R) x :
  monotone_bins bins ->
  (0 <= count_le bins x <= Z.of_nat (length bins))%Z /\
  (forall i, (Z.of_nat i < count_le bins x)%Z -> nth i bins 0 <= x) /\
  (forall i, (i < length bins)%nat -> (count_le bins x <= Z.of_nat i)%Z ->
             x < nth i bins 0).
Proof.
  induction bins as [|b rest IH]; intros Hm.
  - simpl. split; [lia|]. split; intros i; [lia|simpl; lia].
  - destruct (monotone_bins_tail b rest Hm) as [Hrest Hhead].
    destruct (IH Hrest) as (Hrange & Hle & Hgt).
    cbn [count_le length]. destruct (Rle_dec b x) as [Hb|Hb].
    + split; [lia|]. split.
      * intros [|i] Hi; simpl; [exact Hb|]. apply Hle. lia.
      * intros [|i] Hi Hc; [lia|]. simpl. apply Hgt; lia.
    + assert (Hall : forall j, (j < length rest)%nat -> x < nth j rest 0).
      { intros j Hj. pose proof (Hhead j Hj). lra. }
      rewrite (count_le_none rest x Hall). split; [lia|]. split.
      * intros i Hi. lia.
      * intros [|i] Hi _; simpl; [lra|]. apply Hall. lia.
Qed.

Lemma linspace_monotone low high n :
  low <= high -> monotone_bins (linspace low high n).
Proof.
  intros Hle i j Hij Hj. rewrite length_linspace in Hj.
  destruct (Nat.le_gt_cases 2 n) as [Hn|Hn].
  - rewrite !nth_linspace by lia.
    assert (Hden : 0 < INR (n - 1)) by (apply lt_0_INR; lia).
    assert (Hstep : 0 <= (high - low) / INR (n - 1)).
    { apply Rmult_le_pos; [lra|]. apply Rlt_le, Rinv_0_lt_compat. lra. }
    assert (INR i <= INR j) by (apply le_INR; lia). nra.
  - assert (i = 0%nat) as -> by lia. assert (j = 0%nat) as -> by lia. lra.
Qed.

Lemma sum_single (l : list R) j w :
  (j < length l)%nat -> nth j l 0 = w ->
  (forall i, (i < length l)%nat -> i <> j -> nth i l 0 = 0) ->
  sum_list l = w.
Proof.
  revert j. induction l as [|x l IH]; intros j Hj Hw Hz; simpl in *; [lia|].
  destruct j as [|j].
  - subst x. rewrite sum_list_zeros; [ring|].
    apply Forall_forall. intros y Hy.
    apply list_elem_of_In, (In_nth _ _ 0) in Hy as (i & Hi & <-).
    apply (Hz (S i)); lia.
  - rewrite (IH j); [|lia|exact Hw|].
    + rewrite (Hz 0%nat); [ring|lia|lia].
    + intros i Hi Hne. apply (Hz (S i)); lia.
Qed.

Lemma nth_scaled_one_hot k n w i :
  (i < n)%nat ->
  nth i (map (fun o => o * w) (one_hot k n)) 0
  = if (i =? k)%nat then w else 0.
Proof.
  intros Hi. rewrite nth_map_R by (rewrite length_one_hot; lia).
  rewrite nth_one_hot by lia. destruct (i =? k)%nat; ring.
Qed.

Lemma nth_two_hot lo hi wl wh n i :
  (i < n)%nat ->
  nth i (zip_with Rplus (map (fun o => o * wl) (one_hot lo n))
                        (map (fun o => o * wh) (one_hot hi n))) 0
  = (if (i =? lo)%nat then wl else 0) + (if (i =? hi)%nat then wh else 0).
Proof.
  intros Hi.
  rewrite nth_zip_with_R by (rewrite ?length_map, ?length_one_hot; lia).
  by rewrite !nth_scaled_one_hot.
Qed.

Lemma length_two_hot lo hi wl wh n :
  length (zip_with Rplus (map (fun o => o * wl) (one_hot lo n))
                         (map (fun o => o * wh) (one_hot hi n))) = n.
Proof. rewrite length_zip_with, !length_map, !length_one_hot. lia. Qed.

Lemma sum_weighted_plus (a b c : list R) :
  length a = length b ->
  sum_list (zip_with Rmult (zip_with Rplus a b) c)
  = sum_list (zip_with Rmult a c) + sum_list (zip_with Rmult b c).
Proof.
  revert b c. induction a as [|x a IH]; intros [|y b] [|z c] Hlen;
    simpl in *; try discriminate; try lra.
  rewrite IH by lia. ring.
Qed.

Lemma sum_plus (a b : list R) :
  length a = length b ->
  sum_list (zip_with Rplus a b) = sum_list a + sum_list b.
Proof.
  revert b. induction a as [|x a IH]; intros [|y b] Hlen; simpl in *;
    try discriminate; [lra|].
  rewrite IH by lia. ring.
Qed.

Lemma sum_scaled_one_hot k n w :
  (k < n)%nat -> sum_list (map (fun o => o * w) (one_hot k n)) = w.
Proof.
  intros Hk. apply (sum_single _ k).
  - by rewrite length_map, length_one_hot.
  - rewrite nth_scaled_one_hot by lia. by rewrite Nat.eqb_refl.
  - intros i Hi Hne. rewrite length_map, length_one_hot in Hi.
    rewrite nth_scaled_one_hot by lia.
    destruct (i =? k)%nat eqn:E; [apply Nat.eqb_eq in E; done|done].
Qed.

Lemma sum_scaled_one_hot_weighted k w (c : list R) :
  (k < length c)%nat ->
  sum_list (zip_with Rmult (map (fun o => o * w) (one_hot k (length c))) c)
  = w * nth k c 0.
Proof.
  intros Hk. apply (sum_single _ k).
  - rewrite length_zip_with, length_map, length_one_hot. lia.
  - rewrite nth_zip_with_R by (rewrite ?length_map, ?length_one_hot; lia).
    rewrite nth_scaled_one_hot by lia. by rewrite Nat.eqb_refl.
  - intros i Hi Hne.
    rewrite length_zip_with, length_map, length_one_hot in Hi.
    rewrite nth_zip_with_R by (rewrite ?length_map, ?length_one_hot; lia).
    rewrite nth_scaled_one_hot by lia.
    destruct (i =? k)%nat eqn:E; [apply Nat.eqb_eq in E; done|ring].
Qed.

Lemma one_hot_int_nat k n : one_hot_int (Z.of_nat k) n = one_hot k n.
Proof.
  unfold one_hot_int, one_hot. apply map_ext. intros i.
  destruct (Nat.eqb_spec i k) as [->|Hne].
  - by rewrite Z.eqb_refl.
  - destruct (Z.eqb_spec (Z.of_nat i) (Z.of_nat k)); [lia|done].
Qed.

Lemma two_hot_representation (d : DiscDist) (x : R) :
  let bins := DiscDist_bins d in
  let n := length bins in
  bins <> [] -> monotone_bins bins ->
  exists lo hi wl wh,
    (lo < n)%nat /\ (hi < n)%nat /\ 0 <= wl /\ 0 <= wh /\ wl + wh = 1 /\
    DiscDist_target d x
    = zip_with Rplus (map (fun o => o * wl) (one_hot lo n))
                     (map (fun o => o * wh) (one_hot hi n)) /\
    wl * nth lo bins 0 + wh * nth hi bins 0
    = clip (dd_transfwd d x) (nth 0 bins 0) (nth (n - 1) bins 0).
Proof.
  intros bins n Hne Hmono. unfold DiscDist_target. fold bins. fold n.
  set (y := dd_transfwd d x). cbv zeta.
  assert (Hn : (1 <= n)%nat).
  { subst n. destruct bins; [done|simpl; lia]. }
  pose proof (count_split bins y) as Hsplit. fold n in Hsplit.
  destruct (count_le_sorted bins y Hmono) as (Hrange & Hle & Hgt).
  fold n in Hrange, Hgt.
  replace (Z.of_nat n - count_gt bins y)%Z with (count_le bins y) by lia.
  set (c := count_le bins y) in *.
  assert (Hends : nth 0 bins 0 <= nth (n - 1) bins 0).
  { apply Hmono; [lia|]. fold n. lia. }
  destruct (Z.eq_dec c 0%Z) as [Hc0|Hc0];
    [|destruct (Z.eq_dec c (Z.of_nat n)) as [Hcn|Hcn]].
  - (* below the first bin *)
    exists 0%nat, 0%nat, (1 / 2), (1 / 2).
    assert (clip_int (c - 1) 0 (Z.of_nat n - 1) = Z.of_nat 0) as ->
      by (unfold clip_int; lia).
    assert (clip_int c 0 (Z.of_nat n - 1) = Z.of_nat 0) as ->
      by (unfold clip_int; lia).
    rewrite Z.eqb_refl, !one_hot_int_nat.
    replace (1 / (1 + 1)) with (1 / 2) by lra.
    repeat split; try lia; try lra.
    pose proof (Hgt 0%nat ltac:(lia) ltac:(lia)) as Hy.
    unfold clip. rewrite Rmax_left by lra. rewrite Rmin_right by lra. lra.
  - (* at or above the last bin *)
    exists (n - 1)%nat, (n - 1)%nat, (1 / 2), (1 / 2).
    assert (clip_int (c - 1) 0 (Z.of_nat n - 1) = Z.of_nat (n - 1)) as ->
      by (unfold clip_int; lia).
    assert (clip_int c 0 (Z.of_nat n - 1) = Z.of_nat (n - 1)) as ->
      by (unfold clip_int; lia).
    rewrite Z.eqb_refl, !one_hot_int_nat.
    replace (1 / (1 + 1)) with (1 / 2) by lra.
    repeat split; try lia; try lra.
    pose proof (Hle (n - 1)%nat ltac:(lia)) as Hy.
    unfold clip. rewrite Rmax_right by lra. rewrite Rmin_left by lra. lra.
  - (* strictly between two neighbouring bins *)
    set (lo := Z.to_nat (c - 1)). set (hi := Z.to_nat c).
    assert (clip_int (c - 1) 0 (Z.of_nat n - 1) = Z.of_nat lo) as ->
      by (unfold clip_int; lia).
    assert (clip_int c 0 (Z.of_nat n - 1) = Z.of_nat hi) as ->
      by (unfold clip_int; lia).
    assert ((Z.of_nat lo =? Z.of_nat hi)%Z = false) as ->
      by (apply Z.eqb_neq; lia).
    rewrite !Nat2Z.id, !one_hot_int_nat.
    pose proof (Hle lo ltac:(lia)) as Hlo.
    pose proof (Hgt hi ltac:(lia) ltac:(lia)) as Hhi.
    assert (H0lo : nth 0 bins 0 <= nth lo bins 0).
    { apply Hmono; [lia|]. fold n. lia. }
    assert (Hhin : nth hi bins 0 <= nth (n - 1) bins 0).
    { apply Hmono; [lia|]. fold n. lia. }
    rewrite (Rabs_left1 (nth lo bins 0 - y)) by lra.
    rewrite (Rabs_right (nth hi bins 0 - y)) by lra.
    set (bl := nth lo bins 0) in *. set (bh := nth hi bins 0) in *.
    assert (Hden : 0 < - (bl - y) + (bh - y)) by lra.
    exists lo, hi, ((bh - y) / (- (bl - y) + (bh - y))),
      (- (bl - y) / (- (bl - y) + (bh - y))).
    split; [lia|]. split; [lia|].
    split; [apply Rmult_le_pos; [lra|apply Rlt_le, Rinv_0_lt_compat; lra]|].
    split; [apply Rmult_le_pos; [lra|apply Rlt_le, Rinv_0_lt_compat; lra]|].
    split; [field; lra|]. split; [reflexivity|].
    rewrite clip_id by lra. fold bl bh. field. lra.
Qed.

Lemma log_softmax_nonpos (logits : list R) :
  Forall (fun l => l <= 0) (log_softmax logits).
Proof.
  unfold log_softmax. apply Forall_forall. intros v Hv.
  apply list_elem_of_In, in_map_iff in Hv as (l & <- & Hl).
  apply (In_nth _ _ 0) in Hl as (i & Hi & <-).
  pose proof (sum_exp_ge i logits Hi) as Hge.
  pose proof (exp_pos (nth i logits 0)) as Hpos.
  assert (nth i logits 0 <= ln (sum_list (map exp logits))); [|lra].
  rewrite <- (ln_exp (nth i logits 0)) at 1.
  destruct Hge as [Hlt|Heq]; [left; apply ln_increasing; lra|right; by rewrite Heq].
Qed.

Lemma sum_weighted_nonpos (t l : list R) :
  Forall (fun w => 0 <= w) t -> Forall (fun v => v <= 0) l ->
  sum_list (zip_with Rmult t l) <= 0.
Proof.
  intros Ht. revert l. induction Ht as [|w t Hw Ht IH]; intros l Hl; [simpl; lra|].
  destruct Hl as [|v l Hv Hl]; simpl; [lra|].
  specialize (IH l Hl). nra.
Qed.

(** X8. [DiscDist.log_prob] scores a value against a two-hot target: for a
    non-empty head with [low <= high] the target has one entry per bin, its
    entries are non-negative and sum to one, its expectation over the bins is
    the transformed value clipped to the range of the bins (so values outside
    the bins are scored as the nearest end bin), and the resulting log
    probability is never positive. *)
Theorem disc_dist_two_hot (d : DiscDist) (x : R) :
  dd_logits d <> [] -> dd_low d <= dd_high d ->
  let bins := DiscDist_bins d in
  let n := length (dd_logits d) in
  let target := DiscDist_target d x in
  length target = n /\
  Forall (fun w => 0 <= w) target /\
  sum_list target = 1 /\
  sum_list (zip_with Rmult target bins)
  = clip (dd_transfwd d x) (nth 0 bins 0) (nth (n - 1) bins 0) /\
  DiscDist_log_prob d x <= 0.
Proof.
  intros Hne Hle bins n target.
  assert (Hlen : length bins = n) by apply length_linspace.
  assert (Hbins : bins <> []).
  { intros E. rewrite E in Hlen. subst n. destruct (dd_logits d); done. }
  pose proof (linspace_monotone (dd_low d) (dd_high d) n Hle) as Hmono.
  destruct (two_hot_representation d x Hbins Hmono)
    as (lo & hi & wl & wh & Hlo & Hhi & Hwl & Hwh & Hsum & Htarget & Hexp).
  fold bins in Hlo, Hhi, Htarget, Hexp. rewrite Hlen in Hlo, Hhi, Htarget, Hexp.
  fold target in Htarget.
  assert (Hpos : Forall (fun w => 0 <= w) target).
  { apply Forall_forall. intros w Hw.
    apply list_elem_of_In, (In_nth _ _ 0) in Hw as (i & Hi & <-).
    rewrite Htarget in Hi |- *. rewrite length_two_hot in Hi.
    rewrite nth_two_hot by lia.
    destruct (i =? lo)%nat, (i =? hi)%nat; lra. }
  split; [by rewrite Htarget, length_two_hot|].
  split; [exact Hpos|].
  split; [|split].
  - rewrite Htarget, sum_plus by (by rewrite !length_map, !length_one_hot).
    rewrite !sum_scaled_one_hot by lia. exact Hsum.
  - rewrite <- Hexp, Htarget.
    rewrite sum_weighted_plus by (by rewrite !length_map, !length_one_hot).
    rewrite <- Hlen. rewrite !sum_scaled_one_hot_weighted by lia. reflexivity.
  - unfold DiscDist_log_prob. apply sum_weighted_nonpos; [exact Hpos|].
    apply log_softmax_nonpos.
Qed.

Lemma disc_dist_two_hot_witness :
  DiscDist_log_prob (DiscDist_default [0; 0; 0]) 100 <= 0.
Proof.
  apply (disc_dist_two_hot (DiscDist_default [0; 0; 0]) 100); simpl; [done|lra].
Defined.

(** ** [Optimizer._update_scale] over successive steps *)

Lemma update_scale_calls_app {S} gl1 gl2 (st : OptimizerState S) :
  update_scale_calls (gl1 ++ gl2) st
  = update_scale_calls gl2 (update_scale_calls gl1 st).
Proof. unfold update_scale_calls. apply fold_left_app. Qed.

Lemma update_scale_keep_run {S} gl (st : OptimizerState S) :
  Forall (fun g => all_finite g = true) gl ->
  (0 <= good_steps st)%Z -> (good_steps st + Z.of_nat (length gl) <= 1000)%Z ->
  1 / 10000 <= grad_scale st <= 10000 ->
  let st' := update_scale_calls gl st in
  grad_scale st' = grad_scale st /\
  good_steps st' = (good_steps st + Z.of_nat (length gl))%Z.
Proof.
  intros Hfin. revert st.
  induction Hfin as [|g gl Hg Hfin IH]; intros st H0 Hlen Hgs; cbn zeta.
  - simpl. split; [done|lia].
  - change (update_scale_calls (g :: gl) st)
      with (update_scale_calls gl (update_scale g st).1).
    simpl length in Hlen.
    destruct (update_scale_cases st g) as (_ & _ & Hkeep).
    destruct (Hkeep Hg ltac:(lia)) as [Hscale Hgood].
    rewrite clip_id in Hscale by lra.
    rewrite wrap32_id in Hgood by (unfold int32_range; lia).
    destruct (IH (update_scale g st).1) as [IHs IHg].
    + rewrite Hgood. lia.
    + rewrite Hgood. lia.
    + rewrite Hscale. exact Hgs.
    + rewrite IHs, IHg, Hscale, Hgood. split; [done|]. simpl length. lia.
Qed.

(** X9. Loss-scale growth takes 1001 finite steps: starting from a counter of
    zero, each of the first 1000 consecutive calls of
    [Optimizer._update_scale] with finite gradients leaves [grad_scale]
    unchanged and only counts; it is the 1001st call that doubles the scale
    (capped at [1e4]) and resets the counter to zero. *)
Theorem update_scale_doubling_period {S : Type}
        (gl : list (gmap string (list fnum))) (st : OptimizerState S) :
  Forall (fun g => all_finite g = true) gl ->
  good_steps st = 0%Z ->
  1 / 10000 <= grad_scale st <= 10000 ->
  (forall k, (k <= 1000)%nat -> (k <= length gl)%nat ->
     grad_scale (update_scale_calls (take k gl) st) = grad_scale st /\
     good_steps (update_scale_calls (take k gl) st) = Z.of_nat k) /\
  ((1001 <= length gl)%nat ->
     grad_scale (update_scale_calls (take 1001 gl) st)
     = Rmin 10000 (2 * grad_scale st) /\
     good_steps (update_scale_calls (take 1001 gl) st) = 0%Z).
Proof.
  intros Hfin Hgood Hgs.
  assert (Hrun : forall k, (k <= 1000)%nat -> (k <= length gl)%nat ->
     grad_scale (update_scale_calls (take k gl) st) = grad_scale st /\
     good_steps (update_scale_calls (take k gl) st) = Z.of_nat k).
  { intros k Hk Hlen.
    destruct (update_scale_keep_run (take k gl) st) as [Hs Hg].
    - by apply Forall_take.
    - lia.
    - rewrite length_take. lia.
    - exact Hgs.
    - rewrite Hs, Hg, Hgood, length_take. split; [done|lia]. }
  split; [exact Hrun|].
  intros Hlen.
  destruct (Hrun 1000%nat ltac:(lia) ltac:(lia)) as [Hs Hg].
  destruct (lookup_lt_is_Some_2 gl 1000 ltac:(lia)) as [g Hlook].
  rewrite (take_S_r gl 1000 g Hlook), update_scale_calls_app.
  set (st1 := update_scale_calls (take 1000 gl) st) in *.
  change (update_scale_calls [g] st1) with (update_scale g st1).1.
  assert (Hgfin : all_finite g = true).
  { rewrite Forall_forall in Hfin. apply Hfin.
    by apply list_elem_of_lookup_2 in Hlook. }
  destruct (update_scale_cases st1 g) as (_ & Hincr & _).
  destruct (Hincr Hgfin ltac:(rewrite Hg; lia)) as [Hscale Hzero].
  rewrite Hscale, Hzero, Hs. split; [|done].
  unfold clip. rewrite Rmax_right by lra. f_equal. lra.
Qed.

Lemma update_scale_doubling_period_witness :
  grad_scale (update_scale_calls (take 1001 (replicate 1001 grads_finite))
                                 (Optimizer_init unit))
  = Rmin 10000 (2 * grad_scale (Optimizer_init unit)).
Proof.
  apply (update_scale_doubling_period (replicate 1001 grads_finite)
                                      (Optimizer_init unit)).
  - apply Forall_replicate, all_finite_grads_finite.
  - reflexivity.
  - simpl. lra.
  - rewrite length_replicate. lia.
Defined.

Lemma halved_floor a : 0 < a ->
  Rmax (1 / 10000) (Rmax (1 / 10000) a / 2) = Rmax (1 / 10000) (a / 2).
Proof.
  intros Ha. destruct (Rle_dec (1 / 10000) a) as [Hle|Hgt].
  - rewrite (Rmax_right _ a) by lra. reflexivity.
  - rewrite (Rmax_left _ a) by lra. rewrite !Rmax_left by lra. reflexivity.
Qed.

(** X10. The loss scale and its counter stay in range over any sequence of
    steps: from a counter in [[0, 1000]] the counter never leaves
    [[0, 1000]] (so the int32 arithmetic never wraps) and after the first
    call the scale lies in [[1e-4, 1e4]]; a run of [k] consecutive
    non-finite gradients from a scale [s] in that interval leaves the scale
    at [max(1e-4, s / 2^k)] with the counter at zero. *)
Theorem update_scale_calls_range {S : Type}
        (gl : list (gmap string (list fnum))) (st : OptimizerState S) :
  (0 <= good_steps st <= 1000)%Z ->
  let st' := update_scale_calls gl st in
  (0 <= good_steps st' <= 1000)%Z /\
  (gl <> [] -> 1 / 10000 <= grad_scale st' <= 10000) /\
  (Forall (fun g => all_finite g = false) gl -> gl <> [] ->
   1 / 10000 <= grad_scale st <= 10000 ->
   grad_scale st' = Rmax (1 / 10000) (grad_scale st / 2 ^ length gl) /\
   good_steps st' = 0%Z).
Proof.
  intros Hgood st'. subst st'.
  assert (Hstep : forall g (s : OptimizerState S),
             (0 <= good_steps s <= 1000)%Z ->
             (0 <= good_steps (update_scale g s).1 <= 1000)%Z /\
             1 / 10000 <= grad_scale (update_scale g s).1 <= 10000).
  { intros g s Hs. split.
    - destruct (update_scale_cases s g) as (Hdecr & Hincr & Hkeep).
      destruct (all_finite g) eqn:Hfin.
      + destruct (Z.lt_ge_cases (good_steps s) 1000) as [Hlt|Hge].
        * destruct (Hkeep eq_refl Hlt) as [_ ->].
          rewrite wrap32_id by (unfold int32_range; lia). lia.
        * destruct (Hincr eq_refl Hge) as [_ ->]. lia.
      + destruct (Hdecr eq_refl) as [_ ->]. lia.
    - unfold update_scale. cbn [fst grad_scale]. apply clip_bounds. lra. }
  split; [|split].
  - revert st Hgood. induction gl as [|g gl IH]; intros st Hgood; [exact Hgood|].
    change (update_scale_calls (g :: gl) st)
      with (update_scale_calls gl (update_scale g st).1).
    apply IH, Hstep, Hgood.
  - intros Hne. destruct (exists_last Hne) as (gl' & g & ->).
    rewrite update_scale_calls_app.
    change (update_scale_calls [g] ?s) with (update_scale g s).1.
    unfold update_scale. cbn [fst grad_scale]. apply clip_bounds. lra.
  - intros Hnon Hne Hgs. clear Hgood Hstep.
    induction gl as [|g gl IH] using rev_ind; [done|].
    apply Forall_app in Hnon as [Hnon Hg]. apply Forall_cons in Hg as [Hg _].
    rewrite update_scale_calls_app.
    change (update_scale_calls [g] ?s) with (update_scale g s).1.
    destruct (update_scale_cases (update_scale_calls gl st) g) as (Hdecr & _ & _).
    destruct (Hdecr Hg) as [Hscale Hzero]. split; [|exact Hzero].
    rewrite Hscale, length_app, Nat.add_1_r. cbn [length pow].
    assert (Hpow : 0 < 2 ^ length gl) by (apply pow_lt; lra).
    destruct gl as [|g0 gl0].
    + simpl. unfold clip. rewrite Rmin_right.
      * f_equal. lra.
      * apply Rmax_lub; lra.
    + destruct (IH Hnon ltac:(done)) as [IHs _]. rewrite IHs.
      set (a := grad_scale st / 2 ^ length (g0 :: gl0)).
      assert (Ha : 0 < a).
      { unfold a. apply Rmult_lt_0_compat; [lra|].
        apply Rinv_0_lt_compat, Hpow. }
      assert (Hale : a <= 10000).
      { unfold a. apply (Rmult_le_reg_r (2 ^ length (g0 :: gl0))); [exact Hpow|].
        unfold Rdiv. rewrite Rmult_assoc, Rinv_l by lra.
        assert (1 <= 2 ^ length (g0 :: gl0)) by (apply pow_R1_Rle; lra). nra. }
      unfold clip. rewrite halved_floor by exact Ha.
      replace (grad_scale st / (2 * 2 ^ length (g0 :: gl0))) with (a / 2)
        by (unfold a; field; lra).
      rewrite Rmin_right; [done|]. apply Rmax_lub; lra.
Qed.

Lemma update_scale_calls_range_witness :
  grad_scale (update_scale_calls [grads_nonfinite; grads_nonfinite]
                                 (Optimizer_init unit))
  = Rmax (1 / 10000) (grad_scale (Optimizer_init unit) / 2 ^ 2) /\
  good_steps (update_scale_calls [grads_nonfinite; grads_nonfinite]
                                 (Optimizer_init unit)) = 0%Z.
Proof.
  apply (update_scale_calls_range [grads_nonfinite; grads_nonfinite]
                                  (Optimizer_init unit)).
  - simpl. lia.
  - repeat constructor; apply all_finite_grads_nonfinite.
  - done.
  - simpl. lra.
Defined.

(** ** [VFunction.score]: special cases and bounds *)

Lemma score_backward (cfg : VConfig) (H : nat) (rew cont value : list R) :
  horizon cfg <> 0 -> (1 <= H)%nat ->
  length rew = H -> length cont = S H -> length value = S H ->
  let lam := return_lambda cfg in
  let disc := map (fun c => c * (1 - 1 / horizon cfg)) (tl cont) in
  let interm :=
    zip_with Rplus rew
             (map (fun x => x * (1 - lam)) (zip_with Rmult disc (tl value))) in
  score cfg rew cont value (S H)
  = Ok (rew, backward lam (nth H value 0) (combine interm disc),
        removelast value) /\
  length disc = H /\ length interm = H.
Proof.
  intros Hh Hpos Hrew Hcont Hvalue lam disc interm.
  assert (Hdisc : length disc = H).
  { unfold disc. rewrite length_map, length_tl, Hcont. reflexivity. }
  assert (Htlv : length (tl value) = H).
  { rewrite length_tl, Hvalue. reflexivity. }
  assert (Hinterm : length interm = H).
  { unfold interm. rewrite length_zip_with, length_map, length_zip_with. lia. }
  split; [|done].
  unfold score. rewrite Hrew, Nat.eqb_refl. simpl.
  destruct (Req_dec_T (horizon cfg) 0) as [E|_]; [contradiction|].
  rewrite (last_nth value H Hvalue). fold disc.
  rewrite (ew2_zip_with Rmult disc (tl value)) by lia. simpl.
  rewrite (ew2_zip_with Rplus rew)
    by (rewrite length_map, length_zip_with; lia).
  simpl. fold lam. fold interm.
  rewrite (score_loop lam _ interm disc) by lia.
  rewrite rev_involutive, removelast_last.
  rewrite jnp_stack_ok by (rewrite backward_length, length_combine; lia).
  reflexivity.
Qed.

Lemma score_interm_nth (lam gamma : R) (H t : nat) (rew cont value : list R) :
  length rew = H -> length cont = S H -> length value = S H -> (t < H)%nat ->
  let disc := map (fun c => c * gamma) (tl cont) in
  let interm :=
    zip_with Rplus rew
             (map (fun x => x * (1 - lam)) (zip_with Rmult disc (tl value))) in
  nth t (combine interm disc) (0, 0)
  = (nth t rew 0 + nth (S t) cont 0 * gamma * nth (S t) value 0 * (1 - lam),
     nth (S t) cont 0 * gamma).
Proof.
  intros Hrew Hcont Hvalue Ht disc interm.
  assert (Hdisc : length disc = H).
  { unfold disc. rewrite length_map, length_tl, Hcont. reflexivity. }
  assert (Htlv : length (tl value) = H).
  { rewrite length_tl, Hvalue. reflexivity. }
  assert (Hinterm : length interm = H).
  { unfold interm. rewrite length_zip_with, length_map, length_zip_with. lia. }
  rewrite combine_nth by lia. unfold interm.
  rewrite nth_zip_with_R by (rewrite ?length_map, ?length_zip_with; lia).
  rewrite nth_map_R by (rewrite length_zip_with; lia).
  rewrite nth_zip_with_R by lia.
  unfold disc. rewrite !nth_map_R by (rewrite length_tl; lia).
  by rewrite !nth_tl.
Qed.

Lemma backward_bounded (lam v B : R) (l : list (R * R)) :
  Rabs v <= B ->
  Forall (fun p : R * R => 0 <= p.2 * lam /\ Rabs p.1 + p.2 * lam * B <= B) l ->
  Forall (fun x => Rabs x <= B) (backward lam v l).
Proof.
  intros Hv Hl. induction Hl as [|[i d] l [Hd Hi] Hl IH]; simpl; [constructor|].
  constructor; [|exact IH].
  assert (Hhd : Rabs (hd v (backward lam v l)) <= B).
  { destruct IH; simpl; assumption. }
  simpl in Hd, Hi.
  set (h := hd v (backward lam v l)) in *.
  assert (Rabs (d * lam * h) <= d * lam * B).
  { rewrite Rabs_mult, (Rabs_right (d * lam)) by lra.
    apply Rmult_le_compat_l; lra. }
  pose proof (Rabs_triang i (d * lam * h)). lra.
Qed.

Lemma zip_with_plus_zero (a b : list R) :
  length a = length b ->
  zip_with Rplus a (map (fun x => x * (1 - 1)) b) = a.
Proof.
  revert b. induction a as [|x a IH]; intros [|y b] Hlen; simpl in *;
    try discriminate; [done|].
  rewrite IH by lia. f_equal. ring.
Qed.

(** X11. Returns stay in the value range: with [horizon >= 1],
    [0 <= return_lambda <= 1], continuation flags in [[0, 1]], rewards bounded
    by [rmax] in absolute value and value predictions bounded by
    [horizon * rmax], every lambda-return computed by [VFunction.score] is
    bounded by [horizon * rmax] as well. *)
Theorem score_bounded (cfg : VConfig) (H : nat) (rew cont value : list R)
        (rmax : R) :
  1 <= horizon cfg -> 0 <= return_lambda cfg <= 1 -> (1 <= H)%nat ->
  length rew = H -> length cont = S H -> length value = S H ->
  Forall (fun r => Rabs r <= rmax) rew ->
  Forall (fun c => 0 <= c <= 1) cont ->
  Forall (fun v => Rabs v <= horizon cfg * rmax) value ->
  exists ret,
    score cfg rew cont value (S H) = Ok (rew, ret, removelast value) /\
    length ret = H /\
    Forall (fun x => Rabs x <= horizon cfg * rmax) ret.
Proof.
  intros Hh Hlam Hpos Hrew Hcont Hvalue Brew Bcont Bvalue.
  destruct (score_backward cfg H rew cont value ltac:(lra) Hpos Hrew Hcont Hvalue)
    as (Hscore & Hdisc & Hinterm).
  eexists. split; [exact Hscore|].
  split; [rewrite backward_length, length_combine; lia|].
  set (gamma := 1 - 1 / horizon cfg) in *.
  set (lam := return_lambda cfg) in *.
  set (B := horizon cfg * rmax) in *.
  assert (Hgamma : 0 <= gamma < 1).
  { unfold gamma. assert (0 < / horizon cfg <= 1).
    { split; [apply Rinv_0_lt_compat; lra|].
      rewrite <- Rinv_1. apply Rinv_le_contravar; lra. }
    lra. }
  assert (HB : rmax + gamma * B = B) by (unfold gamma, B; field; lra).
  assert (Hrmax : 0 <= rmax).
  { destruct rew as [|r rew]; [simpl in Hrew; lia|].
    apply Forall_cons in Brew as [Hr _]. pose proof (Rabs_pos r). lra. }
  assert (HB0 : 0 <= B) by (unfold B; nra).
  apply backward_bounded.
  - apply (proj1 (Forall_nth _ 0 value) Bvalue H). lia.
  - apply Forall_forall. intros p Hp.
    apply list_elem_of_In, (In_nth _ _ (0, 0)) in Hp as (t & Ht & <-).
    rewrite length_combine in Ht.
    rewrite (score_interm_nth lam gamma H t) by (done || lia).
    cbn [fst snd].
    pose proof (proj1 (Forall_nth _ 0 rew) Brew t ltac:(lia)) as Hr.
    pose proof (proj1 (Forall_nth _ 0 cont) Bcont (S t) ltac:(lia)) as Hc.
    pose proof (proj1 (Forall_nth _ 0 value) Bvalue (S t) ltac:(lia)) as Hv.
    cbv beta in Hr, Hc, Hv.
    set (r := nth t rew 0) in *. set (c := nth (S t) cont 0) in *.
    set (v := nth (S t) value 0) in *.
    assert (Hcg : 0 <= c * gamma <= gamma) by nra.
    split; [nra|].
    assert (Hterm : Rabs (c * gamma * v * (1 - lam)) <= c * gamma * (1 - lam) * B).
    { replace (c * gamma * v * (1 - lam)) with (c * gamma * (1 - lam) * v) by ring.
      assert (0 <= c * gamma * (1 - lam)) by nra.
      rewrite Rabs_mult, (Rabs_right (c * gamma * (1 - lam))) by lra.
      apply Rmult_le_compat_l; lra. }
    pose proof (Rabs_triang r (c * gamma * v * (1 - lam))) as Htri.
    assert (c * gamma * B <= gamma * B) by nra.
    nra.
Qed.

Lemma score_bounded_witness :
  exists ret,
    score (mkVConfig 2 (1 / 2)) [1; 1] [1; 1; 1] [0; 0; 0] 3
    = Ok ([1; 1], ret, [0; 0]) /\ length ret = 2%nat /\
    Forall (fun x => Rabs x <= 2 * 1) ret.
Proof.
  apply (score_bounded (mkVConfig 2 (1 / 2)) 2 [1; 1] [1; 1; 1] [0; 0; 0] 1);
    simpl; try lra; try lia; try reflexivity.
  - repeat apply Forall_cons_2; try apply Forall_nil_2; rewrite Rabs_R1; lra.
  - repeat apply Forall_cons_2; try apply Forall_nil_2; lra.
  - repeat apply Forall_cons_2; try apply Forall_nil_2; rewrite Rabs_R0; lra.
Defined.

Lemma backward_nth_ret lam v l t :
  (t < length l)%nat ->
  nth t (backward lam v l) 0
  = fst (nth t l (0, 0)) + snd (nth t l (0, 0)) * lam
      * nth (S t) (backward lam v l ++ [v]) 0.
Proof.
  intros Ht. rewrite <- backward_nth by exact Ht.
  by rewrite app_nth1 by (rewrite backward_length; exact Ht).
Qed.

Lemma combine_interm_lambda_one (gamma : R) (H : nat) (rew cont value : list R) :
  length rew = H -> length cont = S H -> length value = S H ->
  let disc := map (fun c => c * gamma) (tl cont) in
  zip_with Rplus rew
           (map (fun x => x * (1 - 1)) (zip_with Rmult disc (tl value)))
  = rew.
Proof.
  intros Hrew Hcont Hvalue disc. apply zip_with_plus_zero.
  unfold disc. rewrite length_zip_with, length_map, !length_tl, Hcont, Hvalue.
  simpl. lia.
Qed.

(** X12. Special cases of the lambda-return of [VFunction.score]: a step
    whose successor has continuation flag zero gets exactly its reward (no
    value leaks across an episode end); with [return_lambda = 0] every return
    is the one-step target [rew[t] + disc[t] * value[t+1]]; and with
    [return_lambda = 1] the returns depend on the value predictions only
    through the final bootstrap value [value[-1]]. *)
Theorem score_special_cases (cfg : VConfig) (H : nat) (rew cont value : list R) :
  horizon cfg <> 0 -> (1 <= H)%nat ->
  length rew = H -> length cont = S H -> length value = S H ->
  let gamma := 1 - 1 / horizon cfg in
  exists ret,
    score cfg rew cont value (S H) = Ok (rew, ret, removelast value) /\
    (forall t, (t < H)%nat -> nth (S t) cont 0 = 0 ->
               nth t ret 0 = nth t rew 0) /\
    (return_lambda cfg = 0 ->
     forall t, (t < H)%nat ->
       nth t ret 0 = nth t rew 0 + nth (S t) cont 0 * gamma * nth (S t) value 0) /\
    (return_lambda cfg = 1 ->
     forall value', length value' = S H -> nth H value' 0 = nth H value 0 ->
       score cfg rew cont value' (S H) = Ok (rew, ret, removelast value')).
Proof.
  intros Hh Hpos Hrew Hcont Hvalue gamma.
  destruct (score_backward cfg H rew cont value Hh Hpos Hrew Hcont Hvalue)
    as (Hscore & Hdisc & Hinterm).
  fold gamma in Hscore, Hdisc, Hinterm.
  eexists. split; [exact Hscore|].
  split; [|split].
  - intros t Ht Hc.
    rewrite backward_nth_ret by (rewrite length_combine; lia).
    rewrite (score_interm_nth (return_lambda cfg) gamma H t) by (done || lia).
    cbn [fst snd]. rewrite Hc. ring.
  - intros Hlam t Ht.
    rewrite backward_nth_ret by (rewrite length_combine; lia).
    rewrite (score_interm_nth (return_lambda cfg) gamma H t) by (done || lia).
    cbn [fst snd]. rewrite Hlam. ring.
  - intros Hlam value' Hvalue' Hlast.
    destruct (score_backward cfg H rew cont value' Hh Hpos Hrew Hcont Hvalue')
      as (Hscore' & _ & _).
    fold gamma in Hscore'. rewrite Hscore', Hlast, Hlam.
    rewrite !(combine_interm_lambda_one gamma H) by done.
    reflexivity.
Qed.

Lemma score_special_cases_witness :
  exists ret,
    score (mkVConfig 2 0) [1; 1] [1; 1; 0] [5; 6; 7] 3 = Ok ([1; 1], ret, [5; 6]) /\
    (forall t, (t < 2)%nat -> nth (S t) [1; 1; 0] 0 = 0 ->
               nth t ret 0 = nth t [1; 1] 0).
Proof.
  destruct (score_special_cases (mkVConfig 2 0) 2 [1; 1] [1; 1; 0] [5; 6; 7])
    as (ret & Hs & Hcut & _); simpl; try lra; try lia; try reflexivity.
  exists ret. split; assumption.
Defined.

(** ** [polyak_averaging]: the key set of the destination *)

Lemma polyak_entry_keys mix (dst dst' : gmap string param) k v :
  polyak_entry mix dst k v = Ok dst' ->
  dom dst' = dom dst /\
  ((forall e, v <> EquivariantModule e) -> is_Some (dst !! k)).
Proof.
  unfold polyak_entry. intros Hentry.
  destruct v as [s|w b|e].
  - destruct (dst !! k) as [[d|dw db|de]|] eqn:Hk; try discriminate.
    destruct (blend mix s d) as [r|err]; [|discriminate].
    simpl in Hentry. injection Hentry as <-. split; [|by eauto].
    apply dom_insert_lookup_L. by rewrite Hk.
  - destruct (dst !! k) as [[d|dw db|de]|] eqn:Hk; try discriminate.
    destruct (blend mix w dw) as [w'|err]; [|discriminate].
    destruct (blend mix b db) as [b'|err]; [|discriminate].
    simpl in Hentry. injection Hentry as <-. split; [|by eauto].
    apply dom_insert_lookup_L. by rewrite Hk.
  - injection Hentry as <-. split; [done|].
    intros Hne. by destruct (Hne e).
Qed.

Lemma polyak_fold_raise mix (l : list (string * param)) (err : exn) :
  foldl (fun acc kv => d ← acc; polyak_entry mix d kv.1 kv.2) (Raise err) l
  = Raise err.
Proof. induction l as [|kv l IH]; [done|]. simpl. exact IH. Qed.

Lemma polyak_fold_keys mix (l : list (string * param))
      (dst dst' : gmap string param) :
  foldl (fun acc kv => d ← acc; polyak_entry mix d kv.1 kv.2) (Ok dst) l
  = Ok dst' ->
  dom dst' = dom dst /\
  (forall k v, (k, v) ∈ l -> (forall e, v <> EquivariantModule e) ->
               k ∈ dom dst).
Proof.
  revert dst. induction l as [|[k0 v0] l IH]; intros dst Hfold.
  - simpl in Hfold. injection Hfold as <-. split; [done|].
    intros k v Hin. by apply elem_of_nil in Hin.
  - simpl in Hfold.
    destruct (polyak_entry mix dst k0 v0) as [d1|err] eqn:Hentry.
    + destruct (polyak_entry_keys mix dst d1 k0 v0 Hentry) as [Hdom Hk0].
      destruct (IH d1 Hfold) as [Hdom' Hin']. split; [by rewrite Hdom'|].
      intros k v Hin Hne. apply elem_of_cons in Hin as [[= -> ->]|Hin].
      * apply elem_of_dom. by apply Hk0.
      * rewrite <- Hdom. by apply (Hin' k v).
    + change (Raise err ≫= _) with (@Raise (gmap string param) err) in Hfold.
      by rewrite polyak_fold_raise in Hfold.
Qed.

(** X13. [polyak_averaging] never adds or removes a destination key: when it
    returns, the destination has exactly the keys it had before; and it
    cannot return when a source entry that is not a skipped equivariant
    module has no counterpart in the destination: it raises instead. *)
Theorem polyak_averaging_keys (src dst : gmap string param) (mix : R) :
  (forall dst', polyak_averaging src dst mix = Ok dst' -> dom dst' = dom dst) /\
  (forall k v, src !! k = Some v -> (forall e, v <> EquivariantModule e) ->
               dst !! k = None ->
               exists err, polyak_averaging src dst mix = Raise err).
Proof.
  unfold polyak_averaging. split.
  - intros dst' Hfold. by destruct (polyak_fold_keys _ _ _ _ Hfold).
  - intros k v Hk Hne Hnone.
    destruct (foldl _ _ _) as [dst'|err] eqn:Hfold; [|by exists err].
    destruct (polyak_fold_keys _ _ _ _ Hfold) as [_ Hin].
    assert (k ∈ dom dst) as Hdom.
    { apply (Hin k v); [|exact Hne]. by apply elem_of_map_to_list. }
    apply elem_of_dom in Hdom as [d Hd]. congruence.
Qed.

Lemma polyak_averaging_keys_witness :
  exists err, polyak_averaging src_tree ∅ (1 / 2) = Raise err.
Proof.
  destruct (polyak_averaging_keys src_tree ∅ (1 / 2)) as [_ Hmissing].
  apply (Hmissing "w" (Tree [1])).
  - unfold src_tree. by rewrite lookup_singleton_eq.
  - intros e. discriminate.
  - apply lookup_empty.
Defined.

(** ** [polyak_averaging]: repeated averaging *)

Lemma zip_with_blend_compose (mix m : R) (s d : list R) :
  zip_with (fun x y => mix * x + (1 - mix) * y) s
           (zip_with (fun x y => m * x + (1 - m) * y) s d)
  = zip_with (fun x y => (1 - (1 - mix) * (1 - m)) * x
                         + (1 - (1 - (1 - mix) * (1 - m))) * y) s d.
Proof.
  revert d. induction s as [|x s IH]; intros [|y d]; simpl; try done.
  rewrite IH. f_equal. ring.
Qed.

Lemma blended_compose (mix m : R) (v d : param) :
  same_shape v d ->
  blended mix v (blended m v d) = blended (1 - (1 - mix) * (1 - m)) v d.
Proof.
  destruct v as [s|w b|e], d as [s'|w' b'|e']; simpl; try done.
  - intros _. by rewrite zip_with_blend_compose.
  - intros _. by rewrite !zip_with_blend_compose.
Qed.

Lemma same_shape_blended (m : R) (v d : param) :
  same_shape v d -> same_shape v (blended m v d).
Proof.
  destruct v as [s|w b|e], d as [s'|w' b'|e']; simpl; try done.
  - intros Hlen. rewrite length_zip_with. lia.
  - intros [Hw Hb]. rewrite !length_zip_with. lia.
Qed.

(** X14. Repeated averaging composes: when the destination holds every source
    entry with the same kind and shapes, [n] successive calls of
    [polyak_averaging] with the same source and the same [mix] succeed and
    give exactly the result of a single call with mix [1 - (1 - mix)^n], so
    the distance of the destination to the source shrinks by the factor
    [1 - mix] with every call. *)
Theorem polyak_averaging_iterated (src dst : gmap string param) (mix : R)
        (n : nat) :
  (forall k v, src !! k = Some v ->
               exists d, dst !! k = Some d /\ same_shape v d) ->
  exists dst_n,
    polyak_averaging_iter src mix n dst = Ok dst_n /\
    polyak_averaging src dst (1 - (1 - mix) ^ n) = Ok dst_n.
Proof.
  intros Hshape. induction n as [|n IH].
  - destruct (polyak_averaging_spec (1 - (1 - mix) ^ 0) src dst Hshape)
      as (dst0 & Hpolyak & Hl).
    exists dst. split; [done|]. rewrite Hpolyak. f_equal.
    apply map_eq. intros k. rewrite Hl.
    destruct (src !! k) as [v|] eqn:Hv; [|done].
    destruct (Hshape k v Hv) as (d & Hd & Hs). rewrite Hd. f_equal.
    simpl. replace (1 - 1) with 0 by ring.
    rewrite blended_zero by exact Hs. reflexivity.
  - destruct IH as (dst_n & Hiter & Hone).
    destruct (polyak_averaging_spec (1 - (1 - mix) ^ n) src dst Hshape)
      as (dst_n' & Hpolyak & Hl).
    assert (dst_n' = dst_n) as -> by congruence.
    assert (Hshape_n : forall k v, src !! k = Some v ->
               exists d, dst_n !! k = Some d /\ same_shape v d).
    { intros k v Hv. destruct (Hshape k v Hv) as (d & Hd & Hs).
      exists (blended (1 - (1 - mix) ^ n) v d). rewrite Hl, Hv, Hd.
      split; [done|]. by apply same_shape_blended. }
    destruct (polyak_averaging_spec mix src dst_n Hshape_n)
      as (dst_S & Hstep & HlS).
    destruct (polyak_averaging_spec (1 - (1 - mix) ^ S n) src dst Hshape)
      as (dst_1 & Hsingle & Hl1).
    exists dst_S. split.
    + change (polyak_averaging_iter src mix (S n) dst)
        with (polyak_averaging_iter src mix n dst
                ≫= fun d => polyak_averaging src d mix).
      rewrite Hiter. exact Hstep.
    + rewrite Hsingle. f_equal. apply map_eq. intros k.
      rewrite Hl1, HlS, Hl.
      destruct (src !! k) as [v|] eqn:Hv; [|done].
      destruct (Hshape k v Hv) as (d & Hd & Hs). rewrite Hd. f_equal.
      rewrite blended_compose by exact Hs. f_equal. simpl. ring.
Qed.

Lemma polyak_averaging_iterated_witness :
  exists dst_n,
    polyak_averaging_iter src_tree (1 / 2) 3 dst_tree = Ok dst_n /\
    polyak_averaging src_tree dst_tree (1 - (1 - 1 / 2) ^ 3) = Ok dst_n.
Proof.
  apply (polyak_averaging_iterated src_tree dst_tree (1 / 2) 3).
  intros k v Hv. unfold src_tree, dst_tree in *.
  destruct (decide (k = "w")) as [->|Hne].
  - rewrite lookup_singleton_eq in Hv. injection Hv as <-.
    exists (Tree [0]). by rewrite lookup_singleton_eq.
  - by rewrite lookup_singleton_ne in Hv.
Defined.

(** ** [Moments.update]: running statistics *)

Lemma fold_left_Rmin_le (rest : list R) (a : R) :
  fold_left Rmin rest a <= a /\
  Forall (fun v => fold_left Rmin rest a <= v) rest.
Proof.
  revert a. induction rest as [|b rest IH]; intros a; simpl.
  - split; [lra|constructor].
  - destruct (IH (Rmin a b)) as [Hle Hall].
    pose proof (Rmin_l a b). pose proof (Rmin_r a b).
    split; [lra|]. constructor; [lra|exact Hall].
Qed.

Lemma fold_left_Rmax_ge (rest : list R) (a : R) :
  a <= fold_left Rmax rest a /\
  Forall (fun v => v <= fold_left Rmax rest a) rest.
Proof.
  revert a. induction rest as [|b rest IH]; intros a; simpl.
  - split; [lra|constructor].
  - destruct (IH (Rmax a b)) as [Hle Hall].
    pose proof (Rmax_l a b). pose proof (Rmax_r a b).
    split; [lra|]. constructor; [lra|exact Hall].
Qed.

Lemma min_list_spec (x : list R) :
  x <> [] -> exists lo, min_list x = Ok lo /\ Forall (fun v => lo <= v) x.
Proof.
  destruct x as [|a rest]; [done|]. intros _. eexists. split; [reflexivity|].
  destruct (fold_left_Rmin_le rest a). by constructor.
Qed.

Lemma max_list_spec (x : list R) :
  x <> [] -> exists hi, max_list x = Ok hi /\ Forall (fun v => v <= hi) x.
Proof.
  destruct x as [|a rest]; [done|]. intros _. eexists. split; [reflexivity|].
  destruct (fold_left_Rmax_ge rest a). by constructor.
Qed.

Lemma Forall_normalize (P : R -> Prop) (x : list R) (offset invscale : R) :
  Forall (fun v => P ((v - offset) / invscale)) x ->
  Forall P (normalize x offset invscale).
Proof. intros H. unfold normalize. by apply Forall_map. Qed.

Lemma ratio_unit a s : 0 < s -> 0 <= a <= s -> 0 <= a / s <= 1.
Proof.
  intros Hs Ha. pose proof (Rinv_0_lt_compat s Hs) as Hinv. split.
  - apply Rmult_le_pos; lra.
  - apply (Rmult_le_reg_r s); [exact Hs|].
    unfold Rdiv. rewrite Rmult_assoc, Rinv_l by lra. lra.
Qed.

(** X15. Normalizing a batch by the statistics it has just updated keeps it
    in range, whatever the earlier state of the normalizer: for decay in
    [[0, 1]], [max > 0] and a non-empty batch [x], [Moments.__call__] with
    [impl = "min_max"] returns an offset and a scale under which every
    element of [x] is normalized into [[0, 1]], and with [impl = "max_mag"]
    into [[-1, 1]]. *)
Theorem moments_call_range (per : list R -> R -> R) (perclo perchi : R)
        (mo : Moments) (x : list R) :
  0 <= m_decay mo <= 1 -> 0 < m_max mo -> x <> [] ->
  (m_impl mo = impl_min_max ->
   exists mo' (offset invscale : R),
     Moments_call per perclo perchi mo x
     = Ok (mo', (XFin offset, XFin invscale)) /\
     0 < invscale /\
     Forall (fun v => 0 <= v <= 1) (normalize x offset invscale)) /\
  (m_impl mo = impl_max_mag ->
   exists mo' (offset invscale : R),
     Moments_call per perclo perchi mo x
     = Ok (mo', (XFin offset, XFin invscale)) /\
     0 < invscale /\
     Forall (fun v => -1 <= v <= 1) (normalize x offset invscale)).
Proof.
  intros Hm Hmax Hx.
  pose proof (inv_max_pos _ Hmax) as Hinv.
  split; intros Himpl.
  - destruct (min_list_spec x Hx) as (lo & Hlo & Hlo_all).
    destruct (max_list_spec x Hx) as (hi & Hhi & Hhi_all).
    unfold Moments_call, Moments_update. rewrite Himpl, Hlo, Hhi.
    rewrite !bind_Ok. unfold Moments_stats. cbn [m_impl m_max m_low m_high].
    rewrite ?Himpl. destruct (Req_dec_T (m_max mo) 0) as [E|_]; [lra|].
    rewrite bind_Ok. do 3 eexists. split; [reflexivity|].
    set (m := m_decay mo) in *.
    set (low' := m * Rmin (m_low mo) lo + (1 - m) * lo).
    set (high' := m * Rmax (m_high mo) hi + (1 - m) * hi).
    assert (Hlow : low' <= lo).
    { unfold low'. pose proof (Rmin_r (m_low mo) lo). nra. }
    assert (Hhigh : hi <= high').
    { unfold high'. pose proof (Rmax_r (m_high mo) hi). nra. }
    pose proof (Rmax_l (1 / m_max mo) (high' - low')) as Hs1.
    pose proof (Rmax_r (1 / m_max mo) (high' - low')) as Hs2.
    split; [lra|].
    apply Forall_normalize.
    rewrite Forall_forall in Hlo_all, Hhi_all. apply Forall_forall. intros v Hv.
    specialize (Hlo_all v Hv). specialize (Hhi_all v Hv).
    apply ratio_unit; lra.
  - assert (Hxabs : map Rabs x <> []) by (destruct x; done).
    destruct (max_list_spec (map Rabs x) Hxabs) as (curr & Hcurr & Hcurr_all).
    unfold Moments_call, Moments_update. rewrite Himpl, Hcurr.
    rewrite !bind_Ok. unfold Moments_stats. cbn [m_impl m_max m_mag].
    rewrite ?Himpl. destruct (Req_dec_T (m_max mo) 0) as [E|_]; [lra|].
    rewrite bind_Ok. do 3 eexists. split; [reflexivity|].
    set (m := m_decay mo) in *.
    set (mag' := m * Rmax (m_mag mo) curr + (1 - m) * curr).
    assert (Hmag : curr <= mag').
    { unfold mag'. pose proof (Rmax_r (m_mag mo) curr). nra. }
    pose proof (Rmax_l (1 / m_max mo) mag') as Hs1.
    pose proof (Rmax_r (1 / m_max mo) mag') as Hs2.
    split; [lra|].
    apply Forall_normalize.
    rewrite Forall_map, Forall_forall in Hcurr_all.
    apply Forall_forall. intros v Hv. specialize (Hcurr_all v Hv).
    simpl in Hcurr_all.
    set (s := Rmax (1 / m_max mo) mag') in *.
    assert (Hs : 0 < s) by lra.
    pose proof (Rinv_0_lt_compat s Hs) as Hsinv.
    replace (v - 0) with v by ring.
    assert (Habs : Rabs (v / s) <= 1).
    { unfold Rdiv. rewrite Rabs_mult, (Rabs_right (/ s)) by lra.
      apply (Rmult_le_reg_r s); [exact Hs|].
      rewrite Rmult_assoc, Rinv_l by lra. lra. }
    unfold Rabs in Habs. destruct (Rcase_abs (v / s)); lra.
Qed.

Lemma moments_call_range_witness :
  exists mo' (offset invscale : R),
    Moments_call (fun _ _ => 0) 5 95
                 (mkMoments impl_min_max (99 / 100) 100000000 0 0 0 0 0 0 0)
                 [3; 1; 2]
    = Ok (mo', (XFin offset, XFin invscale)) /\
    0 < invscale /\
    Forall (fun v => 0 <= v <= 1) (normalize [3; 1; 2] offset invscale).
Proof.
  destruct (moments_call_range (fun _ _ => 0) 5 95
              (mkMoments impl_min_max (99 / 100) 100000000 0 0 0 0 0 0 0)
              [3; 1; 2]) as [Hminmax _]; simpl; try lra; try done.
  by apply Hminmax.
Defined.

Lemma pow_lt_one (d : R) (n : nat) : 0 <= d < 1 -> (1 <= n)%nat -> d ^ n < 1.
Proof.
  intros Hd Hn. destruct n as [|n]; [lia|]. simpl.
  assert (d ^ n <= 1).
  { rewrite <- (pow1 n). apply pow_incr. lra. }
  assert (0 <= d ^ n) by (apply pow_le; lra). nra.
Qed.

Lemma moments_updates_mean_std (per : list R -> R -> R) (perclo perchi : R)
      (mu q : R) (xs : list (list R)) (mo : Moments) (k : nat) :
  m_impl mo = impl_mean_std ->
  m_step mo = Z.of_nat k ->
  (Z.of_nat (k + length xs) < 2 ^ 31)%Z ->
  m_mean mo = (1 - m_decay mo ^ k) * mu ->
  m_sqrs mo = (1 - m_decay mo ^ k) * q ->
  Forall (fun x => x <> [] /\ mean_list x = mu /\
                   mean_list (map (fun v => v * v) x) = q) xs ->
  exists mo',
    Moments_updates per perclo perchi mo xs = Ok mo' /\
    m_impl mo' = impl_mean_std /\ m_decay mo' = m_decay mo /\
    m_max mo' = m_max mo /\ m_eps mo' = m_eps mo /\
    m_step mo' = Z.of_nat (k + length xs) /\
    m_mean mo' = (1 - m_decay mo ^ (k + length xs)) * mu /\
    m_sqrs mo' = (1 - m_decay mo ^ (k + length xs)) * q.
Proof.
  intros Himpl Hstep Hlen Hmean Hsqrs Hxs. revert mo k Himpl Hstep Hlen Hmean Hsqrs.
  induction Hxs as [|x xs (_ & Hmu & Hq) Hxs IH];
    intros mo k Himpl Hstep Hlen Hmean Hsqrs.
  - exists mo. rewrite Nat.add_0_r. by repeat split.
  - unfold Moments_updates. cbn [foldl]. rewrite bind_Ok.
    unfold Moments_update at 2. rewrite Himpl.
    set (mo1 := mkMoments _ _ _ _ _ _ _ _ _ _).
    simpl length in Hlen.
    destruct (IH mo1 (S k)) as (mo' & Hrun & H1 & H2 & H3 & H4 & H5 & H6 & H7).
    + reflexivity.
    + unfold mo1. cbn [m_step]. rewrite Hstep.
      rewrite wrap32_id by (unfold int32_range; lia). lia.
    + lia.
    + unfold mo1. cbn [m_mean m_decay]. rewrite Hmean, Hmu. simpl. ring.
    + unfold mo1. cbn [m_sqrs m_decay]. rewrite Hsqrs, Hq. simpl. ring.
    + exists mo'. split; [exact Hrun|].
      replace (k + length (x :: xs))%nat with (S k + length xs)%nat
        by (simpl; lia).
      by repeat split.
Qed.

(** X16. Bias correction of the [mean_std] normalizer: starting from the
    constructor's zero state with decay in [[0, 1)], after any positive
    number [n] of updates on non-empty batches that all have mean [mu] and
    mean square [q], [stats()] returns exactly [mu] as the mean, while the
    variance under the square root is [q - ((1 - decay^n) * mu)^2]: the
    second moment is bias-corrected but the mean subtracted from it is
    not.  The scale is the square root of that variance, floored at
    [1 / max^2], plus [eps]. *)
Theorem moments_mean_std_debiased (per : list R -> R -> R) (perclo perchi : R)
        (decay max eps mu q : R) (xs : list (list R)) :
  0 <= decay < 1 -> max <> 0 -> xs <> [] ->
  (Z.of_nat (length xs) < 2 ^ 31)%Z ->
  Forall (fun x => x <> [] /\ mean_list x = mu /\
                   mean_list (map (fun v => v * v) x) = q) xs ->
  exists mo,
    Moments_updates per perclo perchi (Moments_mean_std_init decay max eps) xs
    = Ok mo /\
    m_step mo = Z.of_nat (length xs) /\
    Moments_stats mo
    = Ok (XFin mu,
          xsqrt (XFin (Rmax (q - ((1 - decay ^ length xs) * mu) ^ 2)
                            (1 / max ^ 2)
                       + eps))).
Proof.
  intros Hd Hmax Hne Hlen Hxs.
  destruct (moments_updates_mean_std per perclo perchi mu q xs
              (Moments_mean_std_init decay max eps) 0)
    as (mo & Hrun & Himpl & Hdecay & Hmx & Heps & Hstep & Hmean & Hsqrs);
    try done; try (simpl; ring).
  simpl in Hdecay, Hmx, Heps, Hstep, Hmean, Hsqrs.
  exists mo. split; [exact Hrun|]. split; [exact Hstep|].
  unfold Moments_stats. rewrite Himpl, Hmx, Heps, Hdecay, Hstep, Hmean, Hsqrs.
  destruct (Req_dec_T max 0) as [E|_]; [done|].
  rewrite <- pow_powerRZ.
  assert (Hpow : decay ^ length xs < 1).
  { apply pow_lt_one; [exact Hd|]. destruct xs; [done|simpl; lia]. }
  rewrite !xdiv_finite by lra. cbn [xsub xmaximum xadd].
  f_equal. f_equal; [f_equal; field; lra|].
  f_equal. f_equal. f_equal. f_equal. field. lra.
Qed.

Lemma moments_mean_std_debiased_witness :
  exists mo,
    Moments_updates (fun _ _ => 0) 5 95
                    (Moments_mean_std_init (99 / 100) 100000000 0) [[2]; [2]]
    = Ok mo /\
    m_step mo = Z.of_nat (length [[2]; [2]]) /\
    Moments_stats mo
    = Ok (XFin 2,
          xsqrt (XFin (Rmax (4 - ((1 - (99 / 100) ^ length [[2]; [2]]) * 2) ^ 2)
                            (1 / 100000000 ^ 2)
                       + 0))).
Proof.
  apply (moments_mean_std_debiased (fun _ _ => 0) 5 95 (99 / 100) 100000000 0
                                   2 4 [[2]; [2]]);
    try lra; try done.
  repeat apply Forall_cons_2; try apply Forall_nil_2;
    unfold mean_list; simpl; (split; [done|split; field]).
Defined.

(** ** [WorldModel.imagine]: the loss weights *)

Lemma imagine_weight_eq {T : Type} (wm : WorldModel T)
      (policy : gmap string T -> T) (start : gmap string T) (horizon : nat)
      (traj : Trajectory T) :
  imagine wm policy start horizon = Ok traj ->
  config_horizon wm <> 0 /\
  traj_weight traj
  = map (fun w => w / (1 - 1 / config_horizon wm))
        (cumprod (map (fun c => (1 - 1 / config_horizon wm) * c)
                      (traj_cont traj))).
Proof.
  unfold imagine. intros Him.
  destruct (start !! "is_terminal") as [terminal|]; [|discriminate].
  destruct (scan _ _ _ _) as [tr|err]; [|discriminate].
  rewrite bind_Ok in Him.
  destruct (prepend_start _ tr) as [tr'|err]; [|discriminate].
  rewrite bind_Ok in Him.
  destruct (Req_dec_T (config_horizon wm) 0) as [E|Hne]; [discriminate|].
  injection Him as <-. split; [exact Hne|reflexivity].
Qed.

Lemma prod_list_unit (l : list R) :
  Forall (fun c => 0 <= c <= 1) l -> 0 <= prod_list l <= 1.
Proof.
  induction 1 as [|c l Hc Hl IH]; simpl; [lra|]. nra.
Qed.

Lemma prod_take_succ (l : list R) (n : nat) :
  (n < length l)%nat ->
  prod_list (take (S n) l) = prod_list (take n l) * nth n l 0.
Proof.
  revert n. induction l as [|x l IH]; intros n Hn; simpl in *; [lia|].
  destruct n as [|n]; [destruct l; simpl; ring|].
  change (x * prod_list (take (S n) l) = x * prod_list (take n l) * nth n l 0).
  rewrite IH by lia. ring.
Qed.

Lemma prod_take_zero (l : list R) (s n : nat) :
  (s < n)%nat -> (s < length l)%nat -> nth s l 0 = 0 ->
  prod_list (take n l) = 0.
Proof.
  revert s n. induction l as [|x l IH]; intros s n Hs Hlen H0; simpl in *; [lia|].
  destruct n as [|n]; [lia|]. simpl.
  destruct s as [|s]; [subst x; ring|].
  rewrite (IH s n) by (lia || done). ring.
Qed.

(** X17. The loss weights of an imagined trajectory: whenever
    [WorldModel.imagine] returns with [config.horizon > 1] and continuation
    values in [[0, 1]], there is one weight per step, the first weight is the
    first continuation value, every weight lies in [[0, 1]], each weight is at
    most the discount [1 - 1/config.horizon] times its predecessor, and all
    steps from a step with continuation zero onwards have weight zero. *)
Theorem imagine_weights {T : Type} (wm : WorldModel T)
        (policy : gmap string T -> T) (start : gmap string T) (horizon : nat)
        (traj : Trajectory T) :
  imagine wm policy start horizon = Ok traj ->
  1 < config_horizon wm ->
  Forall (fun c => 0 <= c <= 1) (traj_cont traj) ->
  let cont := traj_cont traj in
  let weight := traj_weight traj in
  let discount := 1 - 1 / config_horizon wm in
  length weight = length cont /\
  nth 0 weight 0 = nth 0 cont 0 /\
  (forall t, (t < length cont)%nat -> 0 <= nth t weight 0 <= 1) /\
  (forall t, (S t < length cont)%nat ->
             nth (S t) weight 0 <= discount * nth t weight 0) /\
  (forall s t, (s <= t)%nat -> (t < length cont)%nat -> nth s cont 0 = 0 ->
               nth t weight 0 = 0).
Proof.
  intros Him Hh Hcont cont weight discount.
  destruct (imagine_weight_eq wm policy start horizon traj Him) as [Hne Hw].
  fold discount in Hw. fold cont in Hw, Hcont. fold weight in Hw.
  assert (Hd : 0 < discount < 1).
  { unfold discount. assert (0 < / config_horizon wm < 1).
    { split; [apply Rinv_0_lt_compat; lra|].
      rewrite <- Rinv_1. apply Rinv_lt_contravar; lra. }
    lra. }
  assert (Hnth : forall t, (t < length cont)%nat ->
             nth t weight 0 = discount ^ t * prod_list (take (S t) cont)).
  { intros t Ht. rewrite Hw. apply weight_nth; [lra|exact Ht]. }
  assert (Hprod : forall n, 0 <= prod_list (take n cont) <= 1).
  { intros n. apply prod_list_unit. by apply Forall_take. }
  assert (Hpow : forall t, 0 <= discount ^ t <= 1).
  { intros t. split; [apply pow_le; lra|].
    rewrite <- (pow1 t). apply pow_incr. lra. }
  split; [|split; [|split; [|split]]].
  - rewrite Hw, length_map. unfold cumprod.
    by rewrite cumprod_from_length, length_map.
  - destruct cont as [|c cont'] eqn:Econt.
    + rewrite Hw. reflexivity.
    + rewrite Hnth by (simpl; lia). simpl. destruct cont'; simpl; ring.
  - intros t Ht. rewrite Hnth by exact Ht.
    specialize (Hprod (S t)). specialize (Hpow t). nra.
  - intros t Ht. rewrite !Hnth by lia.
    rewrite (prod_take_succ cont (S t)) by lia.
    pose proof (proj1 (Forall_nth _ 0 cont) Hcont (S t) Ht) as Hc.
    cbv beta in Hc. specialize (Hprod (S t)). specialize (Hpow t).
    set (c := nth (S t) cont 0) in *. set (P := prod_list (take (S t) cont)) in *.
    simpl pow. assert (0 <= discount ^ t * P) by nra.
    assert (discount * (discount ^ t * P) * c <= discount * (discount ^ t * P)).
    { assert (0 <= discount * (discount ^ t * P)) by nra. nra. }
    nra.
  - intros s t Hst Ht H0. rewrite Hnth by exact Ht.
    rewrite (prod_take_zero cont s (S t)) by (lia || done). ring.
Qed.

Lemma imagine_example_ok :
  exists traj,
    imagine wm_example policy_example start_example 1 = Ok traj /\
    traj_cont traj = [1 - 0; 1].
Proof.
  unfold imagine.
  assert (Hterm : start_example !! "is_terminal" = Some 0%Z).
  { unfold start_example. rewrite lookup_insert_ne by done.
    by rewrite lookup_insert_eq. }
  rewrite Hterm.
  destruct (scan _ _ _ _) as [tr|err] eqn:Hscan; [|by vm_compute in Hscan].
  rewrite bind_Ok.
  destruct (prepend_start _ tr) as [tr'|err] eqn:Hpre.
  - rewrite bind_Ok.
    destruct (Req_dec_T (config_horizon wm_example) 0) as [E|_];
      [simpl in E; lra|].
    eexists. split; [reflexivity|]. reflexivity.
  - exfalso. vm_compute in Hscan. injection Hscan as <-.
    by vm_compute in Hpre.
Qed.

Lemma imagine_weights_witness :
  exists traj,
    imagine wm_example policy_example start_example 1 = Ok traj /\
    nth 0 (traj_weight traj) 0 = nth 0 (traj_cont traj) 0.
Proof.
  destruct imagine_example_ok as (traj & Hok & Hcont).
  exists traj. split; [exact Hok|].
  apply (imagine_weights wm_example policy_example start_example 1 traj Hok).
  - simpl. lra.
  - rewrite Hcont. repeat apply Forall_cons_2; try apply Forall_nil_2; lra.
Defined.

(** ** [jaxutils.scan], unrolled: shape and recurrence of the result *)

Section ScanShape.
Context {T X : Type}.
Implicit Types (fn : gmap string T -> X -> result (gmap string T)).
Implicit Types (start carry : gmap string T) (inputs : list X).

Lemma sequential_chain fn carry inputs final (outs : list (gmap string T)) :
  sequential (fn2 fn) carry inputs = Ok (final, outs) ->
  forall t inp, inputs !! t = Some inp ->
    exists prev out,
      outs !! t = Some out /\ fn prev inp = Ok out /\
      match t with
      | O => prev = carry
      | S t' => outs !! t' = Some prev
      end.
Proof.
  revert carry final outs. induction inputs as [|inp0 rest IH];
    intros carry final outs Hseq t inp Ht; [done|].
  change (sequential (fn2 fn) carry (inp0 :: rest))
    with (fn2 fn carry inp0 ≫= fun r =>
          sequential (fn2 fn) r.1 rest ≫= fun r' => Ok (r'.1, r.2 :: r'.2))
    in Hseq.
  destruct (fn carry inp0) as [out0|e] eqn:Hfn.
  2:{ assert (fn2 fn carry inp0 = Raise e) as Hstep
        by (unfold fn2; by rewrite Hfn).
      by rewrite Hstep in Hseq. }
  assert (fn2 fn carry inp0 = Ok (out0, out0)) as Hstep
    by (unfold fn2; by rewrite Hfn).
  rewrite Hstep, bind_Ok in Hseq. cbn [fst snd] in Hseq.
  destruct (sequential (fn2 fn) out0 rest) as [[final' outs']|e] eqn:Hrest;
    [|by simpl in Hseq].
  rewrite bind_Ok in Hseq. cbn [fst snd] in Hseq. injection Hseq as <- <-.
  destruct t as [|t].
  - simpl in Ht. injection Ht as <-. by exists carry, out0.
  - simpl in Ht.
    destruct (IH out0 final' outs' Hrest t inp Ht) as (prev & out & Ho & Hf & Hp).
    destruct t as [|t].
    + subst prev. by exists out0, out.
    + by exists prev, out.
Qed.

Lemma omap_lookup_step (outs : list (gmap string T)) k t :
  Forall (fun o => is_Some (o !! k)) outs ->
  omap (fun o : gmap string T => o !! k) outs !! t
  = outs !! t ≫= fun o => o !! k.
Proof.
  intros Hall. revert t. induction Hall as [|o outs [v Hv] Hall IH]; intros t.
  - done.
  - cbn. rewrite Hv. destruct t as [|t]; simpl; [by rewrite Hv|]. apply IH.
Qed.

Lemma time_slice_stack start (outs : list (gmap string T)) t o :
  Forall (fun o => tree_structure o = tree_structure start) outs ->
  outs !! t = Some o ->
  time_slice (stack_outputs start outs) t = o.
Proof.
  intros Hall Ho. apply map_eq. intros k. unfold time_slice.
  rewrite lookup_omap, stack_outputs_lookup.
  destruct (start !! k) as [s|] eqn:Hs.
  - simpl. rewrite omap_lookup_step; [by rewrite Ho|].
    eapply Forall_impl; [exact Hall|]. intros o' Ho'. simpl in Ho'.
    apply elem_of_dom. unfold tree_structure in Ho'. rewrite Ho'.
    apply elem_of_dom. by eexists.
  - simpl. symmetry. apply not_elem_of_dom.
    rewrite Forall_forall in Hall.
    pose proof (Hall o (list_elem_of_lookup_2 _ _ _ Ho)) as Hdom.
    unfold tree_structure in Hdom. rewrite Hdom. by apply not_elem_of_dom.
Qed.

(** X18. The unrolled [jaxutils.scan]: on an empty input sequence it raises
    [IndexError]; when it returns, the inputs were non-empty, the result has
    exactly the keys of [start], every stacked leaf has one entry per input,
    and the result obeys the scan recurrence: its step [0] is
    [fn(start, inputs[0])] and its step [t + 1] is [fn] applied to its step
    [t] and [inputs[t + 1]]. *)
Theorem scan_unrolled_shape fn inputs start :
  scan fn [] start true = Raise IndexError /\
  forall r, scan fn inputs start true = Ok r ->
    inputs <> [] /\
    dom r = dom start /\
    (forall k v, r !! k = Some v -> length v = length inputs) /\
    (forall t inp, inputs !! t = Some inp ->
       fn (match t with O => start | S t' => time_slice r t' end) inp
       = Ok (time_slice r t)).
Proof.
  split; [reflexivity|]. intros r Hr.
  destruct (scan_unrolled_inv fn inputs start r Hr)
    as (final & outs & Hne & Hseq & Hall).
  rewrite (scan_unrolled_sequential fn inputs start final outs Hne Hseq Hall)
    in Hr.
  injection Hr as <-.
  pose proof (sequential_length _ _ _ _ _ Hseq) as Hlen.
  split; [exact Hne|]. split; [apply stack_outputs_dom|]. split.
  - intros k v. rewrite stack_outputs_lookup.
    destruct (start !! k) as [s|] eqn:Hs; [|done]. intros [= <-].
    rewrite omap_lookup_all; [exact Hlen|].
    eapply Forall_impl; [exact Hall|]. intros o Ho. simpl in Ho.
    apply elem_of_dom. unfold tree_structure in Ho. rewrite Ho.
    apply elem_of_dom. by eexists.
  - intros t inp Ht.
    destruct (sequential_chain fn start inputs final outs Hseq t inp Ht)
      as (prev & out & Ho & Hf & Hp).
    rewrite (time_slice_stack start outs t out Hall Ho).
    destruct t as [|t].
    + by subst prev.
    + by rewrite (time_slice_stack start outs t prev Hall Hp).
Qed.
End ScanShape.

Lemma scan_unrolled_shape_witness :
  scan fn_example [] start_example true = Raise IndexError.
Proof. apply (scan_unrolled_shape fn_example [] start_example). Defined.

(** ** [train.per_episode]: episode statistics *)

Lemma discounted_score_cons (r : R) (rest : list R) :
  discounted_score (r :: rest) = r + 99 / 100 * discounted_score rest.
Proof.
  unfold discounted_score. simpl. by rewrite fold_left_app.
Qed.

Lemma discounted_score_sum (k : nat) (rewards : list R) :
  sum_list (imap (fun t r => (99 / 100) ^ (k + t) * r) rewards)
  = (99 / 100) ^ k * discounted_score rewards.
Proof.
  revert k. induction rewards as [|r rest IH]; intros k.
  - unfold discounted_score. simpl. ring.
  - rewrite discounted_score_cons. cbn [imap sum_list].
    rewrite (imap_ext _ (fun t r => (99 / 100) ^ (S k + t) * r))
      by (intros t x _; unfold compose; f_equal; f_equal; lia).
    rewrite IH, Nat.add_0_r. simpl. ring.
Qed.

Lemma discounted_score_abs (rewards : list R) :
  Rabs (discounted_score rewards) <= sum_list (map Rabs rewards).
Proof.
  induction rewards as [|r rest IH]; cbn [map sum_list].
  - unfold discounted_score. simpl. rewrite Rabs_R0. lra.
  - rewrite discounted_score_cons.
    pose proof (Rabs_triang r (99 / 100 * discounted_score rest)) as Htri.
    rewrite Rabs_mult, (Rabs_right (99 / 100)) in Htri by lra.
    pose proof (Rabs_pos (discounted_score rest)). lra.
Qed.

Lemma discounted_score_nonneg (rewards : list R) :
  Forall (fun r => 0 <= r) rewards ->
  0 <= discounted_score rewards <= sum_list rewards.
Proof.
  induction 1 as [|r rest Hr Hrest IH].
  - unfold discounted_score. simpl. lra.
  - rewrite discounted_score_cons. cbn [sum_list]. cbv beta in Hr. lra.
Qed.

Lemma sum_list_abs (l : list R) : Rabs (sum_list l) <= sum_list (map Rabs l).
Proof.
  induction l as [|x l IH]; simpl; [rewrite Rabs_R0; lra|].
  pose proof (Rabs_triang x (sum_list l)). lra.
Qed.

(** X19. The episode statistics of [per_episode]: an episode without a
    ["reward"] entry raises [KeyError]; otherwise the logged length is the
    number of rewards minus one, the discounted score is
    [sum_t 0.99^t * reward[t]] (discounted from the start of the episode with
    the fixed factor 0.99), the score and the discounted score are both
    bounded in absolute value by [sum_abs_reward], and for non-negative
    rewards the discounted score lies between zero and the score. *)
Theorem per_episode_stats (ep : gmap string (list R)) :
  (ep !! "reward" = None -> per_episode ep = Raise KeyError) /\
  (forall reward, ep !! "reward" = Some reward ->
     exists st,
       per_episode ep = Ok st /\
       ep_length st = (Z.of_nat (length reward) - 1)%Z /\
       ep_discounted_score st
       = sum_list (imap (fun t r => (99 / 100) ^ t * r) reward) /\
       Rabs (ep_score st) <= ep_sum_abs_reward st /\
       Rabs (ep_discounted_score st) <= ep_sum_abs_reward st /\
       (Forall (fun r => 0 <= r) reward ->
        0 <= ep_discounted_score st <= ep_score st)).
Proof.
  unfold per_episode. split; [by intros ->|].
  intros reward ->. eexists. split; [reflexivity|]. cbn.
  split; [done|]. split; [|split; [|split]].
  - pose proof (discounted_score_sum 0 reward) as Hsum.
    simpl in Hsum. rewrite Hsum. ring.
  - apply sum_list_abs.
  - apply discounted_score_abs.
  - apply discounted_score_nonneg.
Qed.

Lemma per_episode_stats_witness :
  exists st,
    per_episode {["reward" := [1; 0; 2]]} = Ok st /\
    ep_length st = 2%Z /\
    ep_discounted_score st
    = sum_list (imap (fun t r => (99 / 100) ^ t * r) [1; 0; 2]).
Proof.
  destruct (per_episode_stats {["reward" := [1; 0; 2]]}) as [_ Hstats].
  destruct (Hstats [1; 0; 2]) as (st & Hok & Hlen & Hdisc & _).
  - by rewrite lookup_singleton_eq.
  - exists st. by repeat split.
Defined.

(** ** [Agent.preprocess] *)

Lemma preprocess_loop_lookup (compute : dtype) (obs : gmap string array) k :
  map_imap (fun key value =>
              Some (if preprocess_skips key then value
                    else preprocess_value compute value)) obs !! k
  = (fun value => if preprocess_skips k then value
                  else preprocess_value compute value) <$> obs !! k.
Proof. rewrite map_lookup_imap. by destruct (obs !! k). Qed.

Lemma preprocess_value_cases (compute : dtype) (v : array) :
  arr_rank (preprocess_value compute v) = arr_rank v /\
  ((3 < arr_rank v)%nat -> arr_dtype v = uint8 ->
   arr_dtype (preprocess_value compute v) = compute /\
   arr_vals (preprocess_value compute v) = map (fun x => x / 255) (arr_vals v)) /\
  (((arr_rank v <= 3)%nat \/ arr_dtype v <> uint8) ->
   arr_dtype (preprocess_value compute v) = float32 /\
   arr_vals (preprocess_value compute v) = arr_vals v).
Proof.
  unfold preprocess_value.
  destruct (Nat.ltb_spec 3 (arr_rank v)) as [Hr|Hr];
    destruct (bool_decide_reflect (arr_dtype v = uint8)) as [Hd|Hd];
    cbn [andb arr_rank arr_dtype arr_vals];
    (split; [done|split;
       [intros Hr' Hd'; first [done|lia]
       |intros [Hle|Hne]; first [done|lia]]]).
Qed.

(** X20. [Agent.preprocess] without augmentation: observations without an
    ["is_terminal"] entry raise [KeyError]; otherwise the result has the keys
    of the input plus ["cont"], and ["cont"] is [1 - is_terminal] computed
    from the already converted [is_terminal] entry; entries whose key starts
    with ["log_"] or is ["key"] are passed through unchanged; a [uint8] array
    of rank above three (an image batch) with values in [[0, 255]] comes out
    in the compute dtype with values in [[0, 1]]; and every other entry keeps
    its values as [float32]. *)
Theorem preprocess_entries (compute : dtype) (obs : gmap string array) :
  (obs !! "is_terminal" = None -> preprocess compute obs = Raise KeyError) /\
  (forall terminal, obs !! "is_terminal" = Some terminal ->
     exists obs',
       preprocess compute obs = Ok obs' /\
       dom obs' = dom obs ∪ {["cont"]} /\
       (exists cont terminal',
          obs' !! "cont" = Some cont /\
          obs' !! "is_terminal" = Some terminal' /\
          arr_dtype cont = float32 /\
          arr_vals cont = map (fun x => 1 - x) (arr_vals terminal') /\
          (((arr_rank terminal <= 3)%nat \/ arr_dtype terminal <> uint8) ->
           arr_vals cont = map (fun x => 1 - x) (arr_vals terminal))) /\
       (forall k v, k <> "cont" -> obs !! k = Some v ->
          exists v',
            obs' !! k = Some v' /\ arr_rank v' = arr_rank v /\
            (preprocess_skips k = true -> v' = v) /\
            (preprocess_skips k = false ->
             (3 < arr_rank v)%nat -> arr_dtype v = uint8 ->
             arr_dtype v' = compute /\
             (Forall (fun x => 0 <= x <= 255) (arr_vals v) ->
              Forall (fun x => 0 <= x <= 1) (arr_vals v'))) /\
            (preprocess_skips k = false ->
             ((arr_rank v <= 3)%nat \/ arr_dtype v <> uint8) ->
             arr_dtype v' = float32 /\ arr_vals v' = arr_vals v))).
Proof.
  unfold preprocess. split.
  - intros Hnone. by rewrite preprocess_loop_lookup, Hnone.
  - intros terminal Hterm. rewrite preprocess_loop_lookup, Hterm.
    assert (Hskip : preprocess_skips "is_terminal" = false) by reflexivity.
    rewrite Hskip. cbn [fmap option_fmap option_map].
    eexists. split; [reflexivity|]. split; [|split].
    + rewrite dom_insert_L. apply set_eq. intros k.
      rewrite !elem_of_union, !elem_of_dom, preprocess_loop_lookup.
      rewrite fmap_is_Some. tauto.
    + do 2 eexists. rewrite lookup_insert_eq.
      rewrite lookup_insert_ne by done.
      rewrite preprocess_loop_lookup, Hterm, Hskip.
      cbn [fmap option_fmap option_map].
      split; [reflexivity|]. split; [reflexivity|]. split; [reflexivity|].
      split; [reflexivity|]. intros Hplain. cbn [arr_vals].
      destruct (preprocess_value_cases compute terminal) as (_ & _ & Hother).
      destruct (Hother Hplain) as [_ ->]. reflexivity.
    + intros k v Hk Hv. rewrite lookup_insert_ne by done.
      rewrite preprocess_loop_lookup, Hv. cbn [fmap option_fmap option_map].
      eexists. split; [reflexivity|].
      destruct (preprocess_value_cases compute v) as (Hrank & Himg & Hother).
      destruct (preprocess_skips k) eqn:Hs.
      * split; [done|]. by repeat split.
      * split; [exact Hrank|]. split; [done|]. split.
        -- intros _ Hr Hd. destruct (Himg Hr Hd) as [Hdt Hvals].
           split; [exact Hdt|]. rewrite Hvals. intros Hrange.
           apply Forall_map. eapply Forall_impl; [exact Hrange|].
           intros x Hx. simpl in *. lra.
        -- intros _ Hplain. by apply Hother.
Qed.

Lemma preprocess_entries_witness :
  exists obs',
    preprocess float16
               {["is_terminal" := mkArray 2 bool_ [0; 1]]} = Ok obs' /\
    dom obs' = dom ({["is_terminal" := mkArray 2 bool_ [0; 1]]}
                    : gmap string array) ∪ {["cont"]}.
Proof.
  destruct (preprocess_entries float16
              {["is_terminal" := mkArray 2 bool_ [0; 1]]}) as [_ Hok].
  destruct (Hok (mkArray 2 bool_ [0; 1])) as (obs' & Hpre & Hdom & _).
  - by rewrite lookup_singleton_eq.
  - exists obs'. by split.
Defined.

(** ** [tensorstats]: the logged statistics are ordered *)

Lemma sum_list_bounds (x : list R) (lo hi : R) :
  Forall (fun v => lo <= v <= hi) x ->
  INR (length x) * lo <= sum_list x <= INR (length x) * hi.
Proof.
  induction 1 as [|v x Hv Hx IH].
  - simpl. lra.
  - cbn [sum_list]. change (length (v :: x)) with (S (length x)).
    rewrite S_INR. cbv beta in Hv. lra.
Qed.

Lemma mean_list_bounds (x : list R) (lo hi : R) :
  x <> [] -> Forall (fun v => lo <= v <= hi) x -> lo <= mean_list x <= hi.
Proof.
  intros Hne Hall. pose proof (sum_list_bounds x lo hi Hall) as Hsum.
  assert (Hn : 0 < INR (length x)).
  { apply lt_0_INR. destruct x; [done|simpl; lia]. }
  unfold mean_list. pose proof (Rinv_0_lt_compat _ Hn) as Hinv.
  split.
  - apply (Rmult_le_reg_r (INR (length x))); [exact Hn|].
    unfold Rdiv. rewrite Rmult_assoc, Rinv_l by lra. lra.
  - apply (Rmult_le_reg_r (INR (length x))); [exact Hn|].
    unfold Rdiv. rewrite Rmult_assoc, Rinv_l by lra. lra.
Qed.

Lemma fold_left_Rmin_in (rest : list R) (a : R) :
  In (fold_left Rmin rest a) (a :: rest).
Proof.
  revert a. induction rest as [|b rest IH]; intros a; simpl; [by left|].
  destruct (IH (Rmin a b)) as [Heq|Hin]; [|by right; right].
  unfold Rmin in Heq at 1. destruct (Rle_dec a b); [by left|right; by left].
Qed.

Lemma fold_left_Rmax_in (rest : list R) (a : R) :
  In (fold_left Rmax rest a) (a :: rest).
Proof.
  revert a. induction rest as [|b rest IH]; intros a; simpl; [by left|].
  destruct (IH (Rmax a b)) as [Heq|Hin]; [|by right; right].
  unfold Rmax in Heq at 1. destruct (Rle_dec a b); [right; by left|by left].
Qed.

Lemma sum_squared_deviation (x : list R) (m : R) :
  sum_list (map (fun v => (v - m) ^ 2) x)
  = sum_list (map (fun v => v ^ 2) x) - 2 * m * sum_list x
    + INR (length x) * m ^ 2.
Proof.
  induction x as [|v x IH].
  - simpl. ring.
  - cbn [map sum_list]. change (length (v :: x)) with (S (length x)).
    rewrite S_INR, IH. ring.
Qed.

Lemma std_list_bounds (x : list R) (mag : R) :
  x <> [] -> Forall (fun v => Rabs v <= mag) x -> 0 <= std_list x <= mag.
Proof.
  intros Hne Hall. unfold std_list. split; [apply sqrt_pos|].
  assert (Hn : 0 < INR (length x)).
  { apply lt_0_INR. destruct x; [done|simpl; lia]. }
  assert (Hmag : 0 <= mag).
  { destruct Hall as [|v x Hv _]; [done|]. pose proof (Rabs_pos v). lra. }
  set (m := mean_list x).
  assert (Hsum : sum_list x = INR (length x) * m).
  { unfold m, mean_list. field. lra. }
  assert (Hsq : Forall (fun v => 0 <= v <= mag ^ 2) (map (fun v => v ^ 2) x)).
  { apply Forall_map. eapply Forall_impl; [exact Hall|]. intros v Hv.
    simpl in Hv |- *. unfold Rabs in Hv. destruct (Rcase_abs v); nra. }
  pose proof (sum_list_bounds _ _ _ Hsq) as Hbound.
  rewrite length_map in Hbound.
  assert (Hvar : mean_list (map (fun v => (v - m) ^ 2) x) <= mag ^ 2).
  { unfold mean_list. rewrite length_map, sum_squared_deviation, Hsum.
    apply (Rmult_le_reg_r (INR (length x))); [exact Hn|].
    unfold Rdiv. rewrite Rmult_assoc, Rinv_l by lra.
    assert (0 <= INR (length x) * m ^ 2) by nra. nra. }
  rewrite <- (sqrt_pow2 mag Hmag). apply sqrt_le_1_alt. exact Hvar.
Qed.

(** X21. The statistics logged by [tensorstats]: an empty tensor raises
    [ValueError]; for a non-empty tensor the entries are, in order, the
    (prefixed) keys mean, std, mag, min, max and dist, with
    [min <= mean <= max], every element between [min] and [max],
    [-mag <= min], [max <= mag] and [0 <= std <= mag]; the sample under
    [dist] has at most 1024 elements and is the whole tensor when that has at
    most 1024 elements. *)
Theorem tensorstats_order (perm : list R -> list R) (tensor : list R)
        (prefix : string) :
  tensorstats perm [] prefix = Raise ValueError /\
  (tensor <> [] ->
   exists mean std mag mn mx,
     tensorstats perm tensor prefix
     = Ok [(metric_key prefix "mean", Scalar mean);
           (metric_key prefix "std", Scalar std);
           (metric_key prefix "mag", Scalar mag);
           (metric_key prefix "min", Scalar mn);
           (metric_key prefix "max", Scalar mx);
           (metric_key prefix "dist", Samples (subsample perm tensor 1024))] /\
     mn <= mean <= mx /\
     Forall (fun v => mn <= v <= mx) tensor /\
     - mag <= mn /\ mx <= mag /\
     0 <= std <= mag /\
     (length (subsample perm tensor 1024) <= 1024)%nat /\
     ((length tensor <= 1024)%nat -> subsample perm tensor 1024 = tensor)).
Proof.
  split; [reflexivity|]. intros Hne.
  assert (Habs_ne : map Rabs tensor <> []) by (destruct tensor; done).
  destruct (max_list_spec _ Habs_ne) as (mag & Hmag & Hmag_all).
  destruct (min_list_spec _ Hne) as (mn & Hmn & Hmn_all).
  destruct (max_list_spec _ Hne) as (mx & Hmx & Hmx_all).
  exists (mean_list tensor), (std_list tensor), mag, mn, mx.
  unfold tensorstats. rewrite Hmag, Hmn, Hmx, !bind_Ok.
  split; [reflexivity|].
  apply Forall_map in Hmag_all.
  assert (Hrange : Forall (fun v => mn <= v <= mx) tensor).
  { apply Forall_forall. intros v Hv.
    rewrite Forall_forall in Hmn_all, Hmx_all.
    split; [by apply Hmn_all|by apply Hmx_all]. }
  assert (Hin_mn : In mn tensor).
  { destruct tensor as [|a rest]; [done|]. simpl in Hmn.
    injection Hmn as <-. apply fold_left_Rmin_in. }
  assert (Hin_mx : In mx tensor).
  { destruct tensor as [|a rest]; [done|]. simpl in Hmx.
    injection Hmx as <-. apply fold_left_Rmax_in. }
  rewrite Forall_forall in Hmag_all.
  pose proof (Hmag_all mn (proj2 (list_elem_of_In _ _) Hin_mn)) as Hmn_abs.
  pose proof (Hmag_all mx (proj2 (list_elem_of_In _ _) Hin_mx)) as Hmx_abs.
  simpl in Hmn_abs, Hmx_abs.
  split; [by apply mean_list_bounds|]. split; [exact Hrange|].
  split; [unfold Rabs in Hmn_abs; destruct (Rcase_abs mn); lra|].
  split; [unfold Rabs in Hmx_abs; destruct (Rcase_abs mx); lra|].
  split; [apply std_list_bounds; [exact Hne|by apply Forall_forall]|].
  unfold subsample. split.
  - destruct (Nat.ltb_spec 1024 (length tensor)) as [Hlt|Hge].
    + rewrite length_take. lia.
    + exact Hge.
  - intros Hle. destruct (Nat.ltb_spec 1024 (length tensor)); [lia|done].
Qed.

Lemma tensorstats_order_witness :
  exists mean std mag mn mx,
    tensorstats (fun v => v) [1; -3; 2] "ret"
    = Ok [(metric_key "ret" "mean", Scalar mean);
          (metric_key "ret" "std", Scalar std);
          (metric_key "ret" "mag", Scalar mag);
          (metric_key "ret" "min", Scalar mn);
          (metric_key "ret" "max", Scalar mx);
          (metric_key "ret" "dist",
           Samples (subsample (fun v => v) [1; -3; 2] 1024))] /\
    mn <= mean <= mx.
Proof.
  destruct (tensorstats_order (fun v => v) [1; -3; 2] "ret") as [_ Hstats].
  destruct (Hstats ltac:(done))
    as (mean & std & mag & mn & mx & Hok & Hmean & _).
  exists mean, std, mag, mn, mx. by split.
Defined.

(** ** [late_grad_clip] *)

Lemma clip_symmetric_id (x value : R) :
  Rabs x <= value -> clip x (- value) value = x.
Proof.
  intros Hx. apply clip_id. unfold Rabs in Hx. destruct (Rcase_abs x); lra.
Qed.

Lemma clip_symmetric_abs (x value : R) :
  0 <= value -> Rabs (clip x (- value) value) <= value.
Proof.
  intros Hv. pose proof (clip_bounds x (- value) value ltac:(lra)) as Hb.
  unfold Rabs. destruct (Rcase_abs (clip x (- value) value)); lra.
Qed.

Lemma clip_inverted (x value : R) :
  value < 0 -> clip x (- value) value = value.
Proof.
  intros Hv. unfold clip. apply Rmin_left.
  pose proof (Rmax_l (- value) x). lra.
Qed.

(** X22. The update of [late_grad_clip]: it keeps the keys and the shape of
    every entry; for a non-negative clip value every returned update has
    magnitude at most that value, updates that are already within the bound
    are returned unchanged, and clipping twice is the same as clipping once;
    for a negative clip value every update is replaced by that value. *)
Theorem late_grad_clip_bounded (value : R) (updates params : gmap string (list R)) :
  let clipped := (late_grad_clip_update value updates tt params).1 in
  dom clipped = dom updates /\
  (forall k u, updates !! k = Some u ->
     exists c, clipped !! k = Some c /\ length c = length u /\
       (0 <= value -> Forall (fun x => Rabs x <= value) c) /\
       (Forall (fun x => Rabs x <= value) u -> c = u) /\
       (value < 0 -> c = map (fun _ => value) u)) /\
  (0 <= value ->
   (late_grad_clip_update value clipped tt params).1 = clipped).
Proof.
  intros clipped. subst clipped. unfold late_grad_clip_update. cbn [fst].
  split; [apply dom_fmap_L|]. split.
  - intros k u Hu. eexists. rewrite lookup_fmap, Hu.
    split; [reflexivity|]. split; [apply length_map|]. split; [|split].
    + intros Hv. apply Forall_map, Forall_forall. intros x _.
      by apply clip_symmetric_abs.
    + intros Hall. rewrite <- (map_id u) at 2. apply map_ext_Forall.
      eapply Forall_impl; [exact Hall|]. intros x Hx.
      by apply clip_symmetric_id.
    + intros Hv. apply map_ext. intros x. by apply clip_inverted.
  - intros Hv. apply map_eq. intros k. rewrite !lookup_fmap.
    destruct (updates !! k) as [u|]; [|done]. simpl. f_equal.
    rewrite map_map. apply map_ext. intros x.
    apply clip_symmetric_id. by apply clip_symmetric_abs.
Qed.

Lemma late_grad_clip_bounded_witness :
  exists c,
    (late_grad_clip_update 1 {["w" := [3; -5; 1 / 2]]} tt ∅).1 !! "w" = Some c /\
    Forall (fun x => Rabs x <= 1) c.
Proof.
  destruct (late_grad_clip_bounded 1 {["w" := [3; -5; 1 / 2]]} ∅)
    as (_ & Hentry & _).
  destruct (Hentry "w" [3; -5; 1 / 2]) as (c & Hc & _ & Hbound & _).
  - by rewrite lookup_singleton_eq.
  - exists c. split; [exact Hc|]. apply Hbound. lra.
Defined.

(** ** [balance_stats] *)

Lemma sum_pos_neg (target : list R) (thres : R) :
  sum_list (map (fun t => if Rgt_dec t thres then 1 else 0) target)
  + sum_list (map (fun t => if Rle_dec t thres then 1 else 0) target)
  = INR (length target).
Proof.
  induction target as [|t target IH]; [simpl; lra|].
  cbn [map sum_list]. change (length (t :: target)) with (S (length target)).
  rewrite S_INR. destruct (Rgt_dec t thres), (Rle_dec t thres); lra.
Qed.

Lemma sum_split_pos_neg (w target : list R) (thres : R) :
  length w = length target ->
  sum_list (zip_with Rmult w
              (map (fun t => if Rgt_dec t thres then 1 else 0) target))
  + sum_list (zip_with Rmult w
                (map (fun t => if Rle_dec t thres then 1 else 0) target))
  = sum_list w.
Proof.
  revert target. induction w as [|x w IH]; intros [|t target] Hlen;
    simpl in *; try discriminate; [lra|].
  specialize (IH target ltac:(lia)).
  destruct (Rgt_dec t thres), (Rle_dec t thres); lra.
Qed.

Lemma sum_indicator_positive (P : R -> Prop)
      (dec : forall t, {P t} + {~ P t}) (target : list R) :
  Exists P target ->
  0 < sum_list (map (fun t => if dec t then 1 else 0) target).
Proof.
  assert (Hnn : forall l, 0 <= sum_list (map (fun t => if dec t then 1 else 0) l)).
  { induction l as [|t l IH]; simpl; [lra|]. destruct (dec t); lra. }
  induction 1 as [t target Ht|t target Hex IH]; simpl.
  - destruct (dec t); [|done]. specialize (Hnn target). lra.
  - destruct (dec t); lra.
Qed.

Lemma sum_weighted_indicator (P : R -> Prop)
      (dec : forall t, {P t} + {~ P t}) (w target : list R) :
  Forall (fun x => 0 <= x <= 1) w ->
  0 <= sum_list (zip_with Rmult w (map (fun t => if dec t then 1 else 0) target))
    <= sum_list (map (fun t => if dec t then 1 else 0) target).
Proof.
  intros Hw. revert target. induction Hw as [|x w Hx Hw IH]; intros target.
  - simpl. clear. induction target as [|t target IH]; simpl; [lra|].
    destruct (dec t); lra.
  - destruct target as [|t target]; [simpl; lra|].
    cbn [map zip_with sum_list]. specialize (IH target).
    destruct (dec t); nra.
Qed.

(** X23. The class-balanced statistics of [balance_stats]: for predictions,
    losses and targets of one shape and a batch that contains both a target
    above and a target not above the threshold, the positive rate lies
    strictly between 0 and 1, both accuracies lie in [[0, 1]], and the
    per-class losses average back to the mean loss:
    [rate * pos_loss + (1 - rate) * neg_loss = mean(loss)]. *)
Theorem balance_stats_rates (dist_mean loss target : list R) (thres : R) :
  length dist_mean = length target -> length loss = length target ->
  Exists (fun t => t > thres) target -> Exists (fun t => t <= thres) target ->
  let s := balance_stats dist_mean loss target thres in
  0 < bs_rate s < 1 /\
  0 <= bs_pos_acc s <= 1 /\
  0 <= bs_neg_acc s <= 1 /\
  bs_rate s * bs_pos_loss s + (1 - bs_rate s) * bs_neg_loss s = mean_list loss.
Proof.
  intros Hmean Hloss Hpos Hneg s. subst s. unfold balance_stats.
  cbn [bs_rate bs_pos_acc bs_neg_acc bs_pos_loss bs_neg_loss].
  set (pos := map (fun t => if Rgt_dec t thres then 1 else 0) target).
  set (neg := map (fun t => if Rle_dec t thres then 1 else 0) target).
  set (pred := map (fun m => if Rgt_dec m thres then 1 else 0) dist_mean).
  pose proof (sum_pos_neg target thres) as Hsum. fold pos neg in Hsum.
  pose proof (sum_indicator_positive (fun t => t > thres)
                (fun t => Rgt_dec t thres) target Hpos) as Hp.
  pose proof (sum_indicator_positive (fun t => t <= thres)
                (fun t => Rle_dec t thres) target Hneg) as Hn.
  change (0 < sum_list pos) in Hp. change (0 < sum_list neg) in Hn.
  assert (Hlen : 0 < INR (length target)) by lra.
  assert (Hpred : Forall (fun x => 0 <= x <= 1) pred).
  { apply Forall_map, Forall_forall. intros m _. simpl.
    destruct (Rgt_dec m thres); lra. }
  assert (Hnpred : Forall (fun x => 0 <= x <= 1) (map (fun p => 1 - p) pred)).
  { apply Forall_map. eapply Forall_impl; [exact Hpred|].
    intros x Hx. simpl in *. lra. }
  unfold mean_list. replace (length pos) with (length target)
    by (unfold pos; by rewrite length_map).
  rewrite Hloss.
  split; [|split; [|split]].
  - split.
    + apply Rdiv_lt_0_compat; lra.
    + apply (Rmult_lt_reg_r (INR (length target))); [exact Hlen|].
      unfold Rdiv. rewrite Rmult_assoc, Rinv_l by lra. lra.
  - pose proof (sum_weighted_indicator (fun t => t > thres)
                  (fun t => Rgt_dec t thres) pred target Hpred) as Hb.
    change (0 <= sum_list (zip_with Rmult pred pos) <= sum_list pos) in Hb.
    by apply ratio_unit.
  - pose proof (sum_weighted_indicator (fun t => t <= thres)
                  (fun t => Rle_dec t thres)
                  (map (fun p => 1 - p) pred) target Hnpred) as Hb.
    change (0 <= sum_list (zip_with Rmult (map (fun p => 1 - p) pred) neg)
            <= sum_list neg) in Hb.
    by apply ratio_unit.
  - pose proof (sum_split_pos_neg loss target thres Hloss) as Hsplit.
    fold pos neg in Hsplit. rewrite <- Hsplit.
    assert (Hnegsum : sum_list neg = INR (length target) - sum_list pos)
      by lra.
    rewrite Hnegsum. field. lra.
Qed.

Lemma balance_stats_rates_witness :
  0 < bs_rate (balance_stats [1; 0] [2; 3] [1; 0] (1 / 2)) < 1.
Proof.
  apply (balance_stats_rates [1; 0] [2; 3] [1; 0] (1 / 2));
    try reflexivity.
  - apply Exists_cons_hd. lra.
  - apply Exists_cons_tl, Exists_cons_hd. lra.
Defined.
